(** * parquet-common, package [search]: the query facade

    Shallow embedding of [search/parquet_queriable.go]: the queryable, the
    querier ([Select], [LabelNames], [LabelValues]) and the per-block
    operations ([query], [labelNames], [labelValues]), together with the
    library operations they call. *)

From Stdlib Require Import String Ascii.
From Stdlib Require Import ZArith List Bool Lia.
From Stdlib Require Import Sorting.Sorted Sorting.Permutation.
From Stdlib Require Import Structures.OrderedTypeEx.
Import ListNotations.

Local Open Scope Z_scope.
Local Open Scope list_scope.

(** ** Results of fallible calls

    A Go call returning [(v, err)] is tested with [err != nil] only; it is
    modelled as the sum of the error and the value. *)

Definition error := string.

Definition result (A : Type) : Type := (error + A)%type.

Definition is_err {A} (r : result A) : bool :=
  match r with inl _ => true | inr _ => false end.

(** ** Prometheus data: labels, chunks, series *)

Module labels.

Record Label := mkLabel { Name : string; Value : string }.

(** [labels.Labels]: a slice of labels. *)
Definition Labels := list Label.

(** Go's [<] on strings is the byte-wise lexicographic order. *)
Definition str_lt (a b : string) : bool := String.ltb a b.

(** [labels.Compare]: the first differing name decides, then the first
    differing value; when one set is a prefix of the other the shorter
    one comes first ([len(a) - len(b)]). *)
Fixpoint Compare (a b : Labels) : Z :=
  match a, b with
  | la :: a', lb :: b' =>
      if negb (String.eqb (Name la) (Name lb)) then
        if str_lt (Name la) (Name lb) then -1 else 1
      else if negb (String.eqb (Value la) (Value lb)) then
        if str_lt (Value la) (Value lb) then -1 else 1
      else Compare a' b'
  | _, _ => Z.of_nat (List.length a) - Z.of_nat (List.length b)
  end.

Definition Label_eqb (x y : Label) : bool :=
  String.eqb (Name x) (Name y) && String.eqb (Value x) (Value y).

(** [labels.Equal]: same length and the same labels position by
    position. *)
Fixpoint Equal (a b : Labels) : bool :=
  match a, b with
  | [], [] => true
  | x :: a', y :: b' => Label_eqb x y && Equal a' b'
  | _, _ => false
  end.

Inductive MatchType := MatchEqual | MatchNotEqual | MatchRegexp | MatchNotRegexp.

Record Matcher := mkMatcher
  { mType : MatchType; mName : string; mValue : string }.

End labels.

Module chunks.

(** A sample: its timestamp, an [int64], and its value, a [float64] that is
    only ever carried along, kept as its 64 bits. *)
Record Sample := mkSample { T : Z; V : Z }.

(** [chunks.Meta]: a chunk and the time range it covers. The chunk, a
    [chunkenc.Chunk], is kept as the samples its iterator yields. *)
Record Meta := mkMeta
  { MinTime : Z; MaxTime : Z; Chunk : list Sample }.

End chunks.

Module storage.

(** [storage.ChunkSeries]: a label set and its chunks, in iteration
    order. *)
Record ChunkSeries := mkChunkSeries
  { Labels : labels.Labels; Chunks : list chunks.Meta }.

(** A [storage.ChunkSeriesSet], as the sequence of series it yields. *)
Definition ChunkSeriesSet := list ChunkSeries.

(** A [storage.Series] as [NewSeriesSetFromChunkSeriesSet] yields it: the
    label set of the chunk series and the chunks it holds one decoder for.
    A caller sees of it whether it is nil ([IsNil]), its label set
    ([sLabels], Go's [Labels()]) and its samples ([Iterator]). *)
Record Series := mkSeries
  { sLabels : labels.Labels; sChunks : list chunks.Meta }.

(** [storage.SeriesSet]: the series it yields and the error [Err()]
    reports once iteration stops. *)
Record SeriesSet := mkSeriesSet
  { series : list Series; Err : option error }.

(** [storage.ErrSeriesSet(err)]: yields nothing and reports [err]. *)
Definition ErrSeriesSet (e : error) : SeriesSet :=
  {| series := []; Err := Some e |}.

(** [math.MinInt64] *)
Definition MinInt64 : Z := - 2 ^ 63.

(** One step of the chained sample iterator: among the iterators, each the
    samples it has not yielded yet, the one positioned at the smallest
    timestamp yields its sample and moves on. Among iterators positioned at
    the same timestamp the library takes whichever its heap holds on top;
    here it is the first of them. *)
Fixpoint pick (its : list (list chunks.Sample))
  : option (chunks.Sample * list (list chunks.Sample)) :=
  match its with
  | [] => None
  | it :: rest =>
      match it, pick rest with
      | [], None => None
      | [], Some (q, rest') => Some (q, [] :: rest')
      | p :: it', None => Some (p, it' :: rest)
      | p :: it', Some (q, rest') =>
          if chunks.T p <=? chunks.T q then Some (p, it' :: rest)
          else Some (q, it :: rest')
      end
  end.

(** The loop of the chained sample iterator: a sample whose timestamp is
    the one yielded last, [lastT], is skipped. Every round takes one sample
    off an iterator. *)
Fixpoint chain (fuel : nat) (lastT : Z) (its : list (list chunks.Sample))
  : list chunks.Sample :=
  match fuel with
  | O => []
  | S fuel' =>
      match pick its with
      | None => []
      | Some (p, its') =>
          if chunks.T p =? lastT then chain fuel' lastT its'
          else p :: chain fuel' (chunks.T p) its'
      end
  end.

(** [storage.ChainSampleIteratorFromSeries]: the samples of all the
    iterators by timestamp, every timestamp once; [lastT] starts at
    [math.MinInt64]. *)
Definition ChainSampleIterator (its : list (list chunks.Sample)) : list chunks.Sample :=
  chain (length (concat its)) MinInt64 its.

(** The series [chunkSetToSeriesSet] is positioned at, for the chunk series
    [cs]: one decoder per chunk of [cs], under the labels of [cs]. *)
Definition decoded (cs : ChunkSeries) : Series :=
  {| sLabels := Labels cs; sChunks := Chunks cs |}.

(** [At()] is [ChainedSeriesMerge] over the decoders, which is nil when
    there is none, that is for a chunk series without chunks. A nil series
    has no label set in Go; [sLabels] is then that of the chunk series it
    stands for. *)
Definition IsNil (s : Series) : bool :=
  match sChunks s with [] => true | _ :: _ => false end.

(** The samples the iterator of a series yields: the chained sample
    iterator over the iterators of its chunks. *)
Definition Iterator (s : Series) : list chunks.Sample :=
  ChainSampleIterator (map chunks.Chunk (sChunks s)).

(** [storage.NewSeriesSetFromChunkSeriesSet]: every chunk series of the set
    becomes the series that decodes its chunks. *)
Definition NewSeriesSetFromChunkSeriesSet (css : ChunkSeriesSet) : SeriesSet :=
  {| series := map decoded css; Err := None |}.

(** [storage.VerticalChunkSeriesMergeFunc]: merges series of one label
    set; [None] is Go's [nil], returned for no series. *)
Definition VerticalChunkSeriesMergeFunc := list ChunkSeries -> option ChunkSeries.

(** [storage.NewConcatenatingChunkSeriesMerger]: the merged series has
    the first series' labels and the chunks of all the series, one
    series after the other, in argument order. *)
Definition NewConcatenatingChunkSeriesMerger : VerticalChunkSeriesMergeFunc :=
  fun ss =>
    match ss with
    | [] => None
    | s0 :: _ => Some {| Labels := Labels s0; Chunks := concat (map Chunks ss) |}
    end.

Record LabelHints := mkLabelHints { Limit : Z }.

Record SelectHints := mkSelectHints { Start : Z; End_ : Z }.

End storage.

Module annotations.
(** [annotations.Annotations]; the queries below only ever return [nil]. *)
Definition Annotations := list string.
End annotations.

(** ** Go's [sort] package *)

Module gosort.

(** One pass of insertion: [x] goes before the first element it is less
    than. *)
Fixpoint insert {A : Type} (less : A -> A -> bool) (x : A) (l : list A) : list A :=
  match l with
  | [] => [x]
  | y :: l' => if less x y then x :: l else y :: insert less x l'
  end.

(** [sort.Sort(data)]: reorders [data] so that it is sorted with respect to
    [data.Less]. Go fixes no order among elements neither of which is less
    than the other, and [sort.Sort] is not stable. The model is the
    insertion sort that [sort.Sort] runs on slices of at most 12 elements,
    taking the elements from left to right; on longer slices it stands for
    [sort.Sort] only in that its result is sorted and holds the same
    elements. *)
Definition Sort {A : Type} (less : A -> A -> bool) (data : list A) : list A :=
  fold_left (fun acc x => insert less x acc) data [].

End gosort.

(** ** Package [convert] *)

Module convert.
Import storage.

(** [convert.NewChunksSeriesSet(series)]: the set that yields the slice's
    series in order. *)
Definition NewChunksSeriesSet (results : list ChunkSeries) : ChunkSeriesSet := results.

(** The smallest label set, under [compare], among the series the sets are
    positioned at; [None] when every set is exhausted. *)
Fixpoint min_head (compare : labels.Labels -> labels.Labels -> Z)
  (sets : list ChunkSeriesSet) : option labels.Labels :=
  match sets with
  | [] => None
  | [] :: rest => min_head compare rest
  | (x :: _) :: rest =>
      match min_head compare rest with
      | None => Some (Labels x)
      | Some l => if compare l (Labels x) <? 0 then Some l else Some (Labels x)
      end
  end.

(** Takes the current series off every set positioned at label set [l]:
    the series taken, in the order of the sets, and the sets afterwards. *)
Fixpoint pop_equal (l : labels.Labels) (sets : list ChunkSeriesSet)
  : list ChunkSeries * list ChunkSeriesSet :=
  match sets with
  | [] => ([], [])
  | s :: rest =>
      let (cur, rest') := pop_equal l rest in
      match s with
      | x :: s' =>
          if labels.Equal (Labels x) l then (x :: cur, s' :: rest')
          else (cur, s :: rest')
      | [] => (cur, s :: rest')
      end
  end.

Definition total_len (sets : list ChunkSeriesSet) : nat :=
  list_sum (map (@length ChunkSeries) sets).

Fixpoint merge_loop (compare : labels.Labels -> labels.Labels -> Z)
  (mergeFunc : VerticalChunkSeriesMergeFunc)
  (fuel : nat) (sets : list ChunkSeriesSet) : list ChunkSeries :=
  match fuel with
  | O => []
  | S fuel' =>
      match min_head compare sets with
      | None => []
      | Some l =>
          let (cur, sets') := pop_equal l sets in
          match mergeFunc cur with
          | Some s => s :: merge_loop compare mergeFunc fuel' sets'
          | None => merge_loop compare mergeFunc fuel' sets'
          end
      end
  end.

(** Modelled from the spec: [convert.NewMergeChunkSeriesSet] belongs to
    package [convert] of this repository, whose source is missing. It is
    the cross-block union of the spec's MergedSeriesSet: the per-block sets are
    walked together, in each round the smallest current label set under
    [compare] is chosen, the series with that identical label set are taken
    from every block positioned at it and merged into one series by
    [mergeFunc], and the other blocks stay where they are. Every round
    consumes at least one series, so [total_len sets] rounds exhaust the
    sets. *)
Definition NewMergeChunkSeriesSet (sets : list ChunkSeriesSet)
  (compare : labels.Labels -> labels.Labels -> Z)
  (mergeFunc : VerticalChunkSeriesMergeFunc) : ChunkSeriesSet :=
  merge_loop compare mergeFunc (total_len sets) sets.

End convert.

(** ** Package [util] *)

Module util.

(** Keeps the first occurrence of every string. *)
Fixpoint dedup (l : list string) : list string :=
  match l with
  | [] => []
  | x :: l' => x :: filter (fun y => negb (String.eqb x y)) (dedup l')
  end.

(** Modelled from the spec: [util.MergeUnsortedSlices] belongs to package
    [util] of this repository, whose source is missing. The spec's label
    aggregation merge: all the lists are merged "by deduplicating, sorting
    ascending, and, if [limit] is greater than zero, truncating to the first
    [limit] entries after sorting; [limit] of zero means unlimited". *)
Definition MergeUnsortedSlices (limit : Z) (ss : list (list string)) : list string :=
  let all := gosort.Sort labels.str_lt (dedup (concat ss)) in
  if 0 <? limit then firstn (Z.to_nat limit) all else all.

End util.

(** ** Effects: a trace of the calls made, the receiver's state, errors *)

Module Eff.

Section Monad.
Context {Ev St : Type}.

(** A computation over a state [St]: the calls it made, the state it
    leaves, and an error or a value. After an error nothing more runs. *)
Definition M (A : Type) : Type := St -> list Ev * St * result A.

Definition ret {A} (a : A) : M A := fun s => ([], s, inr a).

Definition bind {A B} (c : M A) (k : A -> M B) : M B :=
  fun s =>
    match c s with
    | (t1, s1, inl e) => (t1, s1, inl e)
    | (t1, s1, inr a) =>
        match k a s1 with
        | (t2, s2, r) => (t1 ++ t2, s2, r)
        end
    end.

(** Reads the receiver. *)
Definition get : M St := fun s => ([], s, inr s).

(** Assigns the receiver. No method of the file assigns to its receiver or
    to one of its fields, so none of them uses it. *)
Definition put (s' : St) : M unit := fun _ => ([], s', inr tt).

(** A call to a pure, fallible function. *)
Definition lift {A} (r : result A) : M A := fun s => ([], s, r).

(** A call that reads a file: it is recorded in the trace. *)
Definition call {A} (ev : Ev) (r : result A) : M A := fun s => ([ev], s, r).

(** [if err != nil] on a call's result, without returning. *)
Definition catch {A} (c : M A) : M (result A) :=
  fun s => match c s with (t, s', r) => (t, s', inr r) end.

(** [for i, x := range xs { ... }] with the variables the body updates
    gathered in [acc]; an error in the body leaves the loop. *)
Fixpoint for_range {X R} (i : nat) (xs : list X) (acc : R)
  (body : nat -> X -> R -> M R) : M R :=
  match xs with
  | [] => ret acc
  | x :: rest => bind (body i x acc) (fun acc' => for_range (S i) rest acc' body)
  end.

Definition trace {A} (x : list Ev * St * result A) : list Ev := fst (fst x).
Definition state {A} (x : list Ev * St * result A) : St := snd (fst x).
Definition value {A} (x : list Ev * St * result A) : result A := snd x.

End Monad.

Arguments M : clear implicits.

End Eff.

Declare Scope eff_scope.
Delimit Scope eff_scope with eff.
Notation "x <- c ;; k" := (Eff.bind c (fun x => k))
  (at level 61, c at next level, right associativity) : eff_scope.

(** Slice assignment [s[i] = x]; the index is in range wherever the code
    below assigns (Go panics when it is not, this function leaves the slice
    as it is). *)
Fixpoint set_index {A : Type} (s : list A) (i : nat) (x : A) : list A :=
  match s, i with
  | [], _ => []
  | _ :: s', O => x :: s'
  | y :: s', S i' => y :: set_index s' i' x
  end.

(** ** What [parquet_queriable.go] calls outside its file

    The parquet files and their row groups (package [parquet-go]), the
    schema reader of package [schema], and, from package [search] itself,
    the constraint builder, the binder [Initialize], the row-group [Filter]
    and the [Materializer]. None of their code is in the file; they are
    operations of this interface, each a function of its arguments that may
    fail. *)

Class Externals := {
  File : Type;
  Schema : Type;
  RowGroup : Type;
  TSDBSchema : Type;
  ChunksDecoder : Type;
  Constraint : Type;
  RowRanges : Type;
  Materializer : Type;
  (** [f.Schema()] and [f.RowGroups()] *)
  file_Schema : File -> Schema;
  file_RowGroups : File -> list RowGroup;
  (** [schema.FromLabelsFile(lf)] *)
  FromLabelsFile : File -> result TSDBSchema;
  (** [NewMaterializer(s, d, lf, cf)] *)
  NewMaterializer : TSDBSchema -> ChunksDecoder -> File -> File -> result Materializer;
  (** [MatchersToConstraint(matchers...)] *)
  MatchersToConstraint : list labels.Matcher -> result (list Constraint);
  (** [Initialize(schema, cs...)] binds the constraints in place; the result
      is the error, or the constraints as bound. *)
  Initialize : Schema -> list Constraint -> result (list Constraint);
  (** [Filter(group, cs...)] *)
  Filter : RowGroup -> list Constraint -> result RowRanges;
  (** [m.Materialize(ctx, i, mint, maxt, rr)] and its label-only variants;
      a cancelled [ctx] is one of their errors. *)
  Materialize : Materializer -> nat -> Z -> Z -> RowRanges -> result (list storage.ChunkSeries);
  MaterializeLabelNames : Materializer -> nat -> RowRanges -> result (list string);
  MaterializeLabelValues : Materializer -> string -> nat -> RowRanges -> result (list string)
}.

(** ** Package [search]: [parquet_queriable.go] *)

Module search.
Import Eff.
Local Open Scope eff_scope.

Section Queriable.
Context {E : Externals}.

(** The calls that touch a file. *)
Inductive Event :=
| EvInitialize (s : Schema)
| EvFilter (g : RowGroup)
| EvMaterialize (i : nat) (mint maxt : Z)
| EvMaterializeLabelNames (i : nat)
| EvMaterializeLabelValues (name : string) (i : nat).

Record ParquetBlock := mkParquetBlock
  { lf : File; cf : File; m : Materializer }.

Record parquetQueryable := mkParquetQueryable
  { qblocks : list ParquetBlock }.

Record parquetQuerier := mkParquetQuerier
  { mint : Z; maxt : Z; blocks : list ParquetBlock }.

Definition NewParquetQueryable (blocks : list ParquetBlock) : result parquetQueryable :=
  inr {| qblocks := blocks |}.

Definition Querier (p : parquetQueryable) (mint maxt : Z) : result parquetQuerier :=
  inr {| mint := mint; maxt := maxt; blocks := qblocks p |}.

Definition NewParquetBlock (lf cf : File) (d : ChunksDecoder) : result ParquetBlock :=
  match FromLabelsFile lf with
  | inl err => inl err
  | inr s =>
      match NewMaterializer s d lf cf with
      | inl err => inl err
      | inr m => inr {| lf := lf; cf := cf; m := m |}
      end
  end.

(** [byLabels.Less] *)
Definition byLabels_Less (x y : storage.ChunkSeries) : bool :=
  labels.Compare (storage.Labels x) (storage.Labels y) <? 0.

(** [byLabels.Len] *)
Definition byLabels_Len (b : list storage.ChunkSeries) : nat := length b.

(** [byLabels.Swap]: [b[i], b[j] = b[j], b[i]]. Both elements are read
    before either is written; [None] is the panic of an index out of
    range. *)
Definition byLabels_Swap (b : list storage.ChunkSeries) (i j : nat)
  : option (list storage.ChunkSeries) :=
  match nth_error b j, nth_error b i with
  | Some bj, Some bi => Some (set_index (set_index b i bj) j bi)
  | _, _ => None
  end.

(** A method with a value receiver, called through a [*ParquetBlock]: it
    runs on a copy of the block, and the copy is dropped afterwards. *)
Definition on_block {St A} (b : ParquetBlock) (op : M Event ParquetBlock A)
  : M Event St A :=
  fun s => match op b with (t, _, r) => (t, s, r) end.

Definition query (sorted : bool) (mint maxt : Z) (matchers : list labels.Matcher)
  : M Event ParquetBlock storage.ChunkSeriesSet :=
  b <- get ;;
  cs <- lift (MatchersToConstraint matchers) ;;
  cs <- call (EvInitialize (file_Schema (lf b))) (Initialize (file_Schema (lf b)) cs) ;;
  results <- for_range 0 (file_RowGroups (lf b)) []
    (fun i group results =>
       rr <- call (EvFilter group) (Filter group cs) ;;
       series <- call (EvMaterialize i mint maxt) (Materialize (m b) i mint maxt rr) ;;
       ret (results ++ series)) ;;
  ret (convert.NewChunksSeriesSet
         (if sorted then gosort.Sort byLabels_Less results else results)).

Definition labelNames (matchers : list labels.Matcher)
  : M Event ParquetBlock (list (list string)) :=
  b <- get ;;
  cs <- lift (MatchersToConstraint matchers) ;;
  cs <- call (EvInitialize (file_Schema (lf b))) (Initialize (file_Schema (lf b)) cs) ;;
  for_range 0 (file_RowGroups (lf b)) (repeat [] (length (file_RowGroups (lf b))))
    (fun i group results =>
       rr <- call (EvFilter group) (Filter group cs) ;;
       series <- call (EvMaterializeLabelNames i) (MaterializeLabelNames (m b) i rr) ;;
       ret (set_index results i series)).

Definition labelValues (name : string) (matchers : list labels.Matcher)
  : M Event ParquetBlock (list (list string)) :=
  b <- get ;;
  cs <- lift (MatchersToConstraint matchers) ;;
  cs <- call (EvInitialize (file_Schema (lf b))) (Initialize (file_Schema (lf b)) cs) ;;
  for_range 0 (file_RowGroups (lf b)) (repeat [] (length (file_RowGroups (lf b))))
    (fun i group results =>
       rr <- call (EvFilter group) (Filter group cs) ;;
       series <- call (EvMaterializeLabelValues name i)
                      (MaterializeLabelValues (m b) name i rr) ;;
       ret (set_index results i series)).

(** [hints.Limit] is an [int]; taking it to [int64] and back to [int]
    changes nothing, so [limit] is the integer itself. *)
Definition LabelValues (name : string) (hints : option storage.LabelHints)
  (matchers : list labels.Matcher)
  : M Event parquetQuerier (list string * annotations.Annotations) :=
  p <- get ;;
  let limit := match hints with Some h => storage.Limit h | None => 0 end in
  resNameValues <- for_range 0 (blocks p) []
    (fun _ b resNameValues =>
       r <- on_block b (labelValues name matchers) ;;
       ret (resNameValues ++ r)) ;;
  ret (util.MergeUnsortedSlices limit resNameValues, []).

Definition LabelNames (hints : option storage.LabelHints)
  (matchers : list labels.Matcher)
  : M Event parquetQuerier (list string * annotations.Annotations) :=
  p <- get ;;
  let limit := match hints with Some h => storage.Limit h | None => 0 end in
  resNameSets <- for_range 0 (blocks p) []
    (fun _ b resNameSets =>
       r <- on_block b (labelNames matchers) ;;
       ret (resNameSets ++ r)) ;;
  ret (util.MergeUnsortedSlices limit resNameSets, []).

(** [Close] *)
Definition Close (p : parquetQuerier) : option error := None.

(** [Select] has no error result: a failing block makes it return
    [storage.ErrSeriesSet(err)]. *)
Definition Select (sorted : bool) (sp : option storage.SelectHints)
  (matchers : list labels.Matcher) : M Event parquetQuerier storage.SeriesSet :=
  p <- get ;;
  let seriesSet := repeat [] (length (blocks p)) in
  let '(minT, maxT) :=
    match sp with
    | Some h => (storage.Start h, storage.End_ h)
    | None => (mint p, maxt p)
    end in
  r <- catch (for_range 0 (blocks p) seriesSet
              (fun i block seriesSet =>
                 ss <- on_block block (query sorted minT maxT matchers) ;;
                 ret (set_index seriesSet i ss))) ;;
  match r with
  | inl err => ret (storage.ErrSeriesSet err)
  | inr seriesSet =>
      ret (storage.NewSeriesSetFromChunkSeriesSet
             (convert.NewMergeChunkSeriesSet seriesSet labels.Compare
                storage.NewConcatenatingChunkSeriesMerger))
  end.

End Queriable.

End search.

(** ** Vocabulary of the properties

    The orders, selections and shapes the statements below are written
    with. Nothing here is part of the program. *)

Module Order.
Import labels.

(** The strict order on single labels that [Compare] walks through. *)
Definition Label_lt (x y : Label) : bool :=
  if negb (String.eqb (Name x) (Name y)) then str_lt (Name x) (Name y)
  else str_lt (Value x) (Value y).

(** The non-strict order of [Compare]. *)
Definition le (a b : Labels) : Prop := Compare a b <= 0.

(** Two chunk series in label order. *)
Definition series_le (x y : storage.ChunkSeries) : Prop :=
  le (storage.Labels x) (storage.Labels y).

(** Two chunk series in strict label order. *)
Definition series_lt (x y : storage.ChunkSeries) : Prop :=
  Compare (storage.Labels x) (storage.Labels y) < 0.

(** The non-strict order of Go's string comparison. *)
Definition str_le (a b : string) : Prop := str_lt b a = false.

(** Strings in strictly ascending order. *)
Definition ascending (l : list string) : Prop :=
  StronglySorted (fun a b => str_lt a b = true) l.

End Order.

Module MergeSpec.
Import storage.

(** The series the sets are positioned at. *)
Definition heads (sets : list ChunkSeriesSet) : list ChunkSeries :=
  flat_map (fun s => match s with x :: _ => [x] | [] => [] end) sets.

(** The series of a list that carry label set [L]. *)
Definition select (L : labels.Labels) (l : list ChunkSeries) : list ChunkSeries :=
  filter (fun s => labels.Equal (Labels s) L) l.

(** The chunks of a series, each tagged with the series' label set. *)
Definition tagged (s : ChunkSeries) : list (labels.Labels * chunks.Meta) :=
  map (pair (Labels s)) (Chunks s).

(** The same for the series [Select] returns. *)
Definition select_series (L : labels.Labels) (l : list Series) : list Series :=
  filter (fun s => labels.Equal (sLabels s) L) l.

(** The samples the chunks of a chunk series hold. *)
Definition held (x : ChunkSeries) : list chunks.Sample :=
  concat (map chunks.Chunk (Chunks x)).

(** Samples in time order: none has an earlier timestamp than one in front
    of it. *)
Definition timed (l : list chunks.Sample) : Prop :=
  StronglySorted (fun a b => chunks.T a <= chunks.T b) l.

(** Samples in strict time order: later ones have later timestamps, so no
    timestamp comes twice. *)
Definition strictly_timed (l : list chunks.Sample) : Prop :=
  StronglySorted (fun a b => chunks.T a < chunks.T b) l.

(** A chunk as an encoder writes it: its iterator yields the samples with
    increasing timestamps. *)
Definition chunk_in_order (c : chunks.Meta) : Prop :=
  strictly_timed (chunks.Chunk c).

(** The series [ss] hold what the chunk series [l] hold, label set by label
    set. Every series that is not nil carries the label set of a chunk
    series of [l]; a sample a series yields is a sample of a chunk series of
    [l] with that label set; and every chunk of a chunk series of [l] is
    decoded by a series with its label set that is not nil and yields each
    of the chunk's timestamps (but [math.MinInt64], which the chained
    iterator starts from). Of the nil series, which stand for chunk series
    without chunks, nothing is said. *)
Definition holds_content (l : list ChunkSeries) (ss : list Series) : Prop :=
  (forall s, In s ss -> IsNil s = false -> exists x, In x l /\ Labels x = sLabels s) /\
  (forall s p, In s ss -> In p (Iterator s) ->
     exists x, In x l /\ Labels x = sLabels s /\ In p (held x)) /\
  (forall x c, In x l -> In c (Chunks x) ->
     exists s, In s ss /\ sLabels s = Labels x /\ IsNil s = false /\
       forall p, In p (chunks.Chunk c) -> chunks.T p <> MinInt64 ->
                 In (chunks.T p) (map chunks.T (Iterator s))).

End MergeSpec.

Module EffSpec.
Import Eff.

Section Steps.
Context {Ev St X Y R : Type}.
Variable step : nat -> X -> M Ev St Y.
Variable s : St.
Variable f : R -> nat -> Y -> R.

(** The steps from index [i] on all succeed, with values [ys]. *)
Fixpoint steps_ok (i : nat) (xs : list X) (ys : list Y) : Prop :=
  match xs, ys with
  | [], [] => True
  | x :: xs', y :: ys' => value (step i x s) = inr y /\ steps_ok (S i) xs' ys'
  | _, _ => False
  end.

(** The calls the steps make, one step after the other. *)
Fixpoint steps_trace (i : nat) (xs : list X) : list Ev :=
  match xs with
  | [] => []
  | x :: xs' => trace (step i x s) ++ steps_trace (S i) xs'
  end.

(** The accumulator after the steps' values [ys]. *)
Fixpoint fold_acc (i : nat) (acc : R) (ys : list Y) : R :=
  match ys with
  | [] => acc
  | y :: ys' => fold_acc (S i) (f acc i y) ys'
  end.

End Steps.

End EffSpec.

Module BlockSpec.
Import Eff search.
Local Open Scope eff_scope.

Section Block.
Context {E : Externals}.

(** The loop body the three per-block operations share: filter the group,
    materialize its rows, update the results. [ev] and [mat] are the
    materializer call and its record in the trace. *)
Definition scan_loop {Y R : Type} (ev : nat -> Event)
  (mat : nat -> RowRanges -> result Y) (f : R -> nat -> Y -> R)
  (cs : list Constraint) (i : nat) (group : RowGroup) (results : R)
  : M Event ParquetBlock R :=
  rr <- call (EvFilter group) (Filter group cs) ;;
  y <- call (ev i) (mat i rr) ;;
  ret (f results i y).

(** The shape the three per-block operations share: build the constraints,
    bind them to the schema, then go through the row groups. [init] and
    [f] are the results slice and its update. *)
Definition scan {Y R : Type} (ev : nat -> Event)
  (mat : ParquetBlock -> nat -> RowRanges -> result Y)
  (init : ParquetBlock -> R) (f : R -> nat -> Y -> R)
  (matchers : list labels.Matcher) : M Event ParquetBlock R :=
  b <- get ;;
  cs <- lift (MatchersToConstraint matchers) ;;
  cs <- call (EvInitialize (file_Schema (lf b))) (Initialize (file_Schema (lf b)) cs) ;;
  for_range 0 (file_RowGroups (lf b)) (init b) (scan_loop ev (mat b) f cs).

(** One round of the loop: filter the group, materialize its rows. *)
Definition group_step {Y : Type} (ev : nat -> Event)
  (mat : nat -> RowRanges -> result Y) (cs : list Constraint)
  (i : nat) (group : RowGroup) : M Event ParquetBlock Y :=
  rr <- call (EvFilter group) (Filter group cs) ;;
  call (ev i) (mat i rr).

(** The calls one round makes when it does not fail. *)
Definition group_events (ev : nat -> Event) (i : nat) (group : RowGroup) : list Event :=
  [EvFilter group; ev i].

(** The calls the rounds over [groups] make, from index [i] on, when none
    fails. *)
Fixpoint groups_events (ev : nat -> Event) (i : nat) (groups : list RowGroup)
  : list Event :=
  match groups with
  | [] => []
  | g :: rest => group_events ev i g ++ groups_events ev (S i) rest
  end.

(** Fail-fast for a per-block operation [op] whose materializer call is
    [mat], recorded as [ev]: the first stage that fails ends the operation
    with its error, and the trace shows what ran until then; and a row
    group that cannot be filtered or materialized, wherever it is, makes
    the operation fail. *)
Definition block_fail_fast {A Y : Type}
  (op : list labels.Matcher -> M Event ParquetBlock A)
  (ev : nat -> Event) (mat : ParquetBlock -> nat -> RowRanges -> result Y) : Prop :=
  forall (matchers : list labels.Matcher) (b : ParquetBlock),
    (forall e,
        MatchersToConstraint matchers = inl e ->
        op matchers b = ([], b, inl e)) /\
    (forall cs e,
        MatchersToConstraint matchers = inr cs ->
        Initialize (file_Schema (lf b)) cs = inl e ->
        op matchers b = ([EvInitialize (file_Schema (lf b))], b, inl e)) /\
    (forall cs cs' pre g post e,
        MatchersToConstraint matchers = inr cs ->
        Initialize (file_Schema (lf b)) cs = inr cs' ->
        file_RowGroups (lf b) = pre ++ g :: post ->
        (forall j g', nth_error pre j = Some g' ->
           exists rr y, Filter g' cs' = inr rr /\ mat b j rr = inr y) ->
        (Filter g cs' = inl e ->
         op matchers b =
         (EvInitialize (file_Schema (lf b)) :: groups_events ev 0 pre ++ [EvFilter g],
          b, inl e)) /\
        (forall rr,
            Filter g cs' = inr rr -> mat b (length pre) rr = inl e ->
            op matchers b =
            (EvInitialize (file_Schema (lf b)) :: groups_events ev 0 pre
               ++ [EvFilter g; ev (length pre)],
             b, inl e))) /\
    (forall cs cs' j g,
        MatchersToConstraint matchers = inr cs ->
        Initialize (file_Schema (lf b)) cs = inr cs' ->
        nth_error (file_RowGroups (lf b)) j = Some g ->
        (is_err (Filter g cs') = true \/
         exists rr, Filter g cs' = inr rr /\ is_err (mat b j rr) = true) ->
        is_err (value (op matchers b)) = true).

End Block.

End BlockSpec.

Module QuerierSpec.
Import Eff search.
Local Open Scope eff_scope.

Section Querier.
Context {E : Externals}.

(** A round of a loop over the blocks: the operation on one block. *)
Definition block_step {St A} (op : M Event ParquetBlock A)
  : nat -> ParquetBlock -> M Event St A :=
  fun _ b => on_block b op.

(** The time window [Select] materializes with. *)
Definition Select_window (sp : option storage.SelectHints) (p : parquetQuerier) : Z * Z :=
  match sp with
  | Some h => (storage.Start h, storage.End_ h)
  | None => (mint p, maxt p)
  end.

(** The body of [Select]'s loop. *)
Definition Select_body (sorted : bool) (minT maxT : Z) (matchers : list labels.Matcher)
  (i : nat) (block : ParquetBlock) (seriesSet : list storage.ChunkSeriesSet)
  : M Event parquetQuerier (list storage.ChunkSeriesSet) :=
  ss <- on_block block (query sorted minT maxT matchers) ;;
  ret (set_index seriesSet i ss).

(** What [Select] returns after its loop. *)
Definition Select_result (r : result (list storage.ChunkSeriesSet)) : storage.SeriesSet :=
  match r with
  | inl err => storage.ErrSeriesSet err
  | inr seriesSet =>
      storage.NewSeriesSetFromChunkSeriesSet
        (convert.NewMergeChunkSeriesSet seriesSet labels.Compare
           storage.NewConcatenatingChunkSeriesMerger)
  end.

(** The loop body of [LabelNames] and [LabelValues]. *)
Definition collect_body (op : M Event ParquetBlock (list (list string)))
  (i : nat) (b : ParquetBlock) (acc : list (list string))
  : M Event parquetQuerier (list (list string)) :=
  r <- on_block b op ;;
  ret (acc ++ r).

(** The shape [LabelNames] and [LabelValues] share. *)
Definition label_query (limit : Z) (op : M Event ParquetBlock (list (list string)))
  : M Event parquetQuerier (list string * annotations.Annotations) :=
  p <- get ;;
  rs <- for_range 0 (blocks p) [] (collect_body op) ;;
  ret (util.MergeUnsortedSlices limit rs, []).

(** The limit a label call works with. *)
Definition limit_of (hints : option storage.LabelHints) : Z :=
  match hints with Some h => storage.Limit h | None => 0 end.

(** Fail-fast for a querier call [run] that goes through the blocks with
    the per-block operation [op]: the first block that fails ends the call,
    which returns [failed e] and has touched no later block; and a block
    that fails, wherever it is, makes the call return an error. *)
Definition querier_fail_fast {A R : Type}
  (op : parquetQuerier -> M Event ParquetBlock A)
  (run : M Event parquetQuerier R) (failed : error -> result R) : Prop :=
  (forall q pre b post e,
      blocks q = pre ++ b :: post ->
      Forall (fun b' => exists r, value (op q b') = inr r) pre ->
      value (op q b) = inl e ->
      run q = (flat_map (fun b' => trace (op q b')) (pre ++ [b]), q, failed e)) /\
  (forall q b,
      In b (blocks q) -> is_err (value (op q b)) = true ->
      exists e, value (run q) = failed e).

End Querier.

End QuerierSpec.

Module ClaimSpec.
Import Eff search Order MergeSpec QuerierSpec.

Section Statements.
Context {E : Externals}.

(** C2 as the specification states it: with [sorted = false] the result is
    the concatenation of the per-block series, block after block, and
    series of different blocks with the same label set stay apart. *)
Definition unsorted_is_concatenation (sp : option storage.SelectHints)
  (matchers : list labels.Matcher) (q : parquetQuerier) : Prop :=
  forall minT maxT rs,
    Select_window sp q = (minT, maxT) ->
    Forall2 (fun b r => value (query false minT maxT matchers b) = inr r) (blocks q) rs ->
    exists ss,
      value (Select false sp matchers q) = inr ss /\
      storage.series ss = map storage.decoded (concat rs).

(** What C4 says of the list [l] a label call returns for the limit [K],
    when the blocks' row groups yielded the lists [rs], block by block:
    [full], the call's result for the limit 0, is ascending (so without
    duplicates) and holds exactly the strings of [rs]; [l] is ascending and
    without duplicates; it is [full] when [K] is 0 (or below), and when
    [K > 0] it is the first [K] entries of [full], all of [full] if that is
    shorter, and every entry of [l] is below every entry of [full] left
    out. *)
Definition limit_semantics
  (run : option storage.LabelHints ->
         M Event parquetQuerier (list string * annotations.Annotations))
  (rs : list (list (list string)))
  (q : parquetQuerier) (K : Z) (l : list string) : Prop :=
  exists full,
    value (run (Some {| storage.Limit := 0 |}) q) = inr (full, []) /\
    ascending full /\
    (forall x, In x full <-> In x (concat (concat rs))) /\
    ascending l /\ NoDup l /\
    (K <= 0 -> l = full) /\
    (0 < K ->
     l = firstn (Z.to_nat K) full /\
     length l = Nat.min (Z.to_nat K) (length full) /\
     forall x y, In x l -> In y full -> ~ In y l -> labels.str_lt x y = true).

End Statements.

End ClaimSpec.

Module ExtraSpec.
Import Eff search.

Section Vocabulary.
Context {E : Externals}.

(** Where the error [e] of a per-block operation with materializer call
    [mat] comes from: the translation of the matchers, the binding to the
    schema, the filter of a row group, or the materializer on a row
    group. *)
Definition error_origin {Y : Type}
  (mat : ParquetBlock -> nat -> RowRanges -> result Y)
  (matchers : list labels.Matcher) (b : ParquetBlock) (e : error) : Prop :=
  MatchersToConstraint matchers = inl e \/
  exists cs,
    MatchersToConstraint matchers = inr cs /\
    (Initialize (file_Schema (lf b)) cs = inl e \/
     exists cs' i g,
       Initialize (file_Schema (lf b)) cs = inr cs' /\
       nth_error (file_RowGroups (lf b)) i = Some g /\
       (Filter g cs' = inl e \/
        exists rr, Filter g cs' = inr rr /\ mat b i rr = inl e)).

(** A successful run of a per-block operation with materializer call
    [mat]: the matchers translate, the constraints bind, and row group
    [i] passes the filter and materializes to the [i]-th entry of
    [outs], which has one entry per row group. *)
Definition row_groups_yield {Y : Type}
  (mat : ParquetBlock -> nat -> RowRanges -> result Y)
  (matchers : list labels.Matcher) (b : ParquetBlock) (outs : list Y) : Prop :=
  exists cs cs',
    MatchersToConstraint matchers = inr cs /\
    Initialize (file_Schema (lf b)) cs = inr cs' /\
    length outs = length (file_RowGroups (lf b)) /\
    forall i g,
      nth_error (file_RowGroups (lf b)) i = Some g ->
      exists rr out,
        Filter g cs' = inr rr /\ mat b i rr = inr out /\
        nth_error outs i = Some out.

(** The calls a per-block operation never makes are told apart by the
    kind of materializer call. *)
Definition is_Materialize (ev : Event) : bool :=
  match ev with EvMaterialize _ _ _ => true | _ => false end.

Definition is_MaterializeLabelNames (ev : Event) : bool :=
  match ev with EvMaterializeLabelNames _ => true | _ => false end.

Definition is_MaterializeLabelValues (ev : Event) : bool :=
  match ev with EvMaterializeLabelValues _ _ => true | _ => false end.

End Vocabulary.

End ExtraSpec.

(** ** A small instance of the interface, to run the code on

    A file is the list of its row groups and a row group the list of the
    series stored in it. A regular-expression matcher with the pattern
    ["("] fails to translate; a schema without row groups cannot be bound
    to; a row group holding a series without labels cannot be filtered; a
    chunk that ends before it starts cannot be decoded. Filtering keeps
    every row, and materializing returns the rows' series, their label
    names, or their values of one label. *)

Module Demo.
Import labels.

Definition bad_matcher (mt : Matcher) : bool :=
  match mType mt with
  | MatchRegexp | MatchNotRegexp => String.eqb (mValue mt) "("
  | _ => false
  end.

Definition unreadable (g : list storage.ChunkSeries) : bool :=
  existsb (fun s => match storage.Labels s with [] => true | _ => false end) g.

Definition undecodable (rr : list storage.ChunkSeries) : bool :=
  existsb (fun s => existsb (fun c => chunks.MaxTime c <? chunks.MinTime c)
                      (storage.Chunks s)) rr.

Definition demo_names (rr : list storage.ChunkSeries) : list string :=
  flat_map (fun s => map Name (storage.Labels s)) rr.

Definition demo_values (name : string) (rr : list storage.ChunkSeries) : list string :=
  flat_map (fun s => map Value (filter (fun l => String.eqb (Name l) name) (storage.Labels s))) rr.

#[export] Instance demo : Externals := {|
  File := list (list storage.ChunkSeries);
  Schema := nat;
  RowGroup := list storage.ChunkSeries;
  TSDBSchema := nat;
  ChunksDecoder := unit;
  Constraint := Matcher;
  RowRanges := list storage.ChunkSeries;
  Materializer := nat;
  file_Schema := fun f => length f;
  file_RowGroups := fun f => f;
  FromLabelsFile := fun f =>
    match f with [] => inl "labels file has no schema"%string | _ => inr (length f) end;
  NewMaterializer := fun s _ _ _ => inr s;
  MatchersToConstraint := fun ms =>
    if existsb bad_matcher ms then inl "error parsing regexp"%string else inr ms;
  Initialize := fun s cs =>
    match s with O => inl "schema cannot be read"%string | _ => inr cs end;
  Filter := fun g _ =>
    if unreadable g then inl "row group cannot be read"%string else inr g;
  Materialize := fun _ _ _ _ rr =>
    if undecodable rr then inl "chunk cannot be decoded"%string else inr rr;
  MaterializeLabelNames := fun _ _ rr => inr (demo_names rr);
  MaterializeLabelValues := fun _ name _ rr => inr (demo_values name rr)
|}.

Definition block_of (groups : list (list storage.ChunkSeries)) : search.ParquetBlock :=
  {| search.lf := groups; search.cf := groups; search.m := length groups |}.

Definition job (v : string) : Labels := [ {| Name := "job"; Value := v |} ].

Definition sample (t : Z) : chunks.Sample := {| chunks.T := t; chunks.V := 0 |}.

(** The chunk over [lo,hi): a sample at [lo] and one just before [hi]. *)
Definition chunk (lo hi : Z) : chunks.Meta :=
  {| chunks.MinTime := lo; chunks.MaxTime := hi;
     chunks.Chunk := [sample lo; sample (hi - 1)] |}.

(** Block A holds [{job="x"}] with a chunk over [0,100), block B the same
    series with a chunk over [100,200). *)
Definition seriesA : storage.ChunkSeries :=
  {| storage.Labels := job "x"; storage.Chunks := [chunk 0 100] |}.

Definition seriesB : storage.ChunkSeries :=
  {| storage.Labels := job "x"; storage.Chunks := [chunk 100 200] |}.

Definition blockA : search.ParquetBlock := block_of [[seriesA]].

Definition blockB : search.ParquetBlock := block_of [[seriesB]].

(** A block with two row groups whose series are not in label order. *)
Definition blockC : search.ParquetBlock :=
  block_of [[ {| storage.Labels := job "z"; storage.Chunks := [chunk 0 50] |} ];
            [ {| storage.Labels := job "a"; storage.Chunks := [chunk 0 50] |};
              {| storage.Labels := job "x"; storage.Chunks := [chunk 200 300] |} ]].

(** A block whose second row group cannot be read, and one whose second
    row group holds a chunk that cannot be decoded. *)
Definition blockUnreadable : search.ParquetBlock :=
  block_of [[ {| storage.Labels := job "a"; storage.Chunks := [chunk 0 50] |} ];
            [ {| storage.Labels := []; storage.Chunks := [] |} ];
            [ {| storage.Labels := job "b"; storage.Chunks := [chunk 0 50] |} ]].

Definition blockUndecodable : search.ParquetBlock :=
  block_of [[ {| storage.Labels := job "a"; storage.Chunks := [chunk 0 50] |} ];
            [ {| storage.Labels := job "c"; storage.Chunks := [chunk 50 0] |} ];
            [ {| storage.Labels := job "b"; storage.Chunks := [chunk 0 50] |} ]].

Definition regexp_paren : Matcher :=
  {| mType := MatchRegexp; mName := "job"; mValue := "(" |}.

Definition querier (bs : list search.ParquetBlock) : search.parquetQuerier :=
  {| search.mint := 0; search.maxt := 1000; search.blocks := bs |}.

End Demo.

(** ** Order facts about [labels.Compare] *)

Module LabelsOrder.
Import labels Order.

Lemma str_cmp_refl s : String.compare s s = Eq.
Proof. apply String_as_OT.cmp_eq. reflexivity. Qed.

Lemma str_lt_irrefl s : str_lt s s = false.
Proof. unfold str_lt, String.ltb. now rewrite str_cmp_refl. Qed.

Lemma str_lt_trans a b c : str_lt a b = true -> str_lt b c = true -> str_lt a c = true.
Proof.
  unfold str_lt, String.ltb. intros H1 H2.
  destruct (String.compare a b) eqn:E1; try discriminate.
  destruct (String.compare b c) eqn:E2; try discriminate.
  apply String_as_OT.cmp_lt in E1, E2.
  assert (E3 : String_as_OT.cmp a c = Lt)
    by (apply String_as_OT.cmp_lt; eapply String_as_OT.lt_trans; eauto).
  unfold String_as_OT.cmp in E3. now rewrite E3.
Qed.

Lemma str_lt_total a b : a <> b -> str_lt a b = false -> str_lt b a = true.
Proof.
  unfold str_lt, String.ltb. intros Hne H.
  rewrite (String.compare_antisym b a).
  destruct (String.compare a b) eqn:E; simpl; try discriminate; auto.
  apply String.compare_eq_iff in E. contradiction.
Qed.

Lemma str_lt_asym a b : str_lt a b = true -> str_lt b a = false.
Proof.
  intros H. destruct (str_lt b a) eqn:E; auto.
  pose proof (str_lt_trans _ _ _ H E) as C. now rewrite str_lt_irrefl in C.
Qed.

Lemma Label_eqb_spec x y : reflect (x = y) (Label_eqb x y).
Proof.
  destruct x as [n v], y as [n' v']. unfold Label_eqb. simpl.
  destruct (String.eqb_spec n n'); destruct (String.eqb_spec v v'); simpl;
    constructor; congruence.
Qed.

Lemma Compare_cons x y a b :
  Compare (x :: a) (y :: b) =
  if Label_eqb x y then Compare a b else if Label_lt x y then -1 else 1.
Proof.
  simpl. unfold Label_eqb, Label_lt.
  destruct (String.eqb (Name x) (Name y)); simpl; [|reflexivity].
  destruct (String.eqb (Value x) (Value y)); reflexivity.
Qed.

Lemma Label_lt_irrefl x : Label_lt x x = false.
Proof. unfold Label_lt. rewrite String.eqb_refl. simpl. apply str_lt_irrefl. Qed.

Lemma Label_lt_trans x y z :
  Label_lt x y = true -> Label_lt y z = true -> Label_lt x z = true.
Proof.
  destruct x as [n v], y as [n' v'], z as [n'' v'']. unfold Label_lt. simpl.
  destruct (String.eqb_spec n n') as [->|Hxy]; simpl.
  - destruct (String.eqb_spec n' n'') as [->|Hyz]; simpl; [apply str_lt_trans|].
    intros _ H. exact H.
  - destruct (String.eqb_spec n' n'') as [->|Hyz]; simpl.
    + destruct (String.eqb_spec n n''); [contradiction|]. simpl. intros H _. exact H.
    + intros H1 H2. pose proof (str_lt_trans _ _ _ H1 H2) as H3.
      destruct (String.eqb_spec n n'') as [->|]; simpl; [|exact H3].
      now rewrite str_lt_irrefl in H3.
Qed.

Lemma Label_lt_total x y : x <> y -> Label_lt x y = false -> Label_lt y x = true.
Proof.
  destruct x as [n v], y as [n' v']. unfold Label_lt. simpl.
  destruct (String.eqb_spec n n') as [->|Hne]; simpl.
  - rewrite String.eqb_refl. simpl. intros Hxy H.
    apply str_lt_total; congruence.
  - destruct (String.eqb_spec n' n); [congruence|]. simpl.
    intros _ H. now apply str_lt_total.
Qed.

Lemma Compare_nil_l b : Compare [] b = - Z.of_nat (length b).
Proof. destruct b; cbn [Compare length]; lia. Qed.

Lemma Compare_nil_r a : Compare a [] = Z.of_nat (length a).
Proof. destruct a; cbn [Compare length]; lia. Qed.

Ltac cmp_ends := rewrite ?Compare_nil_l, ?Compare_nil_r; cbn [length]; lia.

Lemma Compare_refl a : Compare a a = 0.
Proof.
  induction a as [|x a IH]; [reflexivity|].
  rewrite Compare_cons. now destruct (Label_eqb_spec x x).
Qed.

Lemma Compare_eq a : forall b, Compare a b = 0 -> a = b.
Proof.
  induction a as [|x a IH]; intros [|y b]; try cmp_ends.
  - reflexivity.
  - rewrite Compare_cons. destruct (Label_eqb_spec x y) as [->|].
    + intros H. f_equal. now apply IH.
    + destruct (Label_lt x y); lia.
Qed.

Lemma Compare_eq_iff a b : Compare a b = 0 <-> a = b.
Proof. split; [apply Compare_eq | intros ->; apply Compare_refl]. Qed.

Lemma Equal_spec a : forall b, Equal a b = true <-> a = b.
Proof.
  induction a as [|x a IH]; intros [|y b]; simpl; split; try congruence.
  - destruct (Label_eqb_spec x y); simpl; [|discriminate].
    intros H. apply IH in H. congruence.
  - intros [= -> ->]. destruct (Label_eqb_spec y y); simpl; [|congruence].
    now apply IH.
Qed.

Lemma Compare_antisym a : forall b, Z.sgn (Compare b a) = - Z.sgn (Compare a b).
Proof.
  induction a as [|x a IH]; intros [|y b]; try cmp_ends.
  rewrite !Compare_cons.
  destruct (Label_eqb_spec x y) as [->|Hne].
  - destruct (Label_eqb_spec y y); [apply IH | congruence].
  - destruct (Label_eqb_spec y x); [congruence|].
    destruct (Label_lt x y) eqn:E1.
    + destruct (Label_lt y x) eqn:E2; [|reflexivity].
      pose proof (Label_lt_trans _ _ _ E1 E2) as C.
      now rewrite Label_lt_irrefl in C.
    + now rewrite (Label_lt_total _ _ Hne E1).
Qed.

Lemma Compare_le_trans a : forall b c,
    Compare a b <= 0 -> Compare b c <= 0 -> Compare a c <= 0.
Proof.
  induction a as [|x a IH]; intros [|y b] [|z c]; try cmp_ends.
  rewrite !Compare_cons.
  destruct (Label_eqb_spec x y) as [->|Hxy].
  - destruct (Label_eqb_spec y z) as [->|Hyz]; [apply IH | tauto].
  - destruct (Label_lt x y) eqn:E1; [|lia]. intros _.
    destruct (Label_eqb_spec y z) as [->|Hyz].
    + intros _. destruct (Label_eqb_spec x z); [congruence|]. rewrite E1. lia.
    + destruct (Label_lt y z) eqn:E2; [|lia]. intros _.
      pose proof (Label_lt_trans _ _ _ E1 E2) as E3. rewrite E3.
      destruct (Label_eqb_spec x z) as [->|]; [|lia].
      now rewrite Label_lt_irrefl in E3.
Qed.

Lemma le_refl a : le a a.
Proof. unfold le. rewrite Compare_refl. lia. Qed.

Lemma le_trans a b c : le a b -> le b c -> le a c.
Proof. apply Compare_le_trans. Qed.

Lemma not_lt_le a b : ~ Compare a b < 0 -> le b a.
Proof. unfold le. pose proof (Compare_antisym a b). lia. Qed.

Lemma le_antisym a b : le a b -> le b a -> a = b.
Proof.
  unfold le. intros H1 H2. apply Compare_eq.
  pose proof (Compare_antisym a b). lia.
Qed.

End LabelsOrder.

(** ** Facts about [sort.Sort] *)

Module SortFacts.
Import gosort.

Section Insertion.
Context {A : Type} (less : A -> A -> bool) (le : A -> A -> Prop).
Hypothesis less_le : forall x y, less x y = true -> le x y.
Hypothesis not_less_le : forall x y, less x y = false -> le y x.

Lemma insert_perm x l : Permutation (insert less x l) (x :: l).
Proof using Type.
  induction l as [|y l IH]; simpl; [reflexivity|].
  destruct (less x y); [reflexivity|].
  rewrite IH. apply perm_swap.
Qed.

Lemma insert_hd x y l : le y x -> HdRel le y l -> HdRel le y (insert less x l).
Proof using Type.
  intros Hyx Hl. destruct l as [|z l]; simpl; [now constructor|].
  destruct (less x z); constructor; [assumption|].
  now inversion Hl.
Qed.

Lemma insert_sorted x l : Sorted le l -> Sorted le (insert less x l).
Proof using less_le not_less_le.
  induction l as [|y l IH]; simpl; intros Hs.
  - repeat constructor.
  - destruct (less x y) eqn:E.
    + constructor; [assumption|]. constructor. now apply less_le.
    + inversion Hs; subst. constructor; [now apply IH|].
      apply insert_hd; [now apply not_less_le | assumption].
Qed.

Lemma fold_insert_perm l : forall acc,
    Permutation (fold_left (fun acc x => insert less x acc) l acc) (acc ++ l).
Proof using Type.
  induction l as [|x l IH]; intros acc; simpl.
  - now rewrite app_nil_r.
  - rewrite IH, insert_perm. simpl. apply Permutation_middle.
Qed.

Lemma fold_insert_sorted l : forall acc,
    Sorted le acc -> Sorted le (fold_left (fun acc x => insert less x acc) l acc).
Proof using less_le not_less_le.
  induction l as [|x l IH]; intros acc Hs; simpl; [assumption|].
  apply IH. now apply insert_sorted.
Qed.

Lemma Sort_perm l : Permutation (Sort less l) l.
Proof using Type. unfold Sort. now rewrite fold_insert_perm. Qed.

Lemma Sort_sorted l : Sorted le (Sort less l).
Proof using less_le not_less_le. apply fold_insert_sorted. constructor. Qed.

End Insertion.

(** Sorting the empty and the one-element slice changes nothing. *)
Lemma Sort_singleton {A} (less : A -> A -> bool) x : Sort less [x] = [x].
Proof. reflexivity. Qed.

End SortFacts.

(** ** Facts about the series order and [byLabels] *)

Module SeriesOrder.
Import storage Order.

Lemma series_le_trans : Relations_1.Transitive series_le.
Proof. intros x y z. apply LabelsOrder.le_trans. Qed.

Lemma byLabels_sorted (l : list ChunkSeries) :
  StronglySorted series_le (gosort.Sort search.byLabels_Less l).
Proof.
  apply Sorted_StronglySorted; [exact series_le_trans|].
  apply SortFacts.Sort_sorted.
  - intros x y H. unfold search.byLabels_Less in H. apply Z.ltb_lt in H.
    unfold series_le, le. lia.
  - intros x y H. unfold search.byLabels_Less in H. apply Z.ltb_ge in H.
    apply LabelsOrder.not_lt_le. lia.
Qed.

Lemma byLabels_perm (l : list ChunkSeries) :
  Permutation (gosort.Sort search.byLabels_Less l) l.
Proof. apply SortFacts.Sort_perm. Qed.

End SeriesOrder.
(** ** Facts about the chained sample iterator *)

Module ChainFacts.
Import storage MergeSpec.

Lemma strictly_timed_timed l : strictly_timed l -> timed l.
Proof.
  induction 1 as [|x l Hs IH Hall]; constructor; [assumption|].
  eapply Forall_impl; [|exact Hall]. cbn beta. intros; lia.
Qed.

Lemma pick_None its : pick its = None -> concat its = [].
Proof.
  induction its as [|it rest IH]; [reflexivity|].
  cbn [pick]. destruct it as [|p it'].
  - destruct (pick rest) as [[q rest']|]; [discriminate|]. intros _. now apply IH.
  - destruct (pick rest) as [[q rest']|]; [|discriminate].
    destruct (chunks.T p <=? chunks.T q); discriminate.
Qed.

Lemma pick_perm its : forall p its',
    pick its = Some (p, its') -> Permutation (concat its) (p :: concat its').
Proof.
  induction its as [|it rest IH]; intros p its'; [discriminate|].
  cbn [pick]. destruct it as [|p0 it'].
  - destruct (pick rest) as [[q rest']|]; [|discriminate].
    intros [= <- <-]. cbn [concat app]. now apply IH.
  - destruct (pick rest) as [[q rest']|].
    + destruct (chunks.T p0 <=? chunks.T q).
      * intros [= <- <-]. reflexivity.
      * intros [= <- <-]. cbn [concat]. rewrite (IH q rest' eq_refl).
        symmetry. apply (Permutation_middle (p0 :: it') (concat rest') q).
    + intros [= <- <-]. reflexivity.
Qed.

Lemma pick_length its p its' :
  pick its = Some (p, its') -> length (concat its) = S (length (concat its')).
Proof. intros H. now rewrite (Permutation_length (pick_perm _ _ _ H)). Qed.

(** The sample picked is at the smallest timestamp the iterators are
    positioned at, so at the smallest of all when each is in time order. *)
Lemma pick_least its : forall p its',
    pick its = Some (p, its') ->
    Forall timed its ->
    forall q, In q (concat its) -> chunks.T p <= chunks.T q.
Proof.
  induction its as [|it rest IH]; intros p its'; [discriminate|].
  cbn [pick]. intros H Hs q Hq. inversion Hs as [|? ? Hit Hrest]; subst.
  cbn [concat] in Hq. apply in_app_or in Hq.
  assert (Hhead : forall p0 it', it = p0 :: it' -> In q it -> chunks.T p0 <= chunks.T q).
  { intros p0 it' -> Hin. inversion Hit as [|? ? _ Hall]; subst.
    destruct Hin as [<-|Hin]; [lia|].
    rewrite Forall_forall in Hall. now apply Hall. }
  destruct it as [|p0 it'].
  - destruct (pick rest) as [[q0 rest']|] eqn:Hp; [|discriminate].
    injection H as <- <-. destruct Hq as [[]|Hq]. now apply (IH _ _ eq_refl).
  - destruct (pick rest) as [[q0 rest']|] eqn:Hp.
    + destruct (Z.leb_spec (chunks.T p0) (chunks.T q0)) as [Hle|Hlt];
        injection H as <- <-.
      * destruct Hq as [Hq|Hq]; [now apply (Hhead p0 it')|].
        specialize (IH _ _ eq_refl Hrest q Hq). lia.
      * destruct Hq as [Hq|Hq]; [|now apply (IH _ _ eq_refl)].
        specialize (Hhead p0 it' eq_refl Hq). lia.
    + injection H as <- <-. destruct Hq as [Hq|Hq]; [now apply (Hhead p0 it')|].
      apply pick_None in Hp. rewrite Hp in Hq. destruct Hq.
Qed.

Lemma timed_tail p it : timed (p :: it) -> timed it.
Proof. intros H. now apply StronglySorted_inv in H. Qed.

Lemma pick_timed its : forall p its',
    pick its = Some (p, its') -> Forall timed its -> Forall timed its'.
Proof.
  induction its as [|it rest IH]; intros p its'; [discriminate|].
  cbn [pick]. intros H Hs. inversion Hs as [|? ? Hit Hrest]; subst.
  destruct it as [|p0 it'].
  - destruct (pick rest) as [[q0 rest']|] eqn:Hp; [|discriminate].
    injection H as <- <-. constructor; [assumption|]. now apply (IH _ _ eq_refl).
  - destruct (pick rest) as [[q0 rest']|] eqn:Hp.
    + destruct (chunks.T p0 <=? chunks.T q0); injection H as <- <-.
      * constructor; [now apply timed_tail with p0 | assumption].
      * constructor; [assumption|]. now apply (IH _ _ eq_refl).
    + injection H as <- <-. constructor; [now apply timed_tail with p0 | assumption].
Qed.

(** Nothing is made up: a sample yielded is a sample of an iterator. *)
Lemma chain_In fuel : forall lastT its p,
    In p (chain fuel lastT its) -> In p (concat its).
Proof.
  induction fuel as [|fuel IH]; intros lastT its p; [intros []|].
  cbn [chain]. destruct (pick its) as [[q its']|] eqn:Hp; [|intros []].
  pose proof (pick_perm _ _ _ Hp) as Hperm.
  destruct (chunks.T q =? lastT).
  - intros H. apply (Permutation_in _ (Permutation_sym Hperm)).
    right. now apply IH with lastT.
  - intros [<-|H]; apply (Permutation_in _ (Permutation_sym Hperm)).
    + now left.
    + right. now apply IH with (chunks.T q).
Qed.

(** What is yielded after [lastT] lies beyond it. *)
Lemma chain_above fuel : forall lastT its,
    Forall timed its ->
    (forall q, In q (concat its) -> lastT <= chunks.T q) ->
    Forall (fun x => lastT < chunks.T x) (chain fuel lastT its).
Proof.
  induction fuel as [|fuel IH]; intros lastT its Hs Hlb; [constructor|].
  cbn [chain]. destruct (pick its) as [[p its']|] eqn:Hp; [|constructor].
  pose proof (pick_perm _ _ _ Hp) as Hperm.
  pose proof (pick_timed _ _ _ Hp Hs) as Hs'.
  assert (Hin : forall q, In q (concat its') -> In q (concat its)).
  { intros q Hq. apply (Permutation_in _ (Permutation_sym Hperm)). now right. }
  assert (Hp_in : In p (concat its)).
  { apply (Permutation_in _ (Permutation_sym Hperm)). now left. }
  destruct (Z.eqb_spec (chunks.T p) lastT) as [Heq|Hne].
  - apply IH; auto.
  - specialize (Hlb p Hp_in). constructor; [lia|].
    eapply Forall_impl; [|apply (IH (chunks.T p) its' Hs')].
    + cbn beta. intros x Hx. lia.
    + intros q Hq. apply (pick_least _ _ _ Hp Hs). now apply Hin.
Qed.

(** Iterators in time order give samples in strict time order. *)
Lemma chain_strict fuel : forall lastT its,
    Forall timed its -> strictly_timed (chain fuel lastT its).
Proof.
  induction fuel as [|fuel IH]; intros lastT its Hs; [constructor|].
  cbn [chain]. destruct (pick its) as [[p its']|] eqn:Hp; [|constructor].
  pose proof (pick_timed _ _ _ Hp Hs) as Hs'.
  destruct (chunks.T p =? lastT); [now apply IH|].
  constructor; [now apply IH|].
  apply chain_above; [assumption|].
  intros q Hq. apply (pick_least _ _ _ Hp Hs).
  apply (Permutation_in _ (Permutation_sym (pick_perm _ _ _ Hp))). now right.
Qed.

(** Nothing is lost: the timestamp of every sample is yielded, unless it
    is the one yielded last. *)
Lemma chain_complete fuel : forall lastT its q,
    (length (concat its) <= fuel)%nat ->
    In q (concat its) ->
    chunks.T q = lastT \/ In (chunks.T q) (map chunks.T (chain fuel lastT its)).
Proof.
  induction fuel as [|fuel IH]; intros lastT its q Hf Hq.
  - destruct (concat its); [destruct Hq | simpl in Hf; lia].
  - cbn [chain]. destruct (pick its) as [[p its']|] eqn:Hp.
    2: { apply pick_None in Hp. rewrite Hp in Hq. destruct Hq. }
    pose proof (pick_length _ _ _ Hp) as Hlen.
    assert (Hf' : (length (concat its') <= fuel)%nat) by lia.
    apply (Permutation_in _ (pick_perm _ _ _ Hp)) in Hq.
    destruct (Z.eqb_spec (chunks.T p) lastT) as [Heq|Hne].
    + destruct Hq as [<-|Hq]; [now left|]. now apply IH.
    + right. cbn [map]. destruct Hq as [<-|Hq]; [now left|].
      destruct (IH (chunks.T p) its' q Hf' Hq) as [->|H]; [now left | now right].
Qed.

(** The three facts for the iterator of a series. *)
Lemma Iterator_In s p :
  In p (Iterator s) -> In p (concat (map chunks.Chunk (sChunks s))).
Proof. apply chain_In. Qed.

Lemma Iterator_strict s :
  Forall chunk_in_order (sChunks s) -> strictly_timed (Iterator s).
Proof.
  intros H. apply chain_strict. apply Forall_map.
  eapply Forall_impl; [|exact H]. intros c. apply strictly_timed_timed.
Qed.

(** A sample that shares its timestamp with no other is yielded itself. *)
Lemma Iterator_keeps s q :
  In q (concat (map chunks.Chunk (sChunks s))) ->
  chunks.T q <> MinInt64 ->
  (forall q', In q' (concat (map chunks.Chunk (sChunks s))) ->
              chunks.T q' = chunks.T q -> q' = q) ->
  In q (Iterator s).
Proof.
  intros Hq Hne Huniq.
  pose proof (chain_complete _ MinInt64 _ q (le_n _) Hq) as [H|H]; [contradiction|].
  apply in_map_iff in H. destruct H as (q' & Ht & Hq').
  rewrite <- (Huniq q' (chain_In _ _ _ _ Hq') Ht). exact Hq'.
Qed.

Lemma Iterator_complete s q :
  In q (concat (map chunks.Chunk (sChunks s))) ->
  chunks.T q <> MinInt64 ->
  In (chunks.T q) (map chunks.T (Iterator s)).
Proof.
  intros Hq Hne.
  destruct (chain_complete _ MinInt64 _ q (le_n _) Hq) as [H|H]; [contradiction | exact H].
Qed.

End ChainFacts.

(** ** Facts about the cross-block merge *)

Module MergeFacts.
Import storage convert Order MergeSpec SeriesOrder.

Abbreviation cmp := labels.Compare.
Abbreviation merger := NewConcatenatingChunkSeriesMerger.
Abbreviation merge := (merge_loop labels.Compare NewConcatenatingChunkSeriesMerger).

#[local] Arguments select : simpl never.

Lemma heads_In sets x : In x (heads sets) -> In x (concat sets).
Proof.
  induction sets as [|s sets IH]; simpl; [tauto|].
  intros H. apply in_app_or in H. apply in_or_app.
  destruct H as [H|H]; [left | right; now apply IH].
  destruct s; simpl in *; tauto.
Qed.

Lemma min_head_None sets : min_head cmp sets = None -> concat sets = [].
Proof.
  induction sets as [|[|x s] sets IH]; simpl; intros H; auto.
  destruct (min_head cmp sets) as [l|]; [|discriminate].
  destruct (cmp l (Labels x) <? 0); discriminate.
Qed.

Lemma min_head_In sets l :
  min_head cmp sets = Some l -> exists x, In x (heads sets) /\ Labels x = l.
Proof.
  revert l. induction sets as [|[|x s] sets IH]; simpl; intros l H.
  - discriminate.
  - now apply IH.
  - destruct (min_head cmp sets) as [l'|] eqn:E.
    + destruct (cmp l' (Labels x) <? 0); injection H as <-.
      * destruct (IH _ eq_refl) as (y & Hy & Hl). exists y. auto.
      * exists x. auto.
    + injection H as <-. exists x. auto.
Qed.

Lemma min_head_le sets l :
  min_head cmp sets = Some l ->
  forall x, In x (heads sets) -> Order.le l (Labels x).
Proof.
  revert l. induction sets as [|[|x s] sets IH]; simpl; intros l H y Hy.
  - contradiction.
  - now apply IH.
  - destruct (min_head cmp sets) as [l'|] eqn:E.
    + destruct (cmp l' (Labels x) <? 0) eqn:C; injection H as <-.
      * destruct Hy as [<-|Hy]; [|now apply IH].
        apply Z.ltb_lt in C. unfold Order.le. lia.
      * apply Z.ltb_ge in C.
        destruct Hy as [<-|Hy]; [apply LabelsOrder.le_refl|].
        apply LabelsOrder.le_trans with l'; [|now apply IH].
        apply LabelsOrder.not_lt_le. lia.
    + injection H as <-. destruct Hy as [<-|Hy]; [apply LabelsOrder.le_refl|].
      apply min_head_None in E. apply heads_In in Hy. rewrite E in Hy. contradiction.
Qed.

(** In sorted sets the smallest head is below every series. *)
Lemma min_head_lower_bound sets l :
  min_head cmp sets = Some l ->
  Forall (StronglySorted series_le) sets ->
  forall x, In x (concat sets) -> Order.le l (Labels x).
Proof.
  intros Hm Hs x Hx. apply in_concat in Hx. destruct Hx as (s & Hs' & Hx).
  rewrite Forall_forall in Hs. specialize (Hs _ Hs').
  destruct s as [|y s]; [contradiction|].
  assert (Hy : Order.le l (Labels y)).
  { apply (min_head_le _ _ Hm). unfold heads. apply in_flat_map.
    exists (y :: s). simpl. auto. }
  destruct Hx as [<-|Hx]; [assumption|].
  apply StronglySorted_inv in Hs. destruct Hs as [_ Hall].
  rewrite Forall_forall in Hall.
  eapply LabelsOrder.le_trans; [exact Hy | now apply Hall].
Qed.

Lemma pop_equal_cons l s sets :
  pop_equal l (s :: sets) =
  match s with
  | x :: s' =>
      if labels.Equal (Labels x) l
      then (x :: fst (pop_equal l sets), s' :: snd (pop_equal l sets))
      else (fst (pop_equal l sets), s :: snd (pop_equal l sets))
  | [] => (fst (pop_equal l sets), s :: snd (pop_equal l sets))
  end.
Proof.
  simpl. destruct (pop_equal l sets) as [cur rest]. simpl.
  destruct s as [|x s']; [reflexivity|]. now destruct (labels.Equal (Labels x) l).
Qed.

Lemma pop_equal_cur l sets : Forall (fun x => Labels x = l) (fst (pop_equal l sets)).
Proof.
  induction sets as [|s sets IH]; [constructor|].
  rewrite pop_equal_cons. destruct s as [|x s']; simpl; auto.
  destruct (labels.Equal (Labels x) l) eqn:E; simpl; auto.
  constructor; auto. now apply LabelsOrder.Equal_spec.
Qed.

Lemma pop_equal_perm l sets :
  Permutation (concat sets) (fst (pop_equal l sets) ++ concat (snd (pop_equal l sets))).
Proof.
  induction sets as [|s sets IH]; [reflexivity|].
  rewrite pop_equal_cons. destruct s as [|x s']; simpl; auto.
  destruct (labels.Equal (Labels x) l); simpl.
  - apply perm_skip. rewrite IH. apply Permutation_app_swap_app.
  - rewrite IH. apply (Permutation_app_swap_app (x :: s')).
Qed.

Lemma total_len_cons s sets : total_len (s :: sets) = (length s + total_len sets)%nat.
Proof. reflexivity. Qed.

Lemma total_len_concat sets : total_len sets = length (concat sets).
Proof.
  induction sets as [|s sets IH]; [reflexivity|].
  rewrite total_len_cons, IH. simpl. now rewrite length_app.
Qed.

Lemma pop_equal_len l sets :
  total_len sets =
  (length (fst (pop_equal l sets)) + total_len (snd (pop_equal l sets)))%nat.
Proof.
  rewrite !total_len_concat, <- length_app.
  apply Permutation_length, pop_equal_perm.
Qed.

Lemma pop_equal_nonempty l sets :
  (exists x, In x (heads sets) /\ Labels x = l) -> fst (pop_equal l sets) <> [].
Proof.
  induction sets as [|s sets IH]; intros (x & Hx & Hl).
  - contradiction.
  - rewrite pop_equal_cons. destruct s as [|y s']; simpl in *.
    + apply IH. eauto.
    + destruct (labels.Equal (Labels y) l) eqn:E; simpl; [discriminate|].
      destruct Hx as [->|Hx].
      * apply LabelsOrder.Equal_spec in Hl. congruence.
      * apply IH. eauto.
Qed.

(** Every set stays as it is or loses its first series. *)
Lemma pop_equal_tails l sets :
  Forall2 (fun s s' => s' = s \/ exists x, s = x :: s') sets (snd (pop_equal l sets)).
Proof.
  induction sets as [|s sets IH]; [constructor|].
  rewrite pop_equal_cons. destruct s as [|x s']; simpl; [constructor; auto|].
  destruct (labels.Equal (Labels x) l); simpl; constructor; eauto.
Qed.

Lemma pop_equal_keeps (P : list ChunkSeries -> Prop) l sets :
  (forall x s, P (x :: s) -> P s) ->
  Forall P sets -> Forall P (snd (pop_equal l sets)).
Proof.
  intros Htl Hall. pose proof (pop_equal_tails l sets) as H2.
  induction H2 as [|s s' sets sets' Hs _ IH]; [constructor|].
  inversion Hall; subst. constructor; [|now apply IH].
  destruct Hs as [->|(x & ->)]; eauto.
Qed.

Lemma merger_cons s0 cur :
  merger (s0 :: cur) =
  Some {| Labels := Labels s0; Chunks := concat (map Chunks (s0 :: cur)) |}.
Proof. reflexivity. Qed.

(** One round of the merge, with enough rounds left. *)
Lemma merge_round fuel sets l :
  min_head cmp sets = Some l ->
  exists s0 cur,
    fst (pop_equal l sets) = s0 :: cur /\ Labels s0 = l /\
    merge (S fuel) sets =
    {| Labels := l; Chunks := concat (map Chunks (s0 :: cur)) |}
      :: merge fuel (snd (pop_equal l sets)).
Proof.
  intros Hm. pose proof (pop_equal_nonempty l sets (min_head_In _ _ Hm)) as Hne.
  pose proof (pop_equal_cur l sets) as Hcur.
  simpl merge_loop. rewrite Hm.
  destruct (pop_equal l sets) as [cur sets'] eqn:E. simpl in *.
  destruct cur as [|s0 cur]; [congruence|].
  inversion Hcur; subst. exists s0, cur. repeat split.
Qed.

Lemma merge_exhausted fuel sets : min_head cmp sets = None -> merge fuel sets = [].
Proof. intros Hm. destruct fuel; simpl; [reflexivity|]. now rewrite Hm. Qed.

Lemma merge_labels_from fuel : forall sets y,
    In y (merge fuel sets) -> exists x, In x (concat sets) /\ Labels x = Labels y.
Proof.
  induction fuel as [|fuel IH]; intros sets y Hy; [contradiction|].
  destruct (min_head cmp sets) as [l|] eqn:Hm.
  - destruct (merge_round fuel sets l Hm) as (s0 & cur & Hc & Hl & Heq).
    rewrite Heq in Hy. pose proof (pop_equal_perm l sets) as Hp.
    destruct Hy as [<-|Hy].
    + exists s0. split; [|assumption].
      apply (Permutation_in _ (Permutation_sym Hp)). rewrite Hc. simpl. auto.
    + destruct (IH _ _ Hy) as (x & Hx & Hxl). exists x. split; [|assumption].
      apply (Permutation_in _ (Permutation_sym Hp)). apply in_or_app. auto.
  - rewrite merge_exhausted in Hy by assumption. contradiction.
Qed.

(** Sorted sets merge into a sorted set. *)
Lemma merge_sorted fuel : forall sets,
    Forall (StronglySorted series_le) sets ->
    StronglySorted series_le (merge fuel sets).
Proof.
  induction fuel as [|fuel IH]; intros sets Hs; [constructor|].
  destruct (min_head cmp sets) as [l|] eqn:Hm.
  - destruct (merge_round fuel sets l Hm) as (s0 & cur & Hc & Hl & Heq).
    rewrite Heq. constructor.
    + apply IH. apply pop_equal_keeps; [|assumption].
      intros x s H. now apply StronglySorted_inv in H.
    + apply Forall_forall. intros y Hy.
      destruct (merge_labels_from _ _ _ Hy) as (x & Hx & Hxl).
      unfold series_le. simpl. rewrite <- Hxl.
      apply (min_head_lower_bound _ _ Hm Hs).
      apply (Permutation_in _ (Permutation_sym (pop_equal_perm l sets))).
      apply in_or_app. auto.
  - rewrite merge_exhausted by assumption. constructor.
Qed.

Lemma concat_nil_sets (sets : list ChunkSeriesSet) :
  concat sets = [] -> Forall (fun s => s = []) sets.
Proof.
  induction sets as [|s sets IH]; simpl; intros H; [constructor|].
  apply app_eq_nil in H. destruct H. constructor; auto.
Qed.

Lemma total_len_zero sets : total_len sets = 0%nat -> concat sets = [].
Proof. rewrite total_len_concat. apply length_zero_iff_nil. Qed.

Lemma tagged_same_label l cur :
  Forall (fun x => Labels x = l) cur ->
  flat_map tagged cur = map (pair l) (concat (map Chunks cur)).
Proof.
  induction 1 as [|x cur Hx _ IH]; [reflexivity|].
  simpl. rewrite map_app, IH. unfold tagged. now rewrite Hx.
Qed.

(** The merge neither loses nor repeats a chunk, and keeps every chunk
    under its label set. *)
Lemma merge_tagged_perm fuel : forall sets,
    (total_len sets <= fuel)%nat ->
    Permutation (flat_map tagged (merge fuel sets)) (flat_map tagged (concat sets)).
Proof.
  induction fuel as [|fuel IH]; intros sets Hf.
  - rewrite total_len_zero by lia. reflexivity.
  - destruct (min_head cmp sets) as [l|] eqn:Hm.
    + destruct (merge_round fuel sets l Hm) as (s0 & cur & Hc & Hl & Heq).
      pose proof (pop_equal_len l sets) as Hlen. rewrite Hc in Hlen. simpl in Hlen.
      pose proof (pop_equal_cur l sets) as Hcur. rewrite Hc in Hcur.
      rewrite Heq. cbn [flat_map].
      rewrite (Permutation_flat_map tagged (pop_equal_perm l sets)), Hc.
      rewrite flat_map_app, (tagged_same_label l _ Hcur).
      apply Permutation_app; [reflexivity|]. apply IH. lia.
    + rewrite merge_exhausted, (min_head_None _ Hm) by assumption. reflexivity.
Qed.

(** The merged set has exactly the label sets of the blocks. *)
Lemma merge_labels_iff fuel : forall sets L,
    (total_len sets <= fuel)%nat ->
    In L (map Labels (merge fuel sets)) <-> In L (map Labels (concat sets)).
Proof.
  induction fuel as [|fuel IH]; intros sets L Hf.
  - rewrite total_len_zero by lia. reflexivity.
  - split.
    + intros H. apply in_map_iff in H. destruct H as (y & <- & Hy).
      destruct (merge_labels_from _ _ _ Hy) as (x & Hx & Hxl).
      apply in_map_iff. eauto.
    + destruct (min_head cmp sets) as [l|] eqn:Hm.
      * destruct (merge_round fuel sets l Hm) as (s0 & cur & Hc & Hl & Heq).
        pose proof (pop_equal_len l sets) as Hlen. rewrite Hc in Hlen. simpl in Hlen.
        pose proof (pop_equal_cur l sets) as Hcur. rewrite Hc in Hcur.
        rewrite Heq. intros H. apply in_map_iff in H. destruct H as (x & <- & Hx).
        apply (Permutation_in _ (pop_equal_perm l sets)) in Hx.
        rewrite Hc in Hx. apply in_app_or in Hx. destruct Hx as [Hx|Hx].
        -- left. simpl. rewrite Forall_forall in Hcur. symmetry. now apply Hcur.
        -- right. apply IH; [lia|]. now apply in_map.
      * rewrite (min_head_None _ Hm). contradiction.
Qed.

(** Merging a single set gives the set back. *)
Lemma merge_single (s : ChunkSeriesSet) : forall fuel,
    (length s <= fuel)%nat -> merge fuel [s] = s.
Proof.
  induction s as [|x s IH]; intros fuel Hf.
  - now apply merge_exhausted.
  - destruct fuel as [|fuel]; [simpl in Hf; lia|].
    cbn [merge_loop min_head pop_equal].
    replace (labels.Equal (Labels x) (Labels x)) with true
      by (symmetry; now apply LabelsOrder.Equal_spec).
    cbn [NewConcatenatingChunkSeriesMerger map concat].
    rewrite app_nil_r, IH by (simpl in Hf; lia). now destruct x.
Qed.

Lemma select_cons L x l :
  select L (x :: l) = if labels.Equal (Labels x) L then x :: select L l else select L l.
Proof. reflexivity. Qed.

Lemma select_none L l :
  (forall y, In y l -> Labels y <> L) -> select L l = [].
Proof.
  induction l as [|x l IH]; intros H; [reflexivity|].
  rewrite select_cons. destruct (labels.Equal (Labels x) L) eqn:E.
  - apply LabelsOrder.Equal_spec in E. exfalso. apply (H x); simpl; auto.
  - apply IH. intros y Hy. apply H. simpl. auto.
Qed.

Lemma select_concat_nil L sets : concat sets = [] -> flat_map (select L) sets = [].
Proof.
  intros H. apply concat_nil_sets in H.
  induction H as [|s sets -> _ IH]; [reflexivity|]. exact IH.
Qed.

(** Popping another label set leaves the series of [L] in place. *)
Lemma pop_select_miss L l sets :
  l <> L ->
  flat_map (select L) (snd (pop_equal l sets)) = flat_map (select L) sets.
Proof.
  intros Hne. induction sets as [|s sets IH]; [reflexivity|].
  rewrite pop_equal_cons. destruct s as [|x s']; simpl; [exact IH|].
  destruct (labels.Equal (Labels x) l) eqn:E; simpl; rewrite IH; [|reflexivity].
  apply LabelsOrder.Equal_spec in E. f_equal. rewrite select_cons.
  destruct (labels.Equal (Labels x) L) eqn:E'; [|reflexivity].
  apply LabelsOrder.Equal_spec in E'. congruence.
Qed.

(** When [L] is below every series of sorted sets that hold it at most
    once each, popping [L] takes all its series, in the order of the
    sets. *)
Lemma pop_select_hit L sets :
  (forall x, In x (concat sets) -> Order.le L (Labels x)) ->
  Forall (StronglySorted series_le) sets ->
  Forall (fun s => (length (select L s) <= 1)%nat) sets ->
  fst (pop_equal L sets) = flat_map (select L) sets /\
  flat_map (select L) (snd (pop_equal L sets)) = [].
Proof.
  induction sets as [|s sets IH]; intros Hlow Hs Hone; [split; reflexivity|].
  inversion Hs as [|? ? Hs1 Hs2]; subst. inversion Hone as [|? ? Ho1 Ho2]; subst.
  destruct IH as [IH1 IH2]; auto.
  { intros x Hx. apply Hlow. simpl. apply in_or_app. auto. }
  rewrite pop_equal_cons. destruct s as [|x s']; simpl; [split; assumption|].
  rewrite select_cons in Ho1 |- *.
  destruct (labels.Equal (Labels x) L) eqn:E; simpl in *.
  - assert (Hnil : select L s' = []) by (apply length_zero_iff_nil; lia).
    rewrite Hnil, IH1, IH2. split; reflexivity.
  - assert (Hnil : select L s' = []).
    { apply select_none. intros y Hy Hl.
      apply StronglySorted_inv in Hs1. destruct Hs1 as [_ Hall].
      rewrite Forall_forall in Hall. specialize (Hall _ Hy).
      unfold series_le in Hall. rewrite Hl in Hall.
      assert (Hx : Labels x = L).
      { apply LabelsOrder.le_antisym; [assumption|]. apply Hlow. simpl. auto. }
      apply LabelsOrder.Equal_spec in Hx. congruence. }
    rewrite ?select_cons, ?E, Hnil, IH1, IH2. split; reflexivity.
Qed.

(** The series of label set [L] after the merge of sorted sets that hold
    [L] at most once each: a single series, whose chunks are those of the
    blocks' series, block after block. *)
Lemma merge_select L fuel : forall sets,
    (total_len sets <= fuel)%nat ->
    Forall (StronglySorted series_le) sets ->
    Forall (fun s => (length (select L s) <= 1)%nat) sets ->
    select L (merge fuel sets) =
    match flat_map (select L) sets with
    | [] => []
    | ss => [ {| Labels := L; Chunks := concat (map Chunks ss) |} ]
    end.
Proof.
  induction fuel as [|fuel IH]; intros sets Hf Hs Hone.
  - rewrite (select_concat_nil L sets) by (apply total_len_zero; lia). reflexivity.
  - destruct (min_head cmp sets) as [l|] eqn:Hm.
    + destruct (merge_round fuel sets l Hm) as (s0 & cur & Hc & Hl & Heq).
      pose proof (pop_equal_len l sets) as Hlen. rewrite Hc in Hlen. simpl in Hlen.
      assert (Hs' : Forall (StronglySorted series_le) (snd (pop_equal l sets))).
      { apply pop_equal_keeps; [|assumption].
        intros x s H. now apply StronglySorted_inv in H. }
      assert (Hone' : Forall (fun s => (length (select L s) <= 1)%nat)
                        (snd (pop_equal l sets))).
      { apply pop_equal_keeps; [|assumption].
        intros x s H. cbv beta in *. rewrite select_cons in H.
        destruct (labels.Equal (Labels x) L); simpl in H; lia. }
      rewrite Heq, select_cons. cbn [Labels].
      assert (Hf' : (total_len (snd (pop_equal l sets)) <= fuel)%nat) by lia.
      rewrite (IH _ Hf' Hs' Hone').
      destruct (labels.Equal l L) eqn:E.
      * apply LabelsOrder.Equal_spec in E. clear Hl. subst l.
        destruct (pop_select_hit L sets (min_head_lower_bound _ _ Hm Hs) Hs Hone)
          as [H1 H2].
        rewrite H2, <- H1, Hc. reflexivity.
      * rewrite pop_select_miss; [reflexivity|].
        intros ->. rewrite (proj2 (LabelsOrder.Equal_spec L L) eq_refl) in E.
        discriminate.
    + rewrite merge_exhausted by assumption.
      rewrite (select_concat_nil L sets) by now apply min_head_None. reflexivity.
Qed.

Lemma select_decoded L l : select_series L (map decoded l) = map decoded (select L l).
Proof.
  unfold select_series, select. induction l as [|x l IH]; [reflexivity|].
  simpl. destruct (labels.Equal (Labels x) L); simpl; now rewrite IH.
Qed.

Lemma labels_decoded l : map sLabels (map decoded l) = map Labels l.
Proof. now rewrite map_map. Qed.

Lemma sorted_labels l :
  StronglySorted series_le l ->
  StronglySorted (fun a b => labels.Compare a b <= 0) (map Labels l).
Proof.
  induction 1 as [|x l Hs IH Hall]; simpl; constructor; [assumption|].
  rewrite Forall_map. exact Hall.
Qed.

Lemma strict_labels l :
  StronglySorted series_lt l ->
  StronglySorted (fun a b => labels.Compare a b < 0) (map Labels l).
Proof.
  induction 1 as [|x l Hs IH Hall]; simpl; constructor; [assumption|].
  rewrite Forall_map. exact Hall.
Qed.

(** *** How many series the merge yields *)

(** The series taken in a round are the series the sets are positioned at
    that carry the round's label set. *)
Lemma pop_equal_heads l sets : fst (pop_equal l sets) = select l (heads sets).
Proof.
  induction sets as [|s sets IH]; [reflexivity|].
  rewrite pop_equal_cons. cbn [heads flat_map]. unfold select in *.
  rewrite filter_app. destruct s as [|x s']; cbn [fst]; [exact IH|].
  cbn [filter]. destruct (labels.Equal (Labels x) l); cbn [fst app]; now rewrite IH.
Qed.

(** Never more series than the sets hold. *)
Lemma merge_length fuel : forall sets, (length (merge fuel sets) <= total_len sets)%nat.
Proof.
  induction fuel as [|fuel IH]; intros sets; [simpl; lia|].
  destruct (min_head cmp sets) as [l|] eqn:Hm.
  - destruct (merge_round fuel sets l Hm) as (s0 & cur & Hc & Hl & Heq).
    pose proof (pop_equal_len l sets) as Hlen. rewrite Hc in Hlen. simpl in Hlen.
    rewrite Heq. specialize (IH (snd (pop_equal l sets))). simpl. lia.
  - rewrite merge_exhausted by assumption. simpl. lia.
Qed.

(** Fewer, when two sets start with the smallest label set among the
    series the sets start with: the first round merges them. *)
Lemma merge_front L fuel sets :
  Forall (fun x => Order.le L (Labels x)) (heads sets) ->
  (2 <= length (select L (heads sets)))%nat ->
  (length (merge fuel sets) < total_len sets)%nat.
Proof.
  intros Hlow Htwo.
  pose proof (pop_equal_len L sets) as Hlen. rewrite pop_equal_heads in Hlen.
  destruct fuel as [|fuel]; [simpl; lia|].
  destruct (min_head cmp sets) as [l|] eqn:Hm.
  - assert (l = L) as ->.
    { destruct (min_head_In _ _ Hm) as (x & Hx & Hxl).
      rewrite Forall_forall in Hlow. specialize (Hlow x Hx). rewrite Hxl in Hlow.
      destruct (select L (heads sets)) as [|y ys] eqn:Hsel; [simpl in Htwo; lia|].
      assert (Hy : In y (select L (heads sets))) by (rewrite Hsel; now left).
      unfold select in Hy. apply filter_In in Hy. destruct Hy as [Hy Hyl].
      apply LabelsOrder.Equal_spec in Hyl.
      pose proof (min_head_le _ _ Hm y Hy) as Hle. rewrite Hyl in Hle.
      now apply LabelsOrder.le_antisym. }
    destruct (merge_round fuel sets L Hm) as (s0 & cur & Hc & Hl & Heq).
    rewrite Heq. pose proof (merge_length fuel (snd (pop_equal L sets))).
    simpl. lia.
  - rewrite merge_exhausted by assumption. simpl. lia.
Qed.

(** *** Strict label order *)

Lemma series_lt_le l : StronglySorted series_lt l -> StronglySorted series_le l.
Proof.
  induction 1 as [|x l Hs IH Hall]; constructor; [assumption|].
  eapply Forall_impl; [|exact Hall]. unfold series_lt, series_le, Order.le. intros; lia.
Qed.

Lemma series_lt_once L l :
  StronglySorted series_lt l -> (length (select L l) <= 1)%nat.
Proof.
  induction 1 as [|x l Hs IH Hall]; [simpl; lia|].
  rewrite select_cons. destruct (labels.Equal (Labels x) L) eqn:E; [|exact IH].
  apply LabelsOrder.Equal_spec in E. rewrite select_none; [simpl; lia|].
  intros y Hy Hyl. rewrite Forall_forall in Hall. specialize (Hall y Hy).
  unfold series_lt in Hall. rewrite Hyl, E, LabelsOrder.Compare_refl in Hall. lia.
Qed.

Lemma select_In L l y : In y l -> Labels y = L -> In y (select L l).
Proof.
  intros Hy Hl. unfold select. apply filter_In. split; [assumption|].
  now apply LabelsOrder.Equal_spec.
Qed.

Lemma series_le_once_lt l :
  StronglySorted series_le l ->
  (forall L, (length (select L l) <= 1)%nat) ->
  StronglySorted series_lt l.
Proof.
  induction 1 as [|x l Hs IH Hall]; intros Hone; [constructor|].
  constructor.
  - apply IH. intros L. specialize (Hone L). rewrite select_cons in Hone.
    destruct (labels.Equal (Labels x) L); simpl in Hone; lia.
  - apply Forall_forall. intros y Hy. rewrite Forall_forall in Hall.
    specialize (Hall y Hy). unfold series_le, Order.le in Hall. unfold series_lt.
    destruct (Z.eq_dec (labels.Compare (Labels x) (Labels y)) 0) as [H0|H0]; [|lia].
    apply LabelsOrder.Compare_eq in H0. specialize (Hone (Labels x)).
    rewrite select_cons in Hone.
    rewrite (proj2 (LabelsOrder.Equal_spec (Labels x) (Labels x)) eq_refl) in Hone.
    pose proof (select_In (Labels x) l y Hy (eq_sym H0)) as Hin.
    destruct (select (Labels x) l); [destruct Hin | simpl in Hone; lia].
Qed.

(** Sets in strict label order merge into a set in strict label order:
    every label set comes once. *)
Lemma merge_strict fuel sets :
  (total_len sets <= fuel)%nat ->
  Forall (StronglySorted series_lt) sets ->
  StronglySorted series_lt (merge fuel sets).
Proof.
  intros Hf Hs.
  assert (Hle : Forall (StronglySorted series_le) sets).
  { eapply Forall_impl; [|exact Hs]. apply series_lt_le. }
  apply series_le_once_lt; [now apply merge_sorted|].
  intros L. rewrite (merge_select L fuel sets Hf Hle).
  - destruct (flat_map (select L) sets); simpl; lia.
  - eapply Forall_impl; [|exact Hs]. intros s. apply series_lt_once.
Qed.

(** A slice in strict label order has one sorted arrangement only, so
    sorting it, however ties would be placed, changes nothing. *)
Lemma sorted_perm_unique r : forall r',
    StronglySorted series_lt r -> StronglySorted series_le r' ->
    Permutation r' r -> r' = r.
Proof.
  induction r as [|a r IH]; intros r' Hr Hr' Hp.
  - now apply Permutation_nil, Permutation_sym.
  - destruct r' as [|a' r'].
    { apply Permutation_nil in Hp. discriminate. }
    apply StronglySorted_inv in Hr. destruct Hr as [Hr Hall].
    apply StronglySorted_inv in Hr'. destruct Hr' as [Hr' Hall'].
    rewrite Forall_forall in Hall, Hall'.
    assert (a' = a) as ->.
    { assert (Ha' : In a' (a :: r)) by (apply (Permutation_in _ Hp); now left).
      assert (Ha : In a (a' :: r'))
        by (apply (Permutation_in _ (Permutation_sym Hp)); now left).
      destruct Ha' as [->|Ha']; [reflexivity|].
      destruct Ha as [->|Ha]; [reflexivity|].
      specialize (Hall a' Ha'). specialize (Hall' a Ha).
      unfold series_lt in Hall. unfold series_le, Order.le in Hall'.
      pose proof (LabelsOrder.Compare_antisym (Labels a) (Labels a')). lia. }
    f_equal. apply IH; [assumption | assumption |].
    now apply Permutation_cons_inv with a.
Qed.

Lemma Sort_strict r :
  StronglySorted series_lt r -> gosort.Sort search.byLabels_Less r = r.
Proof.
  intros H. apply sorted_perm_unique; [assumption | apply byLabels_sorted | apply byLabels_perm].
Qed.

(** *** What the decoded series hold *)

Lemma tagged_In L c l :
  In (L, c) (flat_map tagged l) <-> exists x, In x l /\ Labels x = L /\ In c (Chunks x).
Proof.
  rewrite in_flat_map. unfold tagged. split.
  - intros (x & Hx & H). apply in_map_iff in H. destruct H as (c' & [= <- <-] & Hc). eauto.
  - intros (x & Hx & <- & Hc). exists x. split; [assumption|]. now apply in_map.
Qed.

Lemma held_In p x : In p (held x) <-> exists c, In c (Chunks x) /\ In p (chunks.Chunk c).
Proof.
  unfold held. rewrite in_concat. split.
  - intros (l & Hl & Hp). apply in_map_iff in Hl. destruct Hl as (c & <- & Hc). eauto.
  - intros (c & Hc & Hp). exists (chunks.Chunk c). split; [now apply in_map | assumption].
Qed.

(** The series decoded from the merged set hold what the sets hold, label
    set by label set. *)
Lemma merge_content fuel sets :
  (total_len sets <= fuel)%nat ->
  holds_content (concat sets) (map decoded (merge fuel sets)).
Proof.
  intros Hf. pose proof (merge_tagged_perm fuel sets Hf) as Hperm.
  repeat split.
  - intros s Hs _. apply in_map_iff in Hs. destruct Hs as (y & <- & Hy).
    exact (merge_labels_from _ _ _ Hy).
  - intros s p Hs Hp. apply in_map_iff in Hs. destruct Hs as (y & <- & Hy).
    apply ChainFacts.Iterator_In in Hp. apply (held_In p y) in Hp.
    destruct Hp as (c & Hc & Hp).
    assert (H : In (Labels y, c) (flat_map tagged (merge fuel sets)))
      by (apply tagged_In; eauto).
    apply (Permutation_in _ Hperm), tagged_In in H.
    destruct H as (x & Hx & Hxl & Hxc). exists x. split; [assumption|].
    split; [exact Hxl|]. apply held_In. eauto.
  - intros x c Hx Hc.
    assert (H : In (Labels x, c) (flat_map tagged (concat sets)))
      by (apply tagged_In; eauto).
    apply (Permutation_in _ (Permutation_sym Hperm)), tagged_In in H.
    destruct H as (y & Hy & Hyl & Hyc). exists (decoded y).
    split; [now apply in_map|]. split; [exact Hyl|]. split.
    + unfold IsNil. cbn [decoded sChunks]. destruct (Chunks y); [destruct Hyc | reflexivity].
    + intros p Hp Hne. apply ChainFacts.Iterator_complete; [|assumption].
      apply (held_In p y). eauto.
Qed.

End MergeFacts.

(** ** Facts about the effects *)

Module EffFacts.
Import Eff EffSpec.
Local Open Scope eff_scope.

Lemma bind_ok {Ev St A B} (c : M Ev St A) (k : A -> M Ev St B) s t a s1 :
  c s = (t, s1, inr a) ->
  bind c k s = (t ++ trace (k a s1), state (k a s1), value (k a s1)).
Proof.
  intros H. unfold bind. rewrite H. now destruct (k a s1) as [[t2 s2] r].
Qed.

Lemma bind_err {Ev St A B} (c : M Ev St A) (k : A -> M Ev St B) s t e s1 :
  c s = (t, s1, inl e) -> bind c k s = (t, s1, inl e).
Proof. intros H. unfold bind. now rewrite H. Qed.

Lemma run_eta {Ev St A} (x : list Ev * St * result A) :
  x = (trace x, state x, value x).
Proof. now destruct x as [[t s] r]. Qed.

Lemma bind_get {Ev St B} (k : St -> M Ev St B) s : bind get k s = k s s.
Proof. unfold bind, get. now destruct (k s s) as [[t2 s2] r]. Qed.

Lemma bind_lift {Ev St A B} (r : result A) (k : A -> M Ev St B) s :
  bind (lift r) k s = match r with inl e => ([], s, inl e) | inr a => k a s end.
Proof.
  unfold bind, lift. destruct r as [e|a]; [reflexivity|].
  now destruct (k a s) as [[t2 s2] r].
Qed.

Lemma bind_call {Ev St A B} (ev : Ev) (r : result A) (k : A -> M Ev St B) s :
  bind (call ev r) k s =
  match r with
  | inl e => ([ev], s, inl e)
  | inr a => (ev :: trace (k a s), state (k a s), value (k a s))
  end.
Proof.
  unfold bind, call. destruct r as [e|a]; [reflexivity|].
  now destruct (k a s) as [[t2 s2] r].
Qed.

Lemma bind_assoc {Ev St A B C} (c : M Ev St A) (k1 : A -> M Ev St B)
  (k2 : B -> M Ev St C) s :
  bind (bind c k1) k2 s = bind c (fun a => bind (k1 a) k2) s.
Proof.
  unfold bind. destruct (c s) as [[t1 s1] [e|a]]; [reflexivity|].
  destruct (k1 a s1) as [[t2 s2] [e|b]]; [reflexivity|].
  destruct (k2 b s2) as [[t3 s3] r]. now rewrite app_assoc.
Qed.

Lemma bind_ret_value {Ev St A B} (c : M Ev St A) (g : A -> B) s :
  bind c (fun a => ret (g a)) s =
  (trace (c s), state (c s),
   match value (c s) with inl e => inl e | inr a => inr (g a) end).
Proof.
  unfold bind, ret. destruct (c s) as [[t1 s1] [e|a]]; [reflexivity|].
  simpl. now rewrite app_nil_r.
Qed.

Section ForRange.
Context {Ev St X Y R : Type}.
Variable step : nat -> X -> M Ev St Y.
Variable f : R -> nat -> Y -> R.
Variable body : nat -> X -> R -> M Ev St R.
Hypothesis body_step :
  forall i x acc s, body i x acc s = bind (step i x) (fun y => ret (f acc i y)) s.
Variable s : St.
Hypothesis step_state : forall i x, state (step i x s) = s.

Lemma body_ok i x acc y :
  value (step i x s) = inr y ->
  body i x acc s = (trace (step i x s), s, inr (f acc i y)).
Proof using body_step step_state.
  intros Hv. rewrite body_step. pose proof (step_state i x) as Hs.
  unfold bind, ret. destruct (step i x s) as [[t s1] r]. simpl in *. subst.
  now rewrite app_nil_r.
Qed.

Lemma body_err i x acc e :
  value (step i x s) = inl e ->
  body i x acc s = (trace (step i x s), s, inl e).
Proof using body_step step_state.
  intros Hv. rewrite body_step. pose proof (step_state i x) as Hs.
  unfold bind, ret. destruct (step i x s) as [[t s1] r]. simpl in *. now subst.
Qed.

Lemma for_range_ok xs : forall i acc ys,
    steps_ok step s i xs ys ->
    for_range i xs acc body s = (steps_trace step s i xs, s, inr (fold_acc f i acc ys)).
Proof using body_step step_state.
  induction xs as [|x xs IH]; intros i acc [|y ys] H; simpl in H; try contradiction.
  - reflexivity.
  - destruct H as [Hy Hrest]. cbn [for_range steps_trace fold_acc].
    rewrite (bind_ok _ _ _ _ _ _ (body_ok i x acc y Hy)).
    rewrite (IH _ _ _ Hrest). reflexivity.
Qed.

Lemma for_range_fail pre : forall i acc ys x post e,
    steps_ok step s i pre ys ->
    value (step (i + length pre) x s) = inl e ->
    for_range i (pre ++ x :: post) acc body s =
    (steps_trace step s i (pre ++ [x]), s, inl e).
Proof using body_step step_state.
  induction pre as [|p pre IH]; intros i acc [|y ys] x post e H He;
    simpl in H; try contradiction.
  - rewrite Nat.add_0_r in He. cbn [app for_range steps_trace].
    rewrite (bind_err _ _ _ _ _ _ (body_err i x acc e He)).
    now rewrite app_nil_r.
  - destruct H as [Hy Hrest]. cbn [app for_range steps_trace].
    rewrite (bind_ok _ _ _ _ _ _ (body_ok i p acc y Hy)).
    cbn [length] in He. rewrite <- Nat.add_succ_comm in He.
    rewrite (IH _ _ _ _ post _ Hrest He). reflexivity.
Qed.

Lemma for_range_inv xs : forall i acc r,
    value (for_range i xs acc body s) = inr r ->
    exists ys, steps_ok step s i xs ys /\ r = fold_acc f i acc ys.
Proof using body_step step_state.
  induction xs as [|x xs IH]; intros i acc r H.
  - exists []. simpl in *. split; [exact I | congruence].
  - cbn [for_range] in H. destruct (value (step i x s)) as [e|y] eqn:Hy.
    + rewrite (bind_err _ _ _ _ _ _ (body_err i x acc e Hy)) in H. discriminate.
    + rewrite (bind_ok _ _ _ _ _ _ (body_ok i x acc y Hy)) in H. simpl in H.
      destruct (IH _ _ _ H) as (ys & Hok & Hr).
      exists (y :: ys). simpl. auto.
Qed.

(** Either every step succeeds, or there is a first one that fails. *)
Lemma steps_ok_or_fail xs : forall i,
    (exists ys, steps_ok step s i xs ys) \/
    (exists pre x post ys e,
        xs = pre ++ x :: post /\ steps_ok step s i pre ys /\
        value (step (i + length pre) x s) = inl e).
Proof using Type.
  induction xs as [|x xs IH]; intros i.
  - left. exists []. exact I.
  - destruct (value (step i x s)) as [e|y] eqn:Hy.
    + right. exists [], x, xs, [], e. simpl. rewrite Nat.add_0_r. auto.
    + destruct (IH (S i)) as [(ys & Hok)|(pre & x' & post & ys & e & -> & Hok & He)].
      * left. exists (y :: ys). simpl. auto.
      * right. exists (x :: pre), x', post, (y :: ys), e. simpl.
        rewrite <- Nat.add_succ_comm. auto.
Qed.

Lemma for_range_state xs : forall i acc, state (for_range i xs acc body s) = s.
Proof using body_step step_state.
  intros i acc. destruct (steps_ok_or_fail xs i)
    as [(ys & Hok)|(pre & x & post & ys & e & -> & Hok & He)].
  - now rewrite (for_range_ok _ _ _ _ Hok).
  - now rewrite (for_range_fail _ _ _ _ _ _ _ Hok He).
Qed.

Lemma for_range_trace_in (P : Ev -> Prop) xs :
  (forall i x ev, In ev (trace (step i x s)) -> P ev) ->
  forall i acc ev, In ev (trace (for_range i xs acc body s)) -> P ev.
Proof using body_step step_state.
  intros HP. induction xs as [|x xs IH]; intros i acc ev H.
  - contradiction.
  - cbn [for_range] in H. destruct (value (step i x s)) as [e|y] eqn:Hy.
    + rewrite (bind_err _ _ _ _ _ _ (body_err i x acc e Hy)) in H.
      unfold trace at 1 in H. simpl in H. eauto.
    + rewrite (bind_ok _ _ _ _ _ _ (body_ok i x acc y Hy)) in H.
      unfold trace at 1 in H. simpl in H.
      apply in_app_or in H. destruct H; eauto.
Qed.

Lemma steps_ok_length xs : forall i ys, steps_ok step s i xs ys -> length ys = length xs.
Proof using Type.
  induction xs as [|x xs IH]; intros i [|y ys] H; simpl in *; try contradiction; auto.
  destruct H. f_equal. eauto.
Qed.

Lemma steps_ok_nth xs : forall i,
    (forall j x, nth_error xs j = Some x -> exists y, value (step (i + j) x s) = inr y) ->
    exists ys, steps_ok step s i xs ys.
Proof using Type.
  induction xs as [|x xs IH]; intros i H.
  - exists []. exact I.
  - destruct (H 0%nat x eq_refl) as (y & Hy). rewrite Nat.add_0_r in Hy.
    destruct (IH (S i)) as (ys & Hok).
    { intros j x' Hj. rewrite Nat.add_succ_comm. now apply (H (S j)). }
    exists (y :: ys). simpl. auto.
Qed.

Lemma steps_ok_at xs : forall i ys j x,
    steps_ok step s i xs ys -> nth_error xs j = Some x ->
    exists y, value (step (i + j) x s) = inr y.
Proof using Type.
  induction xs as [|x0 xs IH]; intros i [|y ys] j x H Hj; simpl in H;
    try contradiction.
  - destruct j; discriminate.
  - destruct H as [Hy Hrest]. destruct j as [|j]; simpl in Hj.
    + injection Hj as <-. rewrite Nat.add_0_r. eauto.
    + rewrite <- Nat.add_succ_comm. eapply IH; eauto.
Qed.

End ForRange.

(** When the steps ignore the index, success is position-wise. *)
Lemma steps_ok_Forall2 {Ev St X Y} (step : X -> M Ev St Y) (s : St) xs :
  forall i ys,
    steps_ok (fun _ => step) s i xs ys <->
    Forall2 (fun x y => value (step x s) = inr y) xs ys.
Proof.
  induction xs as [|x xs IH]; intros i [|y ys]; simpl.
  - split; intros _; [constructor | exact I].
  - split; [contradiction | inversion 1].
  - split; [contradiction | inversion 1].
  - split.
    + intros [H1 H2]. constructor; [assumption | now apply (IH (S i))].
    + intros H. inversion H; subst. split; [assumption | now apply IH].
Qed.

Lemma steps_trace_flat_map {Ev St X Y} (step : X -> M Ev St Y) (s : St) xs :
  forall i, steps_trace (fun _ => step) s i xs = flat_map (fun x => trace (step x s)) xs.
Proof. induction xs as [|x xs IH]; intros i; simpl; [reflexivity|]. now rewrite IH. Qed.

(** Appending the values of the steps. *)
Lemma fold_acc_app {A} (ys : list (list A)) : forall i acc,
    fold_acc (fun acc (_ : nat) y => acc ++ y) i acc ys = acc ++ concat ys.
Proof.
  induction ys as [|y ys IH]; intros i acc; simpl.
  - now rewrite app_nil_r.
  - now rewrite IH, app_assoc.
Qed.

Lemma set_index_app {A} (done : list A) x y rest :
  set_index (done ++ x :: rest) (length done) y = done ++ y :: rest.
Proof. induction done as [|d done IH]; simpl; [reflexivity|]. now rewrite IH. Qed.

(** Storing the values of the steps at their index. *)
Lemma fold_acc_set_index {A} (d : A) (ys : list A) : forall done,
    fold_acc (fun acc i y => set_index acc i y) (length done)
      (done ++ repeat d (length ys)) ys = done ++ ys.
Proof.
  induction ys as [|y ys IH]; intros done; simpl.
  - reflexivity.
  - rewrite set_index_app.
    replace (done ++ y :: repeat d (length ys))
      with ((done ++ [y]) ++ repeat d (length ys)) by now rewrite <- app_assoc.
    replace (S (length done)) with (length (done ++ [y]))
      by (rewrite length_app; simpl; lia).
    rewrite IH. now rewrite <- app_assoc.
Qed.

End EffFacts.

(** ** Facts about the per-block operations *)

Module BlockFacts.
Import Eff EffSpec EffFacts search BlockSpec.
Local Open Scope eff_scope.

Section Block.
Context {E : Externals}.

Lemma labelNames_scan matchers :
  labelNames matchers =
  scan EvMaterializeLabelNames (fun b => MaterializeLabelNames (m b))
    (fun b => repeat [] (length (file_RowGroups (lf b))))
    (fun results i series => set_index results i series) matchers.
Proof. reflexivity. Qed.

Lemma labelValues_scan name matchers :
  labelValues name matchers =
  scan (EvMaterializeLabelValues name) (fun b => MaterializeLabelValues (m b) name)
    (fun b => repeat [] (length (file_RowGroups (lf b))))
    (fun results i series => set_index results i series) matchers.
Proof. reflexivity. Qed.

Lemma query_scan sorted mint maxt matchers b :
  query sorted mint maxt matchers b =
  bind (scan (fun i => EvMaterialize i mint maxt)
          (fun b i => Materialize (m b) i mint maxt)
          (fun _ => []) (fun results (_ : nat) series => results ++ series) matchers)
       (fun results =>
          ret (convert.NewChunksSeriesSet
                 (if sorted then gosort.Sort byLabels_Less results else results))) b.
Proof.
  unfold query, scan. rewrite bind_assoc, !bind_get.
  rewrite bind_assoc, !bind_lift.
  destruct (MatchersToConstraint matchers) as [e|cs]; [reflexivity|].
  rewrite bind_assoc. reflexivity.
Qed.

Section Scan.
Context {Y R : Type}.
Variable ev : nat -> Event.
Variable mat : ParquetBlock -> nat -> RowRanges -> result Y.
Variable init : ParquetBlock -> R.
Variable f : R -> nat -> Y -> R.
Variable matchers : list labels.Matcher.
Variable b : ParquetBlock.

Lemma group_step_run cs i g s :
  group_step ev (mat b) cs i g s =
  match Filter g cs with
  | inl e => ([EvFilter g], s, inl e)
  | inr rr => (group_events ev i g, s, mat b i rr)
  end.
Proof using Type.
  unfold group_step, bind, call. now destruct (Filter g cs).
Qed.

Lemma group_step_state cs i g s : state (group_step ev (mat b) cs i g s) = s.
Proof using Type. rewrite group_step_run. now destruct (Filter g cs). Qed.

Lemma scan_body cs i g acc s :
  scan_loop ev (mat b) f cs i g acc s =
  bind (group_step ev (mat b) cs i g) (fun y => ret (f acc i y)) s.
Proof using Type.
  unfold scan_loop, group_step, bind, call, ret.
  destruct (Filter g cs) as [e|rr]; [reflexivity|].
  now destruct (mat b i rr) as [e|y].
Qed.

(** The operation, stage by stage. *)
Lemma scan_run :
  scan ev mat init f matchers b =
  match MatchersToConstraint matchers with
  | inl e => ([], b, inl e)
  | inr cs =>
      match Initialize (file_Schema (lf b)) cs with
      | inl e => ([EvInitialize (file_Schema (lf b))], b, inl e)
      | inr cs' =>
          let x := for_range 0 (file_RowGroups (lf b)) (init b) (scan_loop ev (mat b) f cs') b in
          (EvInitialize (file_Schema (lf b)) :: trace x, state x, value x)
      end
  end.
Proof using Type.
  unfold scan. rewrite bind_get, bind_lift.
  destruct (MatchersToConstraint matchers) as [e|cs]; [reflexivity|].
  rewrite bind_call.
  now destruct (Initialize (file_Schema (lf b)) cs) as [e|cs'].
Qed.

(** No per-block operation changes the block it runs on. *)
Lemma scan_state : state (scan ev mat init f matchers b) = b.
Proof using Type.
  rewrite scan_run.
  destruct (MatchersToConstraint matchers) as [e|cs]; [reflexivity|].
  destruct (Initialize (file_Schema (lf b)) cs) as [e|cs']; [reflexivity|].
  cbv zeta. unfold state at 1. simpl.
  apply (for_range_state (group_step ev (mat b) cs') f (scan_loop ev (mat b) f cs')).
  - intros. apply scan_body.
  - intros. apply group_step_state.
Qed.

Lemma steps_trace_ok cs groups : forall i ys,
    steps_ok (group_step ev (mat b) cs) b i groups ys ->
    steps_trace (group_step ev (mat b) cs) b i groups = groups_events ev i groups.
Proof using Type.
  induction groups as [|g groups IH]; intros i [|y ys] H; simpl in H;
    try contradiction; [reflexivity|].
  destruct H as [Hy Hrest]. cbn [steps_trace groups_events].
  rewrite (IH _ _ Hrest). f_equal.
  rewrite group_step_run in Hy |- *. destruct (Filter g cs); [discriminate|reflexivity].
Qed.

(** A failing translation: nothing else is called. *)
Lemma scan_fail_constraints e :
  MatchersToConstraint matchers = inl e ->
  scan ev mat init f matchers b = ([], b, inl e).
Proof using Type. intros H. now rewrite scan_run, H. Qed.

(** A failing binding: no row group is filtered. *)
Lemma scan_fail_initialize cs e :
  MatchersToConstraint matchers = inr cs ->
  Initialize (file_Schema (lf b)) cs = inl e ->
  scan ev mat init f matchers b = ([EvInitialize (file_Schema (lf b))], b, inl e).
Proof using Type. intros H1 H2. now rewrite scan_run, H1, H2. Qed.

(** The groups before the first failing one go through filter and
    materializer; the failing group is the last one touched. *)
Lemma scan_fail_group cs cs' pre g post e :
  MatchersToConstraint matchers = inr cs ->
  Initialize (file_Schema (lf b)) cs = inr cs' ->
  file_RowGroups (lf b) = pre ++ g :: post ->
  (forall j g', nth_error pre j = Some g' ->
     exists rr y, Filter g' cs' = inr rr /\ mat b j rr = inr y) ->
  value (group_step ev (mat b) cs' (length pre) g b) = inl e ->
  scan ev mat init f matchers b =
  (EvInitialize (file_Schema (lf b)) :: groups_events ev 0 pre
     ++ trace (group_step ev (mat b) cs' (length pre) g b),
   b, inl e).
Proof using Type.
  intros H1 H2 H3 Hpre Hg.
  rewrite scan_run, H1, H2, H3. cbv zeta.
  destruct (steps_ok_nth (group_step ev (mat b) cs') b pre 0) as (ys & Hok).
  { intros j g' Hj. destruct (Hpre _ _ Hj) as (rr & y & Hf & Hm).
    exists y. rewrite group_step_run, Hf. exact Hm. }
  rewrite (for_range_fail (group_step ev (mat b) cs') f (scan_loop ev (mat b) f cs')
             (scan_body cs') b
             (fun i x => group_step_state cs' i x b) pre 0 (init b) ys g post e Hok Hg).
  unfold trace at 1, state at 1, value at 1. simpl.
  rewrite <- (steps_trace_ok _ _ _ _ Hok).
  assert (Hsplit : forall xs i, steps_trace (group_step ev (mat b) cs') b i (xs ++ [g]) =
            steps_trace (group_step ev (mat b) cs') b i xs
              ++ trace (group_step ev (mat b) cs' (i + length xs) g b)).
  { induction xs as [|x xs IH]; intros i; simpl.
    - now rewrite app_nil_r, Nat.add_0_r.
    - now rewrite IH, app_assoc, Nat.add_succ_comm. }
  now rewrite Hsplit.
Qed.

(** A successful run went through every group. *)
Lemma scan_inv r :
  value (scan ev mat init f matchers b) = inr r ->
  exists cs cs' ys,
    MatchersToConstraint matchers = inr cs /\
    Initialize (file_Schema (lf b)) cs = inr cs' /\
    steps_ok (group_step ev (mat b) cs') b 0 (file_RowGroups (lf b)) ys /\
    r = fold_acc f 0 (init b) ys.
Proof using Type.
  rewrite scan_run.
  destruct (MatchersToConstraint matchers) as [e|cs] eqn:H1; [discriminate|].
  destruct (Initialize (file_Schema (lf b)) cs) as [e|cs'] eqn:H2; [discriminate|].
  cbv zeta. unfold value at 1. simpl. intros H.
  destruct (for_range_inv (group_step ev (mat b) cs') f (scan_loop ev (mat b) f cs')
              (scan_body cs') b
              (fun i x => group_step_state cs' i x b) _ _ _ _ H) as (ys & Hok & Hr).
  exists cs, cs', ys. repeat split; auto.
Qed.

(** A row group that cannot be filtered or materialized makes the
    operation fail. *)
Lemma scan_fail_any cs cs' j g :
  MatchersToConstraint matchers = inr cs ->
  Initialize (file_Schema (lf b)) cs = inr cs' ->
  nth_error (file_RowGroups (lf b)) j = Some g ->
  (is_err (Filter g cs') = true \/
   exists rr, Filter g cs' = inr rr /\ is_err (mat b j rr) = true) ->
  is_err (value (scan ev mat init f matchers b)) = true.
Proof using Type.
  intros H1 H2 Hj Hfail.
  destruct (value (scan ev mat init f matchers b)) as [e|r] eqn:Hv; [reflexivity|].
  exfalso. apply scan_inv in Hv. destruct Hv as (cs0 & cs0' & ys & H1' & H2' & Hok & _).
  rewrite H1 in H1'. injection H1' as <-. rewrite H2 in H2'. injection H2' as <-.
  destruct (steps_ok_at _ _ _ _ _ _ _ Hok Hj) as (y & Hy).
  rewrite group_step_run in Hy. simpl in Hy.
  destruct Hfail as [Hf|(rr & Hf & Hm)].
  - destruct (Filter g cs'); [discriminate Hy | discriminate Hf].
  - rewrite Hf in Hy. simpl in Hy. rewrite Hy in Hm. discriminate.
Qed.

(** Every call recorded is the binding, a filter, or the operation's own
    materializer call. *)
Lemma scan_trace_in x :
  In x (trace (scan ev mat init f matchers b)) ->
  x = EvInitialize (file_Schema (lf b)) \/ (exists g, x = EvFilter g) \/
  (exists i, x = ev i).
Proof using Type.
  rewrite scan_run.
  destruct (MatchersToConstraint matchers) as [e|cs]; [contradiction|].
  destruct (Initialize (file_Schema (lf b)) cs) as [e|cs'].
  - simpl. intros [<-|[]]. auto.
  - cbv zeta. unfold trace at 1. simpl. intros [<-|H]; [auto|]. right.
    apply (for_range_trace_in (group_step ev (mat b) cs') f (scan_loop ev (mat b) f cs')
             (scan_body cs') b
             (fun i x => group_step_state cs' i x b)
             (fun x => (exists g, x = EvFilter g) \/ (exists i, x = ev i))
             (file_RowGroups (lf b))) with (i := 0%nat) (acc := init b);
      [|exact H].
    intros i g x' Hx. rewrite group_step_run in Hx.
    destruct (Filter g cs'); simpl in Hx; intuition eauto.
Qed.

End Scan.

Lemma scan_fail_fast {Y R} ev (mat : ParquetBlock -> nat -> RowRanges -> result Y)
  (init : ParquetBlock -> R) f :
  block_fail_fast (scan ev mat init f) ev mat.
Proof.
  intros matchers b. split; [|split; [|split]].
  - intros e H. now apply scan_fail_constraints.
  - intros cs e H1 H2. now apply scan_fail_initialize with cs.
  - intros cs cs' pre g post e H1 H2 H3 Hpre. split.
    + intros Hf.
      rewrite (scan_fail_group ev mat init f matchers b cs cs' pre g post e H1 H2 H3 Hpre).
      * now rewrite group_step_run, Hf.
      * now rewrite group_step_run, Hf.
    + intros rr Hf Hm.
      rewrite (scan_fail_group ev mat init f matchers b cs cs' pre g post e H1 H2 H3 Hpre).
      * now rewrite group_step_run, Hf.
      * now rewrite group_step_run, Hf.
  - intros cs cs' j g. apply scan_fail_any.
Qed.

Lemma query_fail_fast sorted mint maxt :
  block_fail_fast (query sorted mint maxt) (fun i => EvMaterialize i mint maxt)
    (fun b i => Materialize (m b) i mint maxt).
Proof.
  intros matchers b.
  destruct (scan_fail_fast (fun i => EvMaterialize i mint maxt)
              (fun b i => Materialize (m b) i mint maxt)
              (fun _ => []) (fun results (_ : nat) series => results ++ series)
              matchers b) as (H1 & H2 & H3 & H4).
  split; [|split; [|split]].
  - intros e H. rewrite query_scan. now rewrite (bind_err _ _ _ _ _ _ (H1 e H)).
  - intros cs e Hc Hi. rewrite query_scan.
    now rewrite (bind_err _ _ _ _ _ _ (H2 cs e Hc Hi)).
  - intros cs cs' pre g post e Hc Hi Hg Hpre.
    destruct (H3 cs cs' pre g post e Hc Hi Hg Hpre) as [Hf Hm]. split.
    + intros H. rewrite query_scan. now rewrite (bind_err _ _ _ _ _ _ (Hf H)).
    + intros rr H H'. rewrite query_scan.
      now rewrite (bind_err _ _ _ _ _ _ (Hm rr H H')).
  - intros cs cs' j g Hc Hi Hj Hfail. specialize (H4 cs cs' j g Hc Hi Hj Hfail).
    rewrite query_scan, bind_ret_value. unfold value at 1. simpl.
    now destruct (value (scan _ _ _ _ matchers b)).
Qed.

End Block.

End BlockFacts.

(** ** Facts about the label aggregation merge *)

Module UtilFacts.
Import util labels Order LabelsOrder.

Lemma str_le_trans : Relations_1.Transitive str_le.
Proof.
  intros a b c Hab Hbc. unfold str_le in *.
  destruct (str_lt c a) eqn:Hca; [|reflexivity].
  destruct (String.eqb_spec b c) as [->|Hne]; [congruence|].
  assert (Hbc' : str_lt b c = true) by (apply str_lt_total; auto).
  pose proof (str_lt_trans _ _ _ Hbc' Hca). congruence.
Qed.

Lemma dedup_In x l : In x (dedup l) <-> In x l.
Proof.
  induction l as [|y l IH]; simpl; [tauto|].
  rewrite filter_In, IH. destruct (String.eqb_spec y x) as [->|Hne]; simpl.
  - tauto.
  - split; [tauto|]. intros [H|H]; auto.
Qed.

Lemma dedup_NoDup l : NoDup (dedup l).
Proof.
  induction l as [|y l IH]; simpl; constructor.
  - rewrite filter_In. intros [_ H]. now rewrite String.eqb_refl in H.
  - now apply NoDup_filter.
Qed.

Lemma sort_strings_perm l : Permutation (gosort.Sort str_lt l) l.
Proof. apply SortFacts.Sort_perm. Qed.

Lemma sort_strings_le l : StronglySorted str_le (gosort.Sort str_lt l).
Proof.
  apply Sorted_StronglySorted; [exact str_le_trans|].
  apply SortFacts.Sort_sorted.
  - intros x y H. now apply str_lt_asym.
  - intros x y H. exact H.
Qed.

(** Without duplicates, sorted means strictly ascending. *)
Lemma ascending_of_le l : NoDup l -> StronglySorted str_le l -> ascending l.
Proof.
  induction l as [|x l IH]; intros Hnd Hs; [constructor|].
  inversion Hnd; subst. apply StronglySorted_inv in Hs. destruct Hs as [Hs Hall].
  constructor; [now apply IH|].
  rewrite Forall_forall in Hall |- *. intros y Hy.
  apply str_lt_total; [|now apply Hall]. intros ->. contradiction.
Qed.

Lemma ascending_app_inv l1 l2 :
  ascending (l1 ++ l2) ->
  ascending l1 /\ forall x y, In x l1 -> In y l2 -> str_lt x y = true.
Proof.
  induction l1 as [|a l1 IH]; simpl; intros H.
  - split; [constructor | contradiction].
  - apply StronglySorted_inv in H. destruct H as [H Hall].
    destruct (IH H) as [IH1 IH2]. rewrite Forall_forall in Hall. split.
    + constructor; [assumption|]. apply Forall_forall. intros y Hy.
      apply Hall. apply in_or_app. auto.
    + intros x y [<-|Hx] Hy; [|now apply IH2].
      apply Hall. apply in_or_app. auto.
Qed.

Lemma ascending_NoDup l : ascending l -> NoDup l.
Proof.
  induction l as [|x l IH]; intros H; constructor;
    apply StronglySorted_inv in H; destruct H as [H Hall].
  - intros Hin. rewrite Forall_forall in Hall. specialize (Hall _ Hin).
    now rewrite str_lt_irrefl in Hall.
  - now apply IH.
Qed.

(** The unlimited result: no duplicate, ascending, exactly the strings of
    the lists. *)
Lemma merge_unlimited ss :
  ascending (MergeUnsortedSlices 0 ss) /\
  forall x, In x (MergeUnsortedSlices 0 ss) <-> In x (concat ss).
Proof.
  unfold MergeUnsortedSlices. cbn [Z.ltb Z.compare]. split.
  - apply ascending_of_le; [|apply sort_strings_le].
    apply (Permutation_NoDup (Permutation_sym (sort_strings_perm _))), dedup_NoDup.
  - intros x. rewrite <- (dedup_In x (concat ss)). split; apply Permutation_in;
      [|apply Permutation_sym]; apply sort_strings_perm.
Qed.

(** A positive limit keeps the first [limit] entries of the unlimited
    result. *)
Lemma merge_limited limit ss :
  0 < limit ->
  MergeUnsortedSlices limit ss = firstn (Z.to_nat limit) (MergeUnsortedSlices 0 ss).
Proof.
  intros H. unfold MergeUnsortedSlices. cbn [Z.ltb Z.compare].
  now rewrite (proj2 (Z.ltb_lt 0 limit) H).
Qed.

Lemma merge_nonpositive limit ss :
  limit <= 0 -> MergeUnsortedSlices limit ss = MergeUnsortedSlices 0 ss.
Proof.
  intros H. unfold MergeUnsortedSlices. cbn [Z.ltb Z.compare].
  now rewrite (proj2 (Z.ltb_ge 0 limit) H).
Qed.

(** The first [n] entries of an ascending list: ascending, and below every
    entry left out. *)
Lemma firstn_smallest n l :
  ascending l ->
  ascending (firstn n l) /\
  length (firstn n l) = Nat.min n (length l) /\
  forall x y, In x (firstn n l) -> In y l -> ~ In y (firstn n l) -> str_lt x y = true.
Proof.
  intros H. rewrite <- (firstn_skipn n l) in H at 1.
  destruct (ascending_app_inv _ _ H) as [H1 H2]. repeat split.
  - exact H1.
  - apply length_firstn.
  - intros x y Hx Hy Hny. apply H2; [assumption|].
    rewrite <- (firstn_skipn n l) in Hy. apply in_app_or in Hy. tauto.
Qed.

End UtilFacts.

(** ** Facts about the querier *)

Module QuerierFacts.
Import Eff EffSpec EffFacts search BlockSpec BlockFacts QuerierSpec.
Local Open Scope eff_scope.

Lemma bind_catch {Ev St A B} (c : M Ev St A) (k : result A -> M Ev St B) s :
  bind (catch c) k s =
  (trace (c s) ++ trace (k (value (c s)) (state (c s))),
   state (k (value (c s)) (state (c s))),
   value (k (value (c s)) (state (c s)))).
Proof.
  unfold bind, catch, trace, state, value. destruct (c s) as [[t s1] r]. simpl.
  now destruct (k r s1) as [[t2 s2] r2].
Qed.

Section Querier.
Context {E : Externals}.

Lemma on_block_run {St A} (b : ParquetBlock) (op : M Event ParquetBlock A) (s : St) :
  on_block b op s = (trace (op b), s, value (op b)).
Proof. unfold on_block. now destruct (op b) as [[t s'] r]. Qed.

Lemma block_step_state {St A} (op : M Event ParquetBlock A) (s : St) i b :
  state (block_step op i b s) = s.
Proof. unfold block_step. now rewrite on_block_run. Qed.

(** Every block's operation succeeds, with values [rs]. *)
Lemma blocks_ok_Forall2 {St A} (op : M Event ParquetBlock A) (s : St) bs rs i :
  steps_ok (block_step op) s i bs rs <->
  Forall2 (fun b r => value (op b) = inr r) bs rs.
Proof.
  unfold block_step. rewrite steps_ok_Forall2.
  split; apply Forall2_impl; intros b r H; rewrite on_block_run in *; exact H.
Qed.

Lemma blocks_trace {St A} (op : M Event ParquetBlock A) (s : St) bs i :
  steps_trace (block_step op) s i bs = flat_map (fun b => trace (op b)) bs.
Proof.
  unfold block_step. rewrite steps_trace_flat_map.
  induction bs as [|b bs IH]; simpl; [reflexivity|].
  now rewrite IH, on_block_run.
Qed.

Lemma Select_run sorted sp matchers q minT maxT :
  Select_window sp q = (minT, maxT) ->
  Select sorted sp matchers q =
  (trace (for_range 0 (blocks q) (repeat [] (length (blocks q)))
            (Select_body sorted minT maxT matchers) q),
   state (for_range 0 (blocks q) (repeat [] (length (blocks q)))
            (Select_body sorted minT maxT matchers) q),
   inr (Select_result
          (value (for_range 0 (blocks q) (repeat [] (length (blocks q)))
                    (Select_body sorted minT maxT matchers) q)))).
Proof.
  intros Hw. unfold Select. rewrite bind_get.
  assert (Hlet :
    (let '(minT, maxT) := Select_window sp q in
     r <- catch (for_range 0 (blocks q) (repeat [] (length (blocks q)))
                 (Select_body sorted minT maxT matchers)) ;;
     match r with
     | inl err => ret (storage.ErrSeriesSet err)
     | inr seriesSet =>
         ret (storage.NewSeriesSetFromChunkSeriesSet
                (convert.NewMergeChunkSeriesSet seriesSet labels.Compare
                   storage.NewConcatenatingChunkSeriesMerger))
     end) q =
    (trace (for_range 0 (blocks q) (repeat [] (length (blocks q)))
              (Select_body sorted minT maxT matchers) q),
     state (for_range 0 (blocks q) (repeat [] (length (blocks q)))
              (Select_body sorted minT maxT matchers) q),
     inr (Select_result
            (value (for_range 0 (blocks q) (repeat [] (length (blocks q)))
                      (Select_body sorted minT maxT matchers) q))))).
  { rewrite Hw. rewrite bind_catch.
    destruct (value (for_range 0 (blocks q) _ _ q)); simpl; now rewrite app_nil_r. }
  exact Hlet.
Qed.

Section SelectLoop.
Variables (sorted : bool) (minT maxT : Z) (matchers : list labels.Matcher).
Variable q : parquetQuerier.

Let step : nat -> ParquetBlock -> M Event parquetQuerier storage.ChunkSeriesSet :=
  block_step (query sorted minT maxT matchers).
Let upd (seriesSet : list storage.ChunkSeriesSet) (i : nat) (ss : storage.ChunkSeriesSet) :=
  set_index seriesSet i ss.

Lemma Select_body_step i x acc s :
  Select_body sorted minT maxT matchers i x acc s =
  bind (step i x) (fun y => ret (upd acc i y)) s.
Proof using Type. reflexivity. Qed.

(** Every block answers: the sets reach the merge in block order. *)
Lemma Select_loop_ok rs :
  Forall2 (fun b r => value (query sorted minT maxT matchers b) = inr r) (blocks q) rs ->
  for_range 0 (blocks q) (repeat [] (length (blocks q)))
    (Select_body sorted minT maxT matchers) q =
  (flat_map (fun b => trace (query sorted minT maxT matchers b)) (blocks q), q, inr rs).
Proof using Type.
  intros H.
  assert (Hok : steps_ok step q 0 (blocks q) rs) by now apply blocks_ok_Forall2.
  rewrite (for_range_ok step upd _ Select_body_step q
             (fun i x => block_step_state _ q i x) _ _ _ _ Hok).
  unfold step. rewrite blocks_trace. do 2 f_equal.
  rewrite (Forall2_length H).
  exact (fold_acc_set_index [] rs []).
Qed.

(** A block fails: the loop stops there with its error. *)
Lemma Select_loop_fail pre b post e :
  blocks q = pre ++ b :: post ->
  Forall (fun b' => exists r, value (query sorted minT maxT matchers b') = inr r) pre ->
  value (query sorted minT maxT matchers b) = inl e ->
  for_range 0 (blocks q) (repeat [] (length (blocks q)))
    (Select_body sorted minT maxT matchers) q =
  (flat_map (fun b => trace (query sorted minT maxT matchers b)) (pre ++ [b]), q, inl e).
Proof using Type.
  intros Hb Hpre He. rewrite Hb.
  assert (Hrs : exists rs, steps_ok step q 0 pre rs).
  { apply steps_ok_nth. intros j x Hj. rewrite Forall_forall in Hpre.
    destruct (Hpre x (nth_error_In _ _ Hj)) as (r & Hr). exists r.
    unfold step, block_step. now rewrite on_block_run. }
  destruct Hrs as (rs & Hok).
  rewrite (for_range_fail step upd _ Select_body_step q
             (fun i x => block_step_state _ q i x) pre 0 _ rs b post e Hok).
  - unfold step. now rewrite blocks_trace.
  - unfold step, block_step. now rewrite on_block_run.
Qed.

(** The blocks all answer, or there is a first one that fails. *)
Lemma blocks_ok_or_fail {A} (op : M Event ParquetBlock A) bs :
  (exists rs, Forall2 (fun b r => value (op b) = inr r) bs rs) \/
  (exists pre b post e,
      bs = pre ++ b :: post /\
      Forall (fun b' => exists r, value (op b') = inr r) pre /\
      value (op b) = inl e).
Proof using Type.
  induction bs as [|b bs IH].
  - left. exists []. constructor.
  - destruct (value (op b)) as [e|r] eqn:Hb.
    + right. exists [], b, bs, e. repeat split; auto.
    + destruct IH as [(rs & Hrs)|(pre & b' & post & e & -> & Hpre & He)].
      * left. exists (r :: rs). now constructor.
      * right. exists (b :: pre), b', post, e. repeat split; auto.
        constructor; eauto.
Qed.

End SelectLoop.

(** [query], through the shape it shares with the label operations. *)
Lemma query_value sorted mint maxt matchers b :
  value (query sorted mint maxt matchers b) =
  match value (scan (fun i => EvMaterialize i mint maxt)
                 (fun b i => Materialize (m b) i mint maxt)
                 (fun _ => []) (fun results (_ : nat) series => results ++ series)
                 matchers b) with
  | inl e => inl e
  | inr results =>
      inr (if sorted then gosort.Sort byLabels_Less results else results)
  end.
Proof. now rewrite query_scan, bind_ret_value. Qed.

Lemma query_trace sorted mint maxt matchers b :
  trace (query sorted mint maxt matchers b) =
  trace (scan (fun i => EvMaterialize i mint maxt)
           (fun b i => Materialize (m b) i mint maxt)
           (fun _ => []) (fun results (_ : nat) series => results ++ series)
           matchers b).
Proof. now rewrite query_scan, bind_ret_value. Qed.

(** A sorted per-block query returns its series in label order. *)
Lemma query_true_sorted mint maxt matchers b r :
  value (query true mint maxt matchers b) = inr r ->
  StronglySorted Order.series_le r.
Proof.
  rewrite query_value. destruct (value (scan _ _ _ _ _ b)); [discriminate|].
  intros [= <-]. apply SeriesOrder.byLabels_sorted.
Qed.

(** Sorting is the only difference between the two modes of [query]. *)
Lemma query_sorted_of_unsorted mint maxt matchers b r :
  value (query false mint maxt matchers b) = inr r ->
  value (query true mint maxt matchers b) = inr (gosort.Sort byLabels_Less r).
Proof.
  rewrite !query_value. destruct (value (scan _ _ _ _ _ b)); [discriminate|].
  now intros [= <-].
Qed.

(** [Select] when every block answers. *)
Lemma Select_ok sorted sp matchers q minT maxT rs :
  Select_window sp q = (minT, maxT) ->
  Forall2 (fun b r => value (query sorted minT maxT matchers b) = inr r) (blocks q) rs ->
  Select sorted sp matchers q =
  (flat_map (fun b => trace (query sorted minT maxT matchers b)) (blocks q), q,
   inr (Select_result (inr rs))).
Proof.
  intros Hw H. rewrite (Select_run _ _ _ _ _ _ Hw).
  now rewrite (Select_loop_ok _ _ _ _ _ _ H).
Qed.

(** [Select] when a block fails. *)
Lemma Select_fail sorted sp matchers q minT maxT pre b post e :
  Select_window sp q = (minT, maxT) ->
  blocks q = pre ++ b :: post ->
  Forall (fun b' => exists r, value (query sorted minT maxT matchers b') = inr r) pre ->
  value (query sorted minT maxT matchers b) = inl e ->
  Select sorted sp matchers q =
  (flat_map (fun b => trace (query sorted minT maxT matchers b)) (pre ++ [b]), q,
   inr (storage.ErrSeriesSet e)).
Proof.
  intros Hw Hb Hpre He. rewrite (Select_run _ _ _ _ _ _ Hw).
  now rewrite (Select_loop_fail _ _ _ _ _ _ _ _ _ Hb Hpre He).
Qed.

(** Every call [Select] records comes from the query of one of its
    blocks. *)
Lemma Select_trace_in sorted sp matchers q minT maxT ev :
  Select_window sp q = (minT, maxT) ->
  In ev (trace (Select sorted sp matchers q)) ->
  exists b, In b (blocks q) /\ In ev (trace (query sorted minT maxT matchers b)).
Proof.
  intros Hw.
  destruct (blocks_ok_or_fail (query sorted minT maxT matchers) (blocks q))
    as [(rs & Hrs)|(pre & b & post & e & Hb & Hpre & He)].
  - rewrite (Select_ok _ _ _ _ _ _ _ Hw Hrs). unfold trace at 1. simpl.
    intros H. apply in_flat_map in H. exact H.
  - rewrite (Select_fail _ _ _ _ _ _ _ _ _ _ Hw Hb Hpre He). unfold trace at 1. simpl.
    intros H. apply in_flat_map in H. destruct H as (b' & Hb' & Hev).
    exists b'. split; [|assumption]. rewrite Hb.
    apply in_app_or in Hb'. apply in_or_app. simpl in *. tauto.
Qed.

(** The querier is left as it was. *)
Lemma Select_state sorted sp matchers q :
  state (Select sorted sp matchers q) = q.
Proof.
  destruct (Select_window sp q) as [minT maxT] eqn:Hw.
  rewrite (Select_run _ _ _ _ _ _ Hw). unfold state at 1. simpl.
  destruct (blocks_ok_or_fail (query sorted minT maxT matchers) (blocks q))
    as [(rs & Hrs)|(pre & b & post & e & Hb & Hpre & He)].
  - now rewrite (Select_loop_ok _ _ _ _ _ _ Hrs).
  - now rewrite (Select_loop_fail _ _ _ _ _ _ _ _ _ Hb Hpre He).
Qed.

Lemma LabelNames_label_query hints matchers :
  LabelNames hints matchers = label_query (limit_of hints) (labelNames matchers).
Proof. reflexivity. Qed.

Lemma LabelValues_label_query name hints matchers :
  LabelValues name hints matchers =
  label_query (limit_of hints) (labelValues name matchers).
Proof. reflexivity. Qed.

Section LabelLoop.
Variable limit : Z.
Variable op : M Event ParquetBlock (list (list string)).
Variable q : parquetQuerier.

Lemma collect_body_step i x acc s :
  collect_body op i x acc s =
  bind (block_step op i x) (fun y => ret ((fun acc (_ : nat) y => acc ++ y) acc i y)) s.
Proof using Type. reflexivity. Qed.

Lemma label_query_run :
  label_query limit op q =
  (trace (for_range 0 (blocks q) [] (collect_body op) q),
   state (for_range 0 (blocks q) [] (collect_body op) q),
   match value (for_range 0 (blocks q) [] (collect_body op) q) with
   | inl e => inl e
   | inr rs => inr (util.MergeUnsortedSlices limit rs, [])
   end).
Proof using Type.
  unfold label_query. rewrite bind_get.
  exact (bind_ret_value (for_range 0 (blocks q) [] (collect_body op))
           (fun rs => (util.MergeUnsortedSlices limit rs, [])) q).
Qed.

(** Every block answers: the lists are gathered in block order. *)
Lemma label_query_ok rs :
  Forall2 (fun b r => value (op b) = inr r) (blocks q) rs ->
  label_query limit op q =
  (flat_map (fun b => trace (op b)) (blocks q), q,
   inr (util.MergeUnsortedSlices limit (concat rs), [])).
Proof using Type.
  intros H. rewrite label_query_run.
  assert (Hok : steps_ok (block_step op) q 0 (blocks q) rs) by now apply blocks_ok_Forall2.
  rewrite (for_range_ok (block_step op) _ _ collect_body_step q
             (fun i x => block_step_state _ q i x) _ _ _ _ Hok).
  unfold trace at 1, state at 1, value at 1. simpl.
  now rewrite blocks_trace, fold_acc_app.
Qed.

(** A block fails: the call stops there with its error. *)
Lemma label_query_fail pre b post e :
  blocks q = pre ++ b :: post ->
  Forall (fun b' => exists r, value (op b') = inr r) pre ->
  value (op b) = inl e ->
  label_query limit op q =
  (flat_map (fun b => trace (op b)) (pre ++ [b]), q, inl e).
Proof using Type.
  intros Hb Hpre He. rewrite label_query_run, Hb.
  assert (Hrs : exists rs, steps_ok (block_step op) q 0 pre rs).
  { apply steps_ok_nth. intros j x Hj. rewrite Forall_forall in Hpre.
    destruct (Hpre x (nth_error_In _ _ Hj)) as (r & Hr). exists r.
    unfold block_step. now rewrite on_block_run. }
  destruct Hrs as (rs & Hok).
  rewrite (for_range_fail (block_step op) _ _ collect_body_step q
             (fun i x => block_step_state _ q i x) pre 0 _ rs b post e Hok).
  - unfold trace at 1, state at 1, value at 1. simpl. now rewrite blocks_trace.
  - unfold block_step. now rewrite on_block_run.
Qed.

Lemma label_query_state : state (label_query limit op q) = q.
Proof using Type.
  destruct (blocks_ok_or_fail op (blocks q))
    as [(rs & Hrs)|(pre & b & post & e & Hb & Hpre & He)].
  - now rewrite (label_query_ok _ Hrs).
  - now rewrite (label_query_fail _ _ _ _ Hb Hpre He).
Qed.

End LabelLoop.

(** A block among the blocks fails: they do not all answer. *)
Lemma blocks_fail_first {A} (op : M Event ParquetBlock A) bs b :
  In b bs -> is_err (value (op b)) = true ->
  exists pre b' post e,
    bs = pre ++ b' :: post /\
    Forall (fun b' => exists r, value (op b') = inr r) pre /\
    value (op b') = inl e.
Proof.
  intros Hin Hb.
  destruct (blocks_ok_or_fail op bs) as [(rs & Hrs)|H]; [|exact H].
  exfalso. induction Hrs as [|x r bs rs Hx _ IH]; [contradiction|].
  destruct Hin as [->|Hin]; [|now apply IH].
  rewrite Hx in Hb. discriminate.
Qed.

Lemma Select_fail_fast sorted sp matchers :
  querier_fail_fast
    (fun q => query sorted (fst (Select_window sp q)) (snd (Select_window sp q)) matchers)
    (Select sorted sp matchers) (fun e => inr (storage.ErrSeriesSet e)).
Proof.
  assert (Hfirst : forall q pre b post e,
    blocks q = pre ++ b :: post ->
    Forall (fun b' => exists r,
              value (query sorted (fst (Select_window sp q)) (snd (Select_window sp q))
                       matchers b') = inr r) pre ->
    value (query sorted (fst (Select_window sp q)) (snd (Select_window sp q))
             matchers b) = inl e ->
    Select sorted sp matchers q =
    (flat_map (fun b' => trace (query sorted (fst (Select_window sp q))
                                  (snd (Select_window sp q)) matchers b'))
       (pre ++ [b]), q, inr (storage.ErrSeriesSet e))).
  { intros q pre b post e Hb Hpre He.
    apply Select_fail with post; auto. now destruct (Select_window sp q). }
  split; [exact Hfirst|].
  intros q b Hin Hb.
  destruct (blocks_fail_first _ _ _ Hin Hb) as (pre & b' & post & e & Hbs & Hpre & He).
  exists e. now rewrite (Hfirst q pre b' post e Hbs Hpre He).
Qed.

Lemma label_query_fail_fast limit (op : M Event ParquetBlock (list (list string))) :
  querier_fail_fast (fun _ => op) (label_query limit op) inl.
Proof.
  split.
  - intros q pre b post e Hb Hpre He. now apply label_query_fail with post.
  - intros q b Hin Hb.
    destruct (blocks_fail_first _ _ _ Hin Hb) as (pre & b' & post & e & Hbs & Hpre & He).
    exists e. now rewrite (label_query_fail _ _ _ _ _ _ _ Hbs Hpre He).
Qed.

End Querier.

End QuerierFacts.

(** ** Further facts: slices, row groups, origins of errors *)

Module ExtraFacts.
Import Eff EffSpec EffFacts search Order MergeSpec BlockSpec QuerierSpec ExtraSpec.
Import BlockFacts QuerierFacts.
Local Open Scope eff_scope.

Lemma set_index_length {A} (s : list A) : forall i x,
    length (set_index s i x) = length s.
Proof.
  induction s as [|y s IH]; intros [|i] x; simpl; auto.
Qed.

Lemma set_index_nth_eq {A} (s : list A) : forall i x,
    (i < length s)%nat -> nth_error (set_index s i x) i = Some x.
Proof.
  induction s as [|y s IH]; intros [|i] x H; simpl in *; try lia; auto.
  apply IH. lia.
Qed.

Lemma set_index_nth_ne {A} (s : list A) : forall i k x,
    k <> i -> nth_error (set_index s i x) k = nth_error s k.
Proof.
  induction s as [|y s IH]; intros [|i] [|k] x H; simpl; auto; try congruence.
Qed.

Lemma set_index_same {A} (s : list A) : forall i x,
    nth_error s i = Some x -> set_index s i x = s.
Proof.
  induction s as [|y s IH]; intros [|i] x H; simpl in *; try discriminate.
  - now injection H as ->.
  - f_equal. now apply IH.
Qed.

(** Writing [a] over an element [y] of a slice: pulling [y] in front gives
    the slice with [a] in front. *)
Lemma set_index_exchange {A} (l : list A) : forall k y a,
    nth_error l k = Some y -> Permutation (y :: set_index l k a) (a :: l).
Proof.
  induction l as [|z l IH]; intros [|k] y a H; simpl in *; try discriminate.
  - injection H as ->. apply perm_swap.
  - rewrite (perm_swap z y). rewrite (IH _ _ _ H). apply perm_swap.
Qed.

Lemma swap_perm {A} (b : list A) : forall i j x y,
    nth_error b i = Some x -> nth_error b j = Some y ->
    Permutation (set_index (set_index b i y) j x) b.
Proof.
  induction b as [|a b IH]; intros [|i] [|j] x y Hi Hj; simpl in *;
    try discriminate.
  - injection Hi as ->. injection Hj as ->. reflexivity.
  - injection Hi as ->. now apply set_index_exchange.
  - injection Hj as ->. now apply set_index_exchange.
  - apply perm_skip. now apply IH.
Qed.

(** Success of the steps, position by position. *)
Lemma steps_ok_nth_iff {Ev St X Y} (step : nat -> X -> M Ev St Y) (s : St) xs :
  forall i ys,
    steps_ok step s i xs ys <->
    length ys = length xs /\
    forall j x, nth_error xs j = Some x ->
      exists y, value (step (i + j)%nat x s) = inr y /\ nth_error ys j = Some y.
Proof.
  induction xs as [|x xs IH]; intros i [|y ys]; simpl.
  - split; [intros _|intros _; exact I]. split; [reflexivity|].
    intros [|j] x H; discriminate.
  - split; [contradiction | intros [H _]; discriminate].
  - split; [contradiction | intros [H _]; discriminate].
  - rewrite (IH (S i) ys). split.
    + intros (Hy & Hlen & Hn). split; [now f_equal|].
      intros [|j] x' Hj; simpl in Hj.
      * injection Hj as <-. exists y. rewrite Nat.add_0_r. auto.
      * rewrite <- Nat.add_succ_comm. now apply Hn.
    + intros (Hlen & Hn). split; [|split].
      * destruct (Hn 0%nat x eq_refl) as (y0 & Hy0 & Hy1).
        simpl in Hy1. injection Hy1 as ->. now rewrite Nat.add_0_r in Hy0.
      * now injection Hlen.
      * intros j x' Hj. rewrite Nat.add_succ_comm. now apply (Hn (S j)).
Qed.

Section Scan.
Context {E : Externals} {Y R : Type}.
Variable ev : nat -> Event.
Variable mat : ParquetBlock -> nat -> RowRanges -> result Y.
Variable init : ParquetBlock -> R.
Variable f : R -> nat -> Y -> R.
Variable matchers : list labels.Matcher.
Variable b : ParquetBlock.

Lemma group_step_value cs i g y :
  value (group_step ev (mat b) cs i g b) = inr y <->
  exists rr, Filter g cs = inr rr /\ mat b i rr = inr y.
Proof using Type.
  rewrite group_step_run. destruct (Filter g cs) as [e|rr]; simpl.
  - split; [discriminate | intros (rr & H & _); discriminate].
  - split; [eauto | intros (rr' & [= <-] & H); exact H].
Qed.

Lemma group_step_error cs i g e :
  value (group_step ev (mat b) cs i g b) = inl e ->
  Filter g cs = inl e \/ exists rr, Filter g cs = inr rr /\ mat b i rr = inl e.
Proof using Type.
  rewrite group_step_run. destruct (Filter g cs) as [e'|rr]; simpl.
  - intros [= ->]. auto.
  - intros H. right. eauto.
Qed.

(** The operation when every stage succeeds. *)
Lemma scan_ok cs cs' ys :
  MatchersToConstraint matchers = inr cs ->
  Initialize (file_Schema (lf b)) cs = inr cs' ->
  steps_ok (group_step ev (mat b) cs') b 0 (file_RowGroups (lf b)) ys ->
  scan ev mat init f matchers b =
  (EvInitialize (file_Schema (lf b)) :: groups_events ev 0 (file_RowGroups (lf b)),
   b, inr (fold_acc f 0 (init b) ys)).
Proof using Type.
  intros H1 H2 Hok. rewrite scan_run, H1, H2. cbv zeta.
  rewrite (for_range_ok (group_step ev (mat b) cs') f (scan_loop ev (mat b) f cs')
             (scan_body ev mat f b cs') b
             (fun i x => group_step_state ev mat b cs' i x b) _ _ _ _ Hok).
  unfold trace at 1, state at 1, value at 1. simpl.
  now rewrite (steps_trace_ok ev mat b cs' _ _ _ Hok).
Qed.

(** The operation succeeds exactly when every row group yields. *)
Lemma scan_success_iff r :
  value (scan ev mat init f matchers b) = inr r <->
  exists ys, row_groups_yield mat matchers b ys /\ r = fold_acc f 0 (init b) ys.
Proof using Type.
  split.
  - intros H. apply scan_inv in H. destruct H as (cs & cs' & ys & H1 & H2 & Hok & ->).
    exists ys. split; [|reflexivity]. exists cs, cs'. split; [assumption|].
    split; [assumption|]. apply steps_ok_nth_iff in Hok. destruct Hok as [Hlen Hn].
    split; [assumption|]. intros i g Hg. destruct (Hn i g Hg) as (y & Hy & Hy').
    simpl in Hy. apply group_step_value in Hy. destruct Hy as (rr & Hf & Hm). eauto.
  - intros (ys & (cs & cs' & H1 & H2 & Hlen & Hn) & ->).
    rewrite (scan_ok cs cs' ys H1 H2); [reflexivity|].
    apply steps_ok_nth_iff. split; [assumption|]. intros j g Hg.
    destruct (Hn j g Hg) as (rr & out & Hf & Hm & Ho). exists out. split; [|assumption].
    simpl. apply group_step_value. eauto.
Qed.

(** A successful run binds once and then filters and materializes every
    row group once, in order. *)
Lemma scan_success_trace r :
  value (scan ev mat init f matchers b) = inr r ->
  trace (scan ev mat init f matchers b) =
  EvInitialize (file_Schema (lf b)) :: groups_events ev 0 (file_RowGroups (lf b)).
Proof using Type.
  intros H. apply scan_inv in H. destruct H as (cs & cs' & ys & H1 & H2 & Hok & _).
  now rewrite (scan_ok cs cs' ys H1 H2 Hok).
Qed.

(** An error of the operation is the error of one of its calls. *)
Lemma scan_error_origin e :
  value (scan ev mat init f matchers b) = inl e -> error_origin mat matchers b e.
Proof using Type.
  rewrite scan_run. unfold error_origin.
  destruct (MatchersToConstraint matchers) as [e0|cs]; [intros [= ->]; auto|].
  intros H. right. exists cs. split; [reflexivity|].
  destruct (Initialize (file_Schema (lf b)) cs) as [e0|cs'] eqn:Hi;
    [injection H as ->; auto|].
  right. cbv zeta in H. unfold value at 1 in H. simpl in H.
  destruct (steps_ok_or_fail (group_step ev (mat b) cs') b (file_RowGroups (lf b)) 0)
    as [(ys & Hok)|(pre & g & post & ys & e' & Hg & Hok & He)].
  - rewrite (for_range_ok (group_step ev (mat b) cs') f (scan_loop ev (mat b) f cs')
               (scan_body ev mat f b cs') b
               (fun i x => group_step_state ev mat b cs' i x b) _ _ _ _ Hok) in H.
    discriminate.
  - rewrite Hg in H.
    rewrite (for_range_fail (group_step ev (mat b) cs') f (scan_loop ev (mat b) f cs')
               (scan_body ev mat f b cs') b
               (fun i x => group_step_state ev mat b cs' i x b)
               pre 0 (init b) ys g post e' Hok He) in H.
    injection H as <-. exists cs', (length pre), g. split; [reflexivity|].
    split; [rewrite Hg; now rewrite nth_error_app2, Nat.sub_diag by lia|].
    simpl in He. now apply group_step_error in He.
Qed.

End Scan.

Section Querier.
Context {E : Externals}.

Lemma Forall2_In_l {A B} (P : A -> B -> Prop) l l' x :
  Forall2 P l l' -> In x l -> exists y, P x y.
Proof.
  induction 1 as [|a c l l' Hac _ IH]; [contradiction|].
  intros [<-|Hin]; eauto.
Qed.

(** The flag of [query] changes neither whether it fails nor how. *)
Lemma query_flag_error s1 s2 mint maxt matchers b e :
  value (query s1 mint maxt matchers b) = inl e ->
  value (query s2 mint maxt matchers b) = inl e.
Proof.
  rewrite !query_value. now destruct (value (scan _ _ _ _ matchers b)).
Qed.

Lemma query_flag_ok s1 s2 mint maxt matchers b r :
  value (query s1 mint maxt matchers b) = inr r ->
  exists r', value (query s2 mint maxt matchers b) = inr r'.
Proof.
  rewrite !query_value. destruct (value (scan _ _ _ _ matchers b)); [discriminate|].
  eauto.
Qed.

(** What [query] holds before it sorts: the row groups' series, row
    group after row group. *)
Lemma query_rows sorted mint maxt matchers b r :
  value (query sorted mint maxt matchers b) = inr r ->
  exists outs,
    row_groups_yield (fun b i => Materialize (m b) i mint maxt) matchers b outs /\
    r = if sorted then gosort.Sort byLabels_Less (concat outs) else concat outs.
Proof.
  rewrite query_value.
  destruct (value (scan _ _ _ _ matchers b)) as [e|results] eqn:Hs; [discriminate|].
  intros [= <-]. apply scan_success_iff in Hs.
  destruct Hs as (ys & Hy & ->). exists ys. split; [assumption|].
  now rewrite fold_acc_app.
Qed.

Lemma rows_query sorted mint maxt matchers b outs :
  row_groups_yield (fun b i => Materialize (m b) i mint maxt) matchers b outs ->
  value (query sorted mint maxt matchers b) =
  inr (if sorted then gosort.Sort byLabels_Less (concat outs) else concat outs).
Proof.
  intros Hy. rewrite query_value.
  assert (Hs : value (scan (fun i => EvMaterialize i mint maxt)
                    (fun b i => Materialize (m b) i mint maxt)
                    (fun _ => []) (fun results (_ : nat) series => results ++ series)
                    matchers b) = inr (concat outs)).
  { apply scan_success_iff. exists outs. split; [assumption|].
    now rewrite fold_acc_app. }
  now rewrite Hs.
Qed.

Lemma query_flag_trace s1 s2 mint maxt matchers b :
  trace (query s1 mint maxt matchers b) = trace (query s2 mint maxt matchers b).
Proof. now rewrite !query_trace. Qed.

Lemma blocks_ok_flag s1 s2 mint maxt matchers bs :
  (exists rs, Forall2 (fun b r => value (query s1 mint maxt matchers b) = inr r) bs rs) ->
  exists rs, Forall2 (fun b r => value (query s2 mint maxt matchers b) = inr r) bs rs.
Proof.
  intros (rs & H). induction H as [|b r bs rs Hb _ (rs' & IH)].
  - exists []. constructor.
  - destruct (query_flag_ok s1 s2 _ _ _ _ _ Hb) as (r' & Hr').
    exists (r' :: rs'). now constructor.
Qed.

(** Every call a label query records comes from the operation on one of
    its blocks. *)
Lemma label_query_trace_in limit (op : M Event ParquetBlock (list (list string))) q ev :
  In ev (trace (label_query limit op q)) ->
  exists b, In b (blocks q) /\ In ev (trace (op b)).
Proof.
  destruct (blocks_ok_or_fail op (blocks q))
    as [(rs & Hrs)|(pre & b & post & e & Hb & Hpre & He)].
  - rewrite (label_query_ok _ _ _ _ Hrs). unfold trace at 1. simpl.
    intros H. apply in_flat_map in H. exact H.
  - rewrite (label_query_fail _ _ _ _ _ _ _ Hb Hpre He). unfold trace at 1. simpl.
    intros H. apply in_flat_map in H. destruct H as (b' & Hb' & Hev).
    exists b'. split; [|assumption]. rewrite Hb.
    apply in_app_or in Hb'. apply in_or_app. simpl in *. tauto.
Qed.

(** A label query reads its blocks only: the querier's time range and the
    limit change neither the calls nor the error. *)
Lemma label_query_blocks_only limit limit'
  (op : M Event ParquetBlock (list (list string))) q q' :
  blocks q = blocks q' ->
  trace (label_query limit op q) = trace (label_query limit' op q') /\
  (forall e, value (label_query limit op q) = inl e <->
             value (label_query limit' op q') = inl e) /\
  (limit = limit' -> value (label_query limit op q) = value (label_query limit' op q')).
Proof.
  intros Hq.
  destruct (blocks_ok_or_fail op (blocks q))
    as [(rs & Hrs)|(pre & b & post & e & Hb & Hpre & He)].
  - rewrite (label_query_ok limit op q rs Hrs).
    rewrite Hq in Hrs. rewrite (label_query_ok limit' op q' rs Hrs), Hq.
    split; [reflexivity|]. split; [split; discriminate|]. now intros ->.
  - rewrite (label_query_fail limit op q pre b post e Hb Hpre He).
    rewrite Hq in Hb. rewrite (label_query_fail limit' op q' pre b post e Hb Hpre He).
    split; [reflexivity|]. split; [reflexivity|]. reflexivity.
Qed.

(** A failing label query failed on the first block that fails. *)
Lemma label_query_error limit (op : M Event ParquetBlock (list (list string))) q e :
  value (label_query limit op q) = inl e ->
  exists pre b post,
    blocks q = pre ++ b :: post /\
    Forall (fun b' => exists r, value (op b') = inr r) pre /\
    value (op b) = inl e.
Proof.
  destruct (blocks_ok_or_fail op (blocks q))
    as [(rs & Hrs)|(pre & b & post & e' & Hb & Hpre & He)].
  - rewrite (label_query_ok _ _ _ _ Hrs). discriminate.
  - rewrite (label_query_fail _ _ _ _ _ _ _ Hb Hpre He). intros [= <-]. eauto 6.
Qed.

End Querier.

End ExtraFacts.

(** ** The properties of the query facade *)

Module Claims.
Import Eff EffFacts search Order MergeSpec BlockSpec QuerierSpec ClaimSpec ExtraSpec.
Import BlockFacts QuerierFacts MergeFacts UtilFacts ExtraFacts.
Local Open Scope eff_scope.

Section Properties.
Context {E : Externals}.

(** C9. Building a queryable from blocks, and a querier from a queryable
    and a time range, always succeeds: both return their value and a nil
    error, the value holding exactly what it was given. *)
Theorem constructors_never_fail (bs : list ParquetBlock) (p : parquetQueryable)
  (mint maxt : Z) :
  NewParquetQueryable bs = inr {| qblocks := bs |} /\
  Querier p mint maxt = inr {| mint := mint; maxt := maxt; blocks := qblocks p |}.
Proof. split; reflexivity. Qed.

(** C7. [NewParquetBlock] returns an error, and no block, exactly when the
    schema cannot be derived from the labels file or the materializer
    cannot be built from that schema; otherwise it returns the block that
    holds the two files given and the materializer built from the derived
    schema. *)
Theorem NewParquetBlock_result (lf cf : File) (d : ChunksDecoder) :
  (forall err,
      NewParquetBlock lf cf d = inl err <->
      FromLabelsFile lf = inl err \/
      exists s, FromLabelsFile lf = inr s /\ NewMaterializer s d lf cf = inl err) /\
  (forall b,
      NewParquetBlock lf cf d = inr b <->
      exists s mat,
        FromLabelsFile lf = inr s /\ NewMaterializer s d lf cf = inr mat /\
        b = {| lf := lf; cf := cf; m := mat |}).
Proof.
  unfold NewParquetBlock. split.
  - intros err. destruct (FromLabelsFile lf) as [e|s].
    + split; [intros [= ->]; auto|].
      intros [[= ->]|(s & Hs & _)]; [reflexivity | discriminate].
    + destruct (NewMaterializer s d lf cf) as [e|mat] eqn:Hm.
      * split; [intros [= ->]; right; eauto|].
        intros [H|(s' & [= <-] & Hm')]; [discriminate | congruence].
      * split; [discriminate|].
        intros [H|(s' & [= <-] & Hm')]; [discriminate | congruence].
  - intros b. destruct (FromLabelsFile lf) as [e|s].
    + split; [discriminate|]. intros (s & mat & Hs & _). discriminate.
    + destruct (NewMaterializer s d lf cf) as [e|mat] eqn:Hm.
      * split; [discriminate|]. intros (s' & mat & [= <-] & Hm' & _). congruence.
      * split.
        -- intros [= <-]. eauto.
        -- intros (s' & mat' & [= <-] & Hm' & ->). congruence.
Qed.

(** C6. When a matcher cannot be translated into a constraint, each of the
    per-block operations returns the translation error with an empty trace:
    the schema is not bound to, no row group is filtered and nothing is
    materialized. *)
Theorem translation_error_before_io (matchers : list labels.Matcher) (e : error)
  (b : ParquetBlock) (sorted : bool) (mint maxt : Z) (name : string) :
  MatchersToConstraint matchers = inl e ->
  query sorted mint maxt matchers b = ([], b, inl e) /\
  labelNames matchers b = ([], b, inl e) /\
  labelValues name matchers b = ([], b, inl e).
Proof.
  intros H. repeat split.
  - rewrite query_scan.
    now rewrite (bind_err _ _ _ _ _ _ (scan_fail_constraints _ _ _ _ _ _ _ H)).
  - rewrite labelNames_scan. now apply scan_fail_constraints.
  - rewrite labelValues_scan. now apply scan_fail_constraints.
Qed.

(** C10. With select hints, every materializer call of [Select] is made
    with the hints' [Start] and [End], and [Select] records and returns what
    it would for a querier whose own range is the hints'; without hints
    every materializer call is made with the querier's [mint] and [maxt].
    [LabelNames] and [LabelValues] without hints behave as with a limit of
    zero. *)
Theorem hints_select_the_window (sorted : bool) (h : storage.SelectHints)
  (name : string) (matchers : list labels.Matcher) (q : parquetQuerier) :
  (forall i a z,
      In (EvMaterialize i a z) (trace (Select sorted (Some h) matchers q)) ->
      a = storage.Start h /\ z = storage.End_ h) /\
  (trace (Select sorted (Some h) matchers q) =
   trace (Select sorted None matchers
            {| mint := storage.Start h; maxt := storage.End_ h; blocks := blocks q |}) /\
   value (Select sorted (Some h) matchers q) =
   value (Select sorted None matchers
            {| mint := storage.Start h; maxt := storage.End_ h; blocks := blocks q |})) /\
  (forall i a z,
      In (EvMaterialize i a z) (trace (Select sorted None matchers q)) ->
      a = mint q /\ z = maxt q) /\
  LabelNames None matchers q = LabelNames (Some {| storage.Limit := 0 |}) matchers q /\
  LabelValues name None matchers q =
  LabelValues name (Some {| storage.Limit := 0 |}) matchers q.
Proof.
  assert (Hev : forall sp minT maxT i a z,
             Select_window sp q = (minT, maxT) ->
             In (EvMaterialize i a z) (trace (Select sorted sp matchers q)) ->
             a = minT /\ z = maxT).
  { intros sp minT maxT i a z Hw H.
    destruct (Select_trace_in _ _ _ _ _ _ _ Hw H) as (b & _ & Hb).
    rewrite query_trace in Hb. apply scan_trace_in in Hb.
    destruct Hb as [Hb|[(g & Hb)|(j & Hb)]]; try discriminate.
    inversion Hb; subst. auto. }
  split; [intros i a z H; apply (Hev (Some h) _ _ i a z eq_refl H)|].
  split.
  { set (q' := {| mint := storage.Start h; maxt := storage.End_ h; blocks := blocks q |}).
    destruct (blocks_ok_or_fail (query sorted (storage.Start h) (storage.End_ h) matchers)
                (blocks q))
      as [(rs & Hrs)|(pre & b & post & e & Hb & Hpre & He)].
    - rewrite (Select_ok sorted (Some h) matchers q _ _ rs eq_refl Hrs).
      rewrite (Select_ok sorted None matchers q' _ _ rs eq_refl Hrs).
      split; reflexivity.
    - rewrite (Select_fail sorted (Some h) matchers q _ _ _ _ _ _ eq_refl Hb Hpre He).
      rewrite (Select_fail sorted None matchers q' _ _ _ _ _ _ eq_refl Hb Hpre He).
      split; reflexivity. }
  split; [intros i a z H; apply (Hev None _ _ i a z eq_refl H)|].
  split; reflexivity.
Qed.

(** C5. Fail-fast at every level. In each per-block operation a failing
    constraint translation, schema binding, row-group filter or materializer
    call ends the operation with that error, the trace showing that nothing
    ran after the failing call (no later row group is filtered or
    materialized); a row group that fails, wherever it is, makes the
    operation return an error. In [Select], [LabelNames] and [LabelValues]
    the first block whose operation fails ends the call: no later block is
    touched, [Select] returns the error series set, which yields no series,
    and the label calls return the error and no list; a block that fails,
    wherever it is, makes the call return an error. *)
Theorem first_error_aborts (sorted : bool) (mint maxt : Z) (name : string)
  (sp : option storage.SelectHints) (hints : option storage.LabelHints)
  (matchers : list labels.Matcher) :
  block_fail_fast (query sorted mint maxt) (fun i => EvMaterialize i mint maxt)
    (fun b i => Materialize (m b) i mint maxt) /\
  block_fail_fast labelNames EvMaterializeLabelNames
    (fun b => MaterializeLabelNames (m b)) /\
  block_fail_fast (labelValues name) (EvMaterializeLabelValues name)
    (fun b => MaterializeLabelValues (m b) name) /\
  querier_fail_fast
    (fun q => query sorted (fst (Select_window sp q)) (snd (Select_window sp q)) matchers)
    (Select sorted sp matchers) (fun e => inr (storage.ErrSeriesSet e)) /\
  querier_fail_fast (fun _ => labelNames matchers) (LabelNames hints matchers) inl /\
  querier_fail_fast (fun _ => labelValues name matchers)
    (LabelValues name hints matchers) inl.
Proof.
  split; [apply query_fail_fast|].
  split; [exact (scan_fail_fast _ _ _ _)|].
  split; [exact (scan_fail_fast _ _ _ _)|].
  split; [apply Select_fail_fast|].
  split.
  - exact (label_query_fail_fast (limit_of hints) (labelNames matchers)).
  - exact (label_query_fail_fast (limit_of hints) (labelValues name matchers)).
Qed.

(** C1. A sorted [Select] always returns a series set, and the label sets
    of the series it yields are non-decreasing under [labels.Compare] over
    the whole result, whatever the blocks, the window and the matchers. *)
Theorem sorted_select_is_ordered (sp : option storage.SelectHints)
  (matchers : list labels.Matcher) (q : parquetQuerier) :
  exists ss,
    value (Select true sp matchers q) = inr ss /\
    StronglySorted (fun a b => labels.Compare a b <= 0)
      (map storage.sLabels (storage.series ss)).
Proof.
  destruct (Select_window sp q) as [minT maxT] eqn:Hw.
  destruct (blocks_ok_or_fail (query true minT maxT matchers) (blocks q))
    as [(rs & Hrs)|(pre & b & post & e & Hb & Hpre & He)].
  - rewrite (Select_ok _ _ _ _ _ _ _ Hw Hrs). eexists. split; [reflexivity|].
    cbn [Select_result storage.NewSeriesSetFromChunkSeriesSet storage.series].
    rewrite labels_decoded. apply sorted_labels, merge_sorted.
    clear Hw. induction Hrs as [|b r bs rs Hr _ IH]; constructor; auto.
    now apply query_true_sorted in Hr.
  - rewrite (Select_fail _ _ _ _ _ _ _ _ _ _ Hw Hb Hpre He).
    eexists. split; [reflexivity|]. constructor.
Qed.

(** C2, amended. With [sorted = false] each block's series are left in
    row-group order, and the per-block sets go through the same cross-block
    merge as with [sorted = true]: the result is not their concatenation.
    When every block answers, the result carries no error and holds what
    the blocks' series hold, label set by label set; it never has more
    series than the blocks together, and it has fewer as soon as two blocks
    start with the smallest label set any block starts with, for these
    series are merged into one. When every block's series happen to be in
    strict label order, the result is that of [sorted = true], and every
    label set comes once in it. *)
Theorem unsorted_select_still_merges (sp : option storage.SelectHints)
  (matchers : list labels.Matcher) (q : parquetQuerier) (minT maxT : Z)
  (rs : list storage.ChunkSeriesSet) :
  Select_window sp q = (minT, maxT) ->
  Forall2 (fun b r => value (query false minT maxT matchers b) = inr r) (blocks q) rs ->
  Forall2 (fun b r =>
             exists outs,
               row_groups_yield (fun b i => Materialize (m b) i minT maxT) matchers b outs /\
               r = concat outs) (blocks q) rs /\
  exists ss,
    value (Select false sp matchers q) = inr ss /\
    ss = storage.NewSeriesSetFromChunkSeriesSet
           (convert.NewMergeChunkSeriesSet rs labels.Compare
              storage.NewConcatenatingChunkSeriesMerger) /\
    storage.Err ss = None /\
    holds_content (concat rs) (storage.series ss) /\
    (length (storage.series ss) <= length (concat rs))%nat /\
    (forall L,
        Forall (fun x => labels.Compare L (storage.Labels x) <= 0) (heads rs) ->
        (2 <= length (select L (heads rs)))%nat ->
        (length (storage.series ss) < length (concat rs))%nat) /\
    (Forall (StronglySorted series_lt) rs ->
     value (Select true sp matchers q) = inr ss /\
     StronglySorted (fun a b => labels.Compare a b < 0)
       (map storage.sLabels (storage.series ss))).
Proof.
  intros Hw Hrs. split.
  { clear Hw. induction Hrs as [|b r bs rs' Hr _ IH]; constructor; [|exact IH].
    destruct (query_rows _ _ _ _ _ _ Hr) as (outs & Hy & ->). eauto. }
  rewrite (Select_ok _ _ _ _ _ _ _ Hw Hrs). eexists. split; [reflexivity|].
  split; [reflexivity|].
  cbn [Select_result storage.NewSeriesSetFromChunkSeriesSet storage.series storage.Err].
  unfold convert.NewMergeChunkSeriesSet. rewrite length_map, <- total_len_concat.
  split; [reflexivity|].
  split; [apply merge_content, le_n|].
  split; [apply merge_length|].
  split; [intros L; apply merge_front|].
  intros Hstrict.
  assert (Hrs' : Forall2 (fun b r => value (query true minT maxT matchers b) = inr r)
                   (blocks q) rs).
  { clear Hw. induction Hrs as [|b r bs rs' Hr _ IH]; constructor.
    - rewrite (query_sorted_of_unsorted _ _ _ _ _ Hr). f_equal.
      apply Sort_strict. now inversion Hstrict.
    - apply IH. now inversion Hstrict. }
  rewrite (Select_ok _ _ _ _ _ _ _ Hw Hrs'). split; [reflexivity|].
  rewrite labels_decoded. apply strict_labels, merge_strict; [apply le_n | assumption].
Qed.

(** C3. For two blocks that each hold one series of label set [L], not both
    without chunks, a sorted [Select] over both returns no error and exactly
    one series for [L], which is not nil. With chunks whose samples have
    increasing timestamps, its samples are those of the two series' chunks
    in strict time order, whichever block is listed first:
    none comes twice, also where chunks overlap or both blocks hold the same
    chunk; each is a sample of one of the two series; every timestamp of
    the two series is among them, and a sample that shares its timestamp
    with no other is among them itself: nothing is lost. *)
Theorem merged_series_is_time_ordered_union (sp : option storage.SelectHints)
  (matchers : list labels.Matcher) (q : parquetQuerier) (minT maxT : Z)
  (b1 b2 : ParquetBlock) (r1 r2 : storage.ChunkSeriesSet) (L : labels.Labels)
  (s1 s2 : storage.ChunkSeries) :
  Select_window sp q = (minT, maxT) ->
  blocks q = [b1; b2] ->
  value (query true minT maxT matchers b1) = inr r1 ->
  value (query true minT maxT matchers b2) = inr r2 ->
  select L r1 = [s1] -> select L r2 = [s2] ->
  storage.Chunks s1 ++ storage.Chunks s2 <> [] ->
  Forall chunk_in_order (storage.Chunks s1 ++ storage.Chunks s2) ->
  exists ss s,
    value (Select true sp matchers q) = inr ss /\
    storage.Err ss = None /\
    select_series L (storage.series ss) = [s] /\
    storage.IsNil s = false /\
    strictly_timed (storage.Iterator s) /\
    (forall p, In p (storage.Iterator s) -> In p (held s1 ++ held s2)) /\
    (forall p, In p (held s1 ++ held s2) -> chunks.T p <> storage.MinInt64 ->
               In (chunks.T p) (map chunks.T (storage.Iterator s)) /\
               ((forall p', In p' (held s1 ++ held s2) -> chunks.T p' = chunks.T p ->
                            p' = p) ->
                In p (storage.Iterator s))).
Proof.
  intros Hw Hb H1 H2 Hs1 Hs2 Hne Hord.
  assert (Hrs : Forall2 (fun b r => value (query true minT maxT matchers b) = inr r)
                  (blocks q) [r1; r2]).
  { rewrite Hb. repeat constructor; assumption. }
  rewrite (Select_ok _ _ _ _ _ _ _ Hw Hrs).
  set (s := {| storage.sLabels := L;
               storage.sChunks := storage.Chunks s1 ++ storage.Chunks s2 |}).
  assert (Hheld : concat (map chunks.Chunk (storage.sChunks s)) = held s1 ++ held s2).
  { unfold held. cbn [s storage.sChunks]. now rewrite map_app, concat_app. }
  eexists. exists s. split; [reflexivity|]. split; [reflexivity|]. split.
  { cbn [Select_result storage.NewSeriesSetFromChunkSeriesSet storage.series].
    rewrite select_decoded. unfold convert.NewMergeChunkSeriesSet.
    rewrite (merge_select L).
    - cbn [flat_map]. rewrite Hs1, Hs2. cbn [app map concat].
      now rewrite app_nil_r.
    - apply le_n.
    - constructor; [now apply query_true_sorted in H1|].
      constructor; [now apply query_true_sorted in H2 | constructor].
    - constructor; [rewrite Hs1; simpl; lia|].
      constructor; [rewrite Hs2; simpl; lia | constructor]. }
  split.
  { unfold storage.IsNil. cbn [s storage.sChunks].
    destruct (storage.Chunks s1 ++ storage.Chunks s2); [contradiction | reflexivity]. }
  split; [apply ChainFacts.Iterator_strict; exact Hord|].
  split.
  - intros p Hp. rewrite <- Hheld. now apply ChainFacts.Iterator_In.
  - intros p Hp Hmin. rewrite <- Hheld in *. split.
    + now apply ChainFacts.Iterator_complete.
    + now apply ChainFacts.Iterator_keeps.
Qed.

Lemma label_query_limit (op : M Event ParquetBlock (list (list string)))
  (run : option storage.LabelHints ->
         M Event parquetQuerier (list string * annotations.Annotations))
  (q : parquetQuerier) (K : Z) (rs : list (list (list string))) :
  (forall hints, run hints = label_query (limit_of hints) op) ->
  Forall2 (fun b r => value (op b) = inr r) (blocks q) rs ->
  exists l,
    value (run (Some {| storage.Limit := K |}) q) = inr (l, []) /\
    limit_semantics run rs q K l.
Proof.
  intros Hrun Hrs. rewrite !Hrun. cbn [limit_of storage.Limit].
  rewrite (label_query_ok _ _ _ _ Hrs).
  exists (util.MergeUnsortedSlices K (concat rs)). split; [reflexivity|].
  destruct (merge_unlimited (concat rs)) as [Hasc Hin].
  exists (util.MergeUnsortedSlices 0 (concat rs)).
  split; [now rewrite Hrun, (label_query_ok _ _ _ _ Hrs)|].
  split; [assumption|]. split; [assumption|].
  destruct (Z.ltb_spec 0 K) as [Hpos|Hle].
  - rewrite (merge_limited _ _ Hpos).
    destruct (firstn_smallest (Z.to_nat K) _ Hasc) as (Hf1 & Hf2 & Hf3).
    split; [assumption|]. split; [now apply ascending_NoDup|].
    split; [lia|]. intros _. auto.
  - rewrite (merge_nonpositive _ _ Hle).
    split; [assumption|]. split; [now apply ascending_NoDup|].
    split; [reflexivity | lia].
Qed.

(** C4. When every block answers, [LabelNames] and [LabelValues] return,
    for the limit [K], a list and nil annotations; the list is ascending
    and free of duplicates; for [K = 0] it is the whole deduplicated
    result, and for [K > 0] it is made of the [K] smallest entries of that
    result, or all of them when there are fewer. *)
Theorem label_lists_sorted_deduplicated_limited (name : string)
  (matchers : list labels.Matcher) (q : parquetQuerier) (K : Z) :
  (forall rs,
      Forall2 (fun b r => value (labelNames matchers b) = inr r) (blocks q) rs ->
      exists l,
        value (LabelNames (Some {| storage.Limit := K |}) matchers q) = inr (l, []) /\
        limit_semantics (fun hints => LabelNames hints matchers) rs q K l) /\
  (forall rs,
      Forall2 (fun b r => value (labelValues name matchers b) = inr r) (blocks q) rs ->
      exists l,
        value (LabelValues name (Some {| storage.Limit := K |}) matchers q) = inr (l, []) /\
        limit_semantics (fun hints => LabelValues name hints matchers) rs q K l).
Proof.
  split; intros rs Hrs.
  - apply (label_query_limit (labelNames matchers)
             (fun hints => LabelNames hints matchers) q K rs); [|exact Hrs].
    intros hints. apply LabelNames_label_query.
  - apply (label_query_limit (labelValues name matchers)
             (fun hints => LabelValues name hints matchers) q K rs); [|exact Hrs].
    intros hints. apply LabelValues_label_query.
Qed.

End Properties.

End Claims.

(** ** The properties on concrete blocks *)

Module Runs.
Import Eff search Order MergeSpec BlockSpec QuerierSpec ClaimSpec.
Import BlockFacts QuerierFacts MergeFacts UtilFacts Demo.

(** The specification's example: blocks A and B, queried sorted over
    [0,200), give one series [{job="x"}], which yields the samples of the
    chunk over [0,100) and then those of the chunk over [100,200). *)
Example select_A_then_B :
  match value (Select true (Some {| storage.Start := 0; storage.End_ := 200 |}) []
                 (querier [blockA; blockB])) with
  | inr ss =>
      map (fun s => (storage.sLabels s, map chunks.T (storage.Iterator s)))
          (storage.series ss)
  | inl _ => []
  end = [(job "x", [0; 99; 100; 199])].
Proof. reflexivity. Qed.

(** The same blocks listed the other way round: the samples still come
    in time order. *)
Example select_B_then_A :
  match value (Select true None [] (querier [blockB; blockA])) with
  | inr ss =>
      map (fun s => (storage.sLabels s, map chunks.T (storage.Iterator s)))
          (storage.series ss)
  | inl _ => []
  end = [(job "x", [0; 99; 100; 199])].
Proof. reflexivity. Qed.

(** Block A listed twice: every timestamp comes once. *)
Example select_A_twice :
  match value (Select true None [] (querier [blockA; blockA])) with
  | inr ss =>
      map (fun s => (storage.sLabels s, map chunks.T (storage.Iterator s)))
          (storage.series ss)
  | inl _ => []
  end = [(job "x", [0; 99])].
Proof. reflexivity. Qed.

(** C6 on a matcher whose pattern does not parse. *)
Lemma translation_error_before_io_witness :
  MatchersToConstraint [regexp_paren] = inl "error parsing regexp"%string /\
  (query true 0 1000 [regexp_paren] blockC =
     ([], blockC, inl "error parsing regexp"%string) /\
   labelNames [regexp_paren] blockC = ([], blockC, inl "error parsing regexp"%string) /\
   labelValues "job" [regexp_paren] blockC =
     ([], blockC, inl "error parsing regexp"%string)).
Proof.
  split; [reflexivity|].
  apply (Claims.translation_error_before_io (E := demo)). reflexivity.
Defined.

(** C2 as stated fails on blocks A and B: the unsorted result has one
    series, the concatenation has two. *)
Lemma unsorted_concatenation_refuted :
  ~ unsorted_is_concatenation (E := demo) None [] (querier [blockA; blockB]).
Proof.
  intros H.
  destruct (H 0 1000 [[seriesA]; [seriesB]] eq_refl) as (ss & Hv & Hs).
  - repeat constructor.
  - vm_compute in Hv. injection Hv as <-. vm_compute in Hs. discriminate.
Qed.

(** C2, amended, on blocks A, B and C. Blocks A and B start with
    [{job="x"}], the smallest label set a block starts with, and their two
    series are merged: the five series of the blocks give fewer than five.
    Block C is not in label order, so the result is not that of a sorted
    call. *)
Lemma unsorted_select_still_merges_witness :
  exists ss,
    value (Select false None [] (querier [blockA; blockB; blockC])) = inr ss /\
    storage.Err ss = None /\
    holds_content (concat [[seriesA]; [seriesB]; concat (search.lf blockC)])
      (storage.series ss) /\
    (length (storage.series ss) < 5)%nat.
Proof.
  destruct (Claims.unsorted_select_still_merges (E := demo) None []
              (querier [blockA; blockB; blockC]) 0 1000
              [[seriesA]; [seriesB]; concat (search.lf blockC)] eq_refl)
    as (_ & ss & Hv & _ & He & Hc & _ & Hfront & _).
  - repeat constructor.
  - exists ss. split; [exact Hv|]. split; [exact He|]. split; [exact Hc|].
    apply (Hfront (job "x")).
    + repeat constructor; vm_compute; discriminate.
    + vm_compute. apply le_n.
Defined.

(** C3 on blocks B and A, the later block listed first. *)
Lemma merged_series_is_time_ordered_union_witness :
  exists ss s,
    value (Select true None [] (querier [blockB; blockA])) = inr ss /\
    storage.Err ss = None /\
    select_series (job "x") (storage.series ss) = [s] /\
    storage.IsNil s = false /\
    strictly_timed (storage.Iterator s) /\
    (forall p, In p (storage.Iterator s) -> In p (held seriesB ++ held seriesA)) /\
    (forall p, In p (held seriesB ++ held seriesA) -> chunks.T p <> storage.MinInt64 ->
               In (chunks.T p) (map chunks.T (storage.Iterator s)) /\
               ((forall p', In p' (held seriesB ++ held seriesA) ->
                            chunks.T p' = chunks.T p -> p' = p) ->
                In p (storage.Iterator s))).
Proof.
  apply (Claims.merged_series_is_time_ordered_union (E := demo) None []
           (querier [blockB; blockA]) 0 1000 blockB blockA [seriesB] [seriesA]
           (job "x") seriesB seriesA); try reflexivity.
  - discriminate.
  - repeat constructor; vm_compute; discriminate.
Defined.

(** C4 on three blocks: the label names, all [job], with the limit 1, and
    the values of [job], which are x, z, a, x and x, with the limit 2. *)
Lemma label_lists_witness :
  (exists l,
      value (LabelNames (Some {| storage.Limit := 1 |}) []
               (querier [blockB; blockC; blockA])) = inr (l, []) /\
      limit_semantics (E := demo) (fun hints => LabelNames hints [])
        [[["job"]]; [["job"]; ["job"; "job"]]; [["job"]]]%string
        (querier [blockB; blockC; blockA]) 1 l) /\
  (exists l,
      value (LabelValues "job" (Some {| storage.Limit := 2 |}) []
               (querier [blockB; blockC; blockA])) = inr (l, []) /\
      limit_semantics (E := demo) (fun hints => LabelValues "job" hints [])
        [[["x"]]; [["z"]; ["a"; "x"]]; [["x"]]]%string
        (querier [blockB; blockC; blockA]) 2 l).
Proof.
  split.
  - apply (proj1 (Claims.label_lists_sorted_deduplicated_limited (E := demo) "job" []
                    (querier [blockB; blockC; blockA]) 1)).
    repeat constructor.
  - apply (proj2 (Claims.label_lists_sorted_deduplicated_limited (E := demo) "job" []
                    (querier [blockB; blockC; blockA]) 2)).
    repeat constructor.
Defined.

(** What the two calls of the witness return. *)
Example label_lists_run :
  value (LabelNames (Some {| storage.Limit := 1 |}) [] (querier [blockB; blockC; blockA])) =
    inr (["job"]%string, []) /\
  value (LabelValues "job" (Some {| storage.Limit := 2 |}) []
           (querier [blockB; blockC; blockA])) = inr (["a"; "x"]%string, []).
Proof. split; reflexivity. Qed.

(** C5 on a row group that cannot be read, and on a block whose second row
    group cannot be decoded, queried between two sound blocks. *)
Lemma first_error_aborts_witness :
  query true 0 1000 [] blockUnreadable =
    ([EvInitialize 3%nat;
      EvFilter [ {| storage.Labels := job "a"; storage.Chunks := [chunk 0 50] |} ];
      EvMaterialize 0 0 1000;
      EvFilter [ {| storage.Labels := []; storage.Chunks := [] |} ]],
     blockUnreadable, inl "row group cannot be read"%string) /\
  Select true None [] (querier [blockA; blockUndecodable; blockB]) =
    (flat_map (fun b => trace (query true 0 1000 [] b)) [blockA; blockUndecodable],
     querier [blockA; blockUndecodable; blockB],
     inr (storage.ErrSeriesSet "chunk cannot be decoded"%string)).
Proof.
  destruct (Claims.first_error_aborts (E := demo) true 0 1000 "job"%string None None [])
    as (HQ & _ & _ & (HS & _) & _ & _).
  split.
  - destruct (HQ [] blockUnreadable) as (_ & _ & HG & _).
    apply (proj1 (HG [] []
                    [[ {| storage.Labels := job "a"; storage.Chunks := [chunk 0 50] |} ]]
                    [ {| storage.Labels := []; storage.Chunks := [] |} ]
                    [[ {| storage.Labels := job "b"; storage.Chunks := [chunk 0 50] |} ]]
                    "row group cannot be read"%string eq_refl eq_refl eq_refl
                    ltac:(intros [|[|j]] g' Hj; simpl in Hj; inversion Hj;
                          eexists; eexists; split; reflexivity))).
    reflexivity.
  - apply (HS (querier [blockA; blockUndecodable; blockB]) [blockA] blockUndecodable
              [blockB] "chunk cannot be decoded"%string).
    + reflexivity.
    + constructor; [eexists; reflexivity | constructor].
    + reflexivity.
Defined.

(** The window of C10 on block A. *)
Example hints_window_run :
  trace (Select true (Some {| storage.Start := 10; storage.End_ := 20 |}) []
           (querier [blockA])) =
  [EvInitialize 1%nat; EvFilter [seriesA]; EvMaterialize 0 10 20].
Proof. reflexivity. Qed.

End Runs.

(** ** Further properties of [parquet_queriable.go] *)

Module Extras.
Import Eff EffSpec EffFacts search Order MergeSpec BlockSpec QuerierSpec ExtraSpec.
Import BlockFacts QuerierFacts ExtraFacts.
Local Open Scope eff_scope.

(** X1. [byLabels.Less] is a strict weak order, as [sort.Sort] needs: no
    series is less than itself, it is asymmetric and transitive, and two
    series neither of which is less than the other have the same label
    set. *)
Theorem byLabels_Less_strict_weak_order :
  (forall x, byLabels_Less x x = false) /\
  (forall x y, byLabels_Less x y = true -> byLabels_Less y x = false) /\
  (forall x y z,
      byLabels_Less x y = true -> byLabels_Less y z = true ->
      byLabels_Less x z = true) /\
  (forall x y,
      byLabels_Less x y = false -> byLabels_Less y x = false ->
      storage.Labels x = storage.Labels y).
Proof.
  unfold byLabels_Less. repeat split.
  - intros x. rewrite LabelsOrder.Compare_refl. reflexivity.
  - intros x y H. apply Z.ltb_lt in H. apply Z.ltb_ge.
    pose proof (LabelsOrder.Compare_antisym (storage.Labels x) (storage.Labels y)). lia.
  - intros x y z H1 H2. apply Z.ltb_lt in H1, H2. apply Z.ltb_lt.
    assert (Hle : labels.Compare (storage.Labels x) (storage.Labels z) <= 0)
      by (apply LabelsOrder.Compare_le_trans with (storage.Labels y); lia).
    destruct (Z.eq_dec (labels.Compare (storage.Labels x) (storage.Labels z)) 0)
      as [H0|H0]; [|lia].
    apply LabelsOrder.Compare_eq in H0. rewrite H0 in H1.
    pose proof (LabelsOrder.Compare_antisym (storage.Labels y) (storage.Labels z)). lia.
  - intros x y H1 H2. apply Z.ltb_ge in H1, H2. apply LabelsOrder.Compare_eq.
    pose proof (LabelsOrder.Compare_antisym (storage.Labels x) (storage.Labels y)). lia.
Qed.

(** X2. [byLabels.Swap] panics exactly when an index is out of range.
    Otherwise it keeps [Len], keeps the series up to their order, puts at
    [i] what was at [j] and at [j] what was at [i], leaves every other
    position alone, and is undone by the same swap. *)
Theorem byLabels_Swap_exchanges (b : list storage.ChunkSeries) (i j : nat) :
  (byLabels_Swap b i j = None <->
   (byLabels_Len b <= i)%nat \/ (byLabels_Len b <= j)%nat) /\
  (forall b',
      byLabels_Swap b i j = Some b' ->
      byLabels_Len b' = byLabels_Len b /\
      Permutation b' b /\
      nth_error b' i = nth_error b j /\
      nth_error b' j = nth_error b i /\
      (forall k, k <> i -> k <> j -> nth_error b' k = nth_error b k) /\
      byLabels_Swap b' i j = Some b).
Proof.
  unfold byLabels_Swap, byLabels_Len. split.
  - destruct (nth_error b j) as [bj|] eqn:Hj.
    + destruct (nth_error b i) as [bi|] eqn:Hi.
      * split; [discriminate|].
        assert (i < length b)%nat by (apply nth_error_Some; congruence).
        assert (j < length b)%nat by (apply nth_error_Some; congruence). lia.
      * apply nth_error_None in Hi. tauto.
    + apply nth_error_None in Hj. tauto.
  - intros b'. destruct (nth_error b j) as [bj|] eqn:Hj; [|discriminate].
    destruct (nth_error b i) as [bi|] eqn:Hi; [|discriminate].
    intros [= <-].
    assert (Hli : (i < length b)%nat) by (apply nth_error_Some; congruence).
    assert (Hlj : (j < length b)%nat) by (apply nth_error_Some; congruence).
    assert (Hat_j : nth_error (set_index (set_index b i bj) j bi) j = Some bi)
      by (apply set_index_nth_eq; now rewrite set_index_length).
    assert (Hat_i : nth_error (set_index (set_index b i bj) j bi) i = Some bj).
    { destruct (Nat.eq_dec i j) as [->|Hne].
      - rewrite Hat_j. congruence.
      - rewrite set_index_nth_ne by assumption. now apply set_index_nth_eq. }
    split; [now rewrite !set_index_length|].
    split; [now apply swap_perm|].
    split; [congruence|]. split; [congruence|]. split.
    + intros k Hki Hkj. now rewrite !set_index_nth_ne.
    + rewrite Hat_j, Hat_i. f_equal.
      apply nth_error_ext. intros k.
      destruct (Nat.eq_dec k j) as [->|Hkj].
      * rewrite set_index_nth_eq by now rewrite !set_index_length. congruence.
      * rewrite set_index_nth_ne by assumption.
        destruct (Nat.eq_dec k i) as [->|Hki].
        -- rewrite set_index_nth_eq by now rewrite !set_index_length. congruence.
        -- now rewrite !set_index_nth_ne.
Qed.

Section Properties.
Context {E : Externals}.

(** X3. The [sorted] flag of [query] only reorders: with and without it
    the same calls are made, the block is left as it was, the same error
    is returned, and on success the sorted result holds the series of the
    unsorted one, each as often, in label order. *)
Theorem query_sorted_only_reorders (mint maxt : Z) (matchers : list labels.Matcher)
  (b : ParquetBlock) :
  trace (query true mint maxt matchers b) = trace (query false mint maxt matchers b) /\
  state (query true mint maxt matchers b) = state (query false mint maxt matchers b) /\
  (forall e,
      value (query true mint maxt matchers b) = inl e <->
      value (query false mint maxt matchers b) = inl e) /\
  (forall r,
      value (query false mint maxt matchers b) = inr r ->
      exists r',
        value (query true mint maxt matchers b) = inr r' /\
        Permutation r' r /\ StronglySorted series_le r').
Proof.
  split; [now rewrite !query_trace|].
  split; [now rewrite !query_scan, !bind_ret_value|].
  split.
  - intros e. rewrite !query_value.
    destruct (value (scan _ _ _ _ matchers b)); split; congruence.
  - intros r H. exists (gosort.Sort byLabels_Less r).
    split; [now apply query_sorted_of_unsorted|].
    split; [apply SeriesOrder.byLabels_perm | apply SeriesOrder.byLabels_sorted].
Qed.

(** X4. [query] succeeds exactly when the matchers translate, the
    constraints bind to the block's schema, and every row group passes the
    filter and materializes, row group [i] with index [i] and the window
    given. Without [sorted] the result is then the row groups' series, row
    group after row group; with [sorted] it holds the same series, each as
    often, in label order (the order among series with the same label set
    is left open). The calls made are the binding followed by one filter
    and one materializer call per row group, in order. *)
Theorem query_concatenates_row_groups (sorted : bool) (mint maxt : Z)
  (matchers : list labels.Matcher) (b : ParquetBlock) :
  (forall r,
      value (query sorted mint maxt matchers b) = inr r ->
      exists outs,
        row_groups_yield (fun b i => Materialize (m b) i mint maxt) matchers b outs /\
        if sorted then Permutation r (concat outs) /\ StronglySorted series_le r
        else r = concat outs) /\
  (forall outs,
      row_groups_yield (fun b i => Materialize (m b) i mint maxt) matchers b outs ->
      exists r,
        value (query sorted mint maxt matchers b) = inr r /\
        if sorted then Permutation r (concat outs) /\ StronglySorted series_le r
        else r = concat outs) /\
  (forall r,
      value (query sorted mint maxt matchers b) = inr r ->
      trace (query sorted mint maxt matchers b) =
      EvInitialize (file_Schema (lf b))
        :: groups_events (fun i => EvMaterialize i mint maxt) 0 (file_RowGroups (lf b))).
Proof.
  split; [|split].
  - intros r H. destruct (query_rows _ _ _ _ _ _ H) as (outs & Hy & ->).
    exists outs. split; [assumption|]. destruct sorted; [|reflexivity].
    split; [apply SeriesOrder.byLabels_perm | apply SeriesOrder.byLabels_sorted].
  - intros outs Hy. rewrite (rows_query sorted _ _ _ _ _ Hy). eexists.
    split; [reflexivity|]. destruct sorted; [|reflexivity].
    split; [apply SeriesOrder.byLabels_perm | apply SeriesOrder.byLabels_sorted].
  - intros r. rewrite query_value, query_trace.
    destruct (value (scan _ _ _ _ matchers b)) as [e|results] eqn:Hs; [discriminate|].
    intros _. now apply scan_success_trace with results.
Qed.

(** X5. [labelNames] and [labelValues] succeed exactly when the matchers
    translate, the constraints bind, and every row group passes the filter
    and the label materializer; the result then has one entry per row
    group, entry [i] being what row group [i] materialized to, and the
    calls made are the binding followed by one filter and one materializer
    call per row group, in order. *)
Theorem label_results_per_row_group (name : string) (matchers : list labels.Matcher)
  (b : ParquetBlock) :
  (forall r,
      value (labelNames matchers b) = inr r <->
      row_groups_yield (fun b => MaterializeLabelNames (m b)) matchers b r) /\
  (forall r,
      value (labelValues name matchers b) = inr r <->
      row_groups_yield (fun b => MaterializeLabelValues (m b) name) matchers b r) /\
  (forall r,
      value (labelNames matchers b) = inr r ->
      trace (labelNames matchers b) =
      EvInitialize (file_Schema (lf b))
        :: groups_events EvMaterializeLabelNames 0 (file_RowGroups (lf b))) /\
  (forall r,
      value (labelValues name matchers b) = inr r ->
      trace (labelValues name matchers b) =
      EvInitialize (file_Schema (lf b))
        :: groups_events (EvMaterializeLabelValues name) 0 (file_RowGroups (lf b))).
Proof.
  assert (Hfold : forall (Y : Type)
                    (mat : ParquetBlock -> nat -> RowRanges -> result (list Y)) ys,
             row_groups_yield mat matchers b ys ->
             fold_acc (fun results i series => set_index results i series) 0
               (repeat [] (length (file_RowGroups (lf b)))) ys = ys).
  { intros Y mat ys (cs & cs' & _ & _ & Hlen & _). rewrite <- Hlen.
    exact (fold_acc_set_index [] ys []). }
  split; [|split; [|split]]; intros r.
  - rewrite labelNames_scan, scan_success_iff. split.
    + intros (ys & Hy & ->). now rewrite (Hfold _ _ _ Hy).
    + intros Hy. exists r. split; [assumption|]. now rewrite (Hfold _ _ _ Hy).
  - rewrite labelValues_scan, scan_success_iff. split.
    + intros (ys & Hy & ->). now rewrite (Hfold _ _ _ Hy).
    + intros Hy. exists r. split; [assumption|]. now rewrite (Hfold _ _ _ Hy).
  - rewrite labelNames_scan. apply scan_success_trace.
  - rewrite labelValues_scan. apply scan_success_trace.
Qed.

(** X6. A per-block operation never makes up an error: the error it
    returns is the one [MatchersToConstraint] returned, or [Initialize],
    or [Filter] on one of the block's row groups, or the operation's
    materializer call on one of them. *)
Theorem block_errors_come_from_calls (sorted : bool) (mint maxt : Z) (name : string)
  (matchers : list labels.Matcher) (b : ParquetBlock) (e : error) :
  (value (query sorted mint maxt matchers b) = inl e ->
   error_origin (fun b i => Materialize (m b) i mint maxt) matchers b e) /\
  (value (labelNames matchers b) = inl e ->
   error_origin (fun b => MaterializeLabelNames (m b)) matchers b e) /\
  (value (labelValues name matchers b) = inl e ->
   error_origin (fun b => MaterializeLabelValues (m b) name) matchers b e).
Proof.
  split; [|split].
  - rewrite query_value.
    destruct (value (scan _ _ _ _ matchers b)) as [e'|r] eqn:Hs; [|discriminate].
    intros [= <-]. now apply scan_error_origin in Hs.
  - rewrite labelNames_scan. apply scan_error_origin.
  - rewrite labelValues_scan. apply scan_error_origin.
Qed.

(** X7. [Select] reports no error exactly when the query of every block
    succeeds, and then every block was queried once, in block order. An
    error it reports is the error of the first block whose query fails,
    and the set then yields no series. *)
Theorem Select_error_is_first_block_error (sorted : bool)
  (sp : option storage.SelectHints) (matchers : list labels.Matcher)
  (q : parquetQuerier) :
  exists ss,
    value (Select sorted sp matchers q) = inr ss /\
    (storage.Err ss = None <->
     forall b, In b (blocks q) ->
       is_err (value (query sorted (fst (Select_window sp q)) (snd (Select_window sp q))
                        matchers b)) = false) /\
    (storage.Err ss = None ->
     trace (Select sorted sp matchers q) =
     flat_map (fun b => trace (query sorted (fst (Select_window sp q))
                                 (snd (Select_window sp q)) matchers b)) (blocks q)) /\
    (forall e,
        storage.Err ss = Some e ->
        storage.series ss = [] /\
        exists pre b post,
          blocks q = pre ++ b :: post /\
          Forall (fun b' =>
                    exists r,
                      value (query sorted (fst (Select_window sp q))
                               (snd (Select_window sp q)) matchers b') = inr r) pre /\
          value (query sorted (fst (Select_window sp q)) (snd (Select_window sp q))
                   matchers b) = inl e).
Proof.
  destruct (Select_window sp q) as [minT maxT] eqn:Hw. cbn [fst snd].
  destruct (blocks_ok_or_fail (query sorted minT maxT matchers) (blocks q))
    as [(rs & Hrs)|(pre & b & post & e & Hb & Hpre & He)].
  - rewrite (Select_ok _ _ _ _ _ _ _ Hw Hrs). eexists. split; [reflexivity|].
    cbn [Select_result storage.NewSeriesSetFromChunkSeriesSet storage.Err].
    split; [|split].
    + split; [|reflexivity]. intros _ b Hin.
      destruct (Forall2_In_l _ _ _ _ Hrs Hin) as (r & Hr). now rewrite Hr.
    + reflexivity.
    + discriminate.
  - rewrite (Select_fail _ _ _ _ _ _ _ _ _ _ Hw Hb Hpre He). eexists.
    split; [reflexivity|].
    cbn [storage.ErrSeriesSet storage.Err storage.series].
    split; [|split].
    + split; [discriminate|]. intros H.
      assert (Hin : In b (blocks q)) by (rewrite Hb; apply in_or_app; simpl; auto).
      specialize (H b Hin). rewrite He in H. discriminate.
    + discriminate.
    + intros e' [= <-]. split; [reflexivity|]. eauto 6.
Qed.

(** X8. The [sorted] flag of [Select] changes neither the calls made nor
    the error reported. *)
Theorem Select_flag_keeps_calls_and_error (sp : option storage.SelectHints)
  (matchers : list labels.Matcher) (q : parquetQuerier) :
  trace (Select true sp matchers q) = trace (Select false sp matchers q) /\
  exists ss ss',
    value (Select true sp matchers q) = inr ss /\
    value (Select false sp matchers q) = inr ss' /\
    storage.Err ss = storage.Err ss'.
Proof.
  destruct (Select_window sp q) as [minT maxT] eqn:Hw.
  assert (Htr : forall bs,
             flat_map (fun b => trace (query true minT maxT matchers b)) bs =
             flat_map (fun b => trace (query false minT maxT matchers b)) bs).
  { intros bs. apply flat_map_ext. intros b. apply query_flag_trace. }
  destruct (blocks_ok_or_fail (query false minT maxT matchers) (blocks q))
    as [(rs & Hrs)|(pre & b & post & e & Hb & Hpre & He)].
  - destruct (blocks_ok_flag false true minT maxT matchers (blocks q)
                (ex_intro _ rs Hrs)) as (rs' & Hrs').
    rewrite (Select_ok _ _ _ _ _ _ _ Hw Hrs), (Select_ok _ _ _ _ _ _ _ Hw Hrs').
    split; [apply Htr|]. eexists. eexists. repeat split.
  - assert (Hpre' : Forall (fun b' => exists r,
                              value (query true minT maxT matchers b') = inr r) pre).
    { eapply Forall_impl; [|exact Hpre]. intros b' (r & Hr).
      now apply query_flag_ok with false r. }
    pose proof (query_flag_error false true _ _ _ _ _ He) as He'.
    rewrite (Select_fail _ _ _ _ _ _ _ _ _ _ Hw Hb Hpre He).
    rewrite (Select_fail _ _ _ _ _ _ _ _ _ _ Hw Hb Hpre' He').
    split; [apply Htr|]. eexists. eexists. repeat split.
Qed.

(** X9. A querier without blocks makes no call and reports no error,
    whatever the matchers: they are translated once per block, so matchers
    that cannot be translated go unnoticed. *)
Theorem no_blocks_no_calls (mint maxt : Z) (sorted : bool)
  (sp : option storage.SelectHints) (hints : option storage.LabelHints)
  (name : string) (matchers : list labels.Matcher) :
  (trace (Select sorted sp matchers {| mint := mint; maxt := maxt; blocks := [] |}) = [] /\
   exists ss,
     value (Select sorted sp matchers {| mint := mint; maxt := maxt; blocks := [] |})
     = inr ss /\ storage.Err ss = None) /\
  (trace (LabelNames hints matchers {| mint := mint; maxt := maxt; blocks := [] |}) = [] /\
   is_err (value (LabelNames hints matchers
                    {| mint := mint; maxt := maxt; blocks := [] |})) = false) /\
  (trace (LabelValues name hints matchers
            {| mint := mint; maxt := maxt; blocks := [] |}) = [] /\
   is_err (value (LabelValues name hints matchers
                    {| mint := mint; maxt := maxt; blocks := [] |})) = false).
Proof.
  split; [|split].
  - destruct sp as [h|]; (split; [reflexivity|]); eexists; split; reflexivity.
  - split; reflexivity.
  - split; reflexivity.
Qed.

(** X10. [LabelNames] and [LabelValues] read the querier's blocks only:
    another time range gives the same calls and the same result, and
    other hints give the same calls and the same error, so a limit never
    spares a block or a row group. *)
Theorem label_calls_ignore_range_and_limit (mint' maxt' : Z)
  (hints hints' : option storage.LabelHints) (name : string)
  (matchers : list labels.Matcher) (q : parquetQuerier) :
  (trace (LabelNames hints matchers {| mint := mint'; maxt := maxt'; blocks := blocks q |})
   = trace (LabelNames hints matchers q) /\
   value (LabelNames hints matchers {| mint := mint'; maxt := maxt'; blocks := blocks q |})
   = value (LabelNames hints matchers q) /\
   trace (LabelNames hints' matchers q) = trace (LabelNames hints matchers q) /\
   forall e, value (LabelNames hints' matchers q) = inl e <->
             value (LabelNames hints matchers q) = inl e) /\
  (trace (LabelValues name hints matchers
            {| mint := mint'; maxt := maxt'; blocks := blocks q |})
   = trace (LabelValues name hints matchers q) /\
   value (LabelValues name hints matchers
            {| mint := mint'; maxt := maxt'; blocks := blocks q |})
   = value (LabelValues name hints matchers q) /\
   trace (LabelValues name hints' matchers q) = trace (LabelValues name hints matchers q) /\
   forall e, value (LabelValues name hints' matchers q) = inl e <->
             value (LabelValues name hints matchers q) = inl e).
Proof.
  assert (H : forall (op : M Event ParquetBlock (list (list string))),
    (trace (label_query (limit_of hints) op
              {| mint := mint'; maxt := maxt'; blocks := blocks q |})
     = trace (label_query (limit_of hints) op q) /\
     value (label_query (limit_of hints) op
              {| mint := mint'; maxt := maxt'; blocks := blocks q |})
     = value (label_query (limit_of hints) op q) /\
     trace (label_query (limit_of hints') op q) = trace (label_query (limit_of hints) op q) /\
     forall e, value (label_query (limit_of hints') op q) = inl e <->
               value (label_query (limit_of hints) op q) = inl e)).
  { intros op.
    destruct (label_query_blocks_only (limit_of hints) (limit_of hints) op
                {| mint := mint'; maxt := maxt'; blocks := blocks q |} q eq_refl)
      as (H1 & _ & H2).
    destruct (label_query_blocks_only (limit_of hints') (limit_of hints) op q q eq_refl)
      as (H3 & H4 & _).
    auto. }
  split.
  - rewrite !LabelNames_label_query. apply H.
  - rewrite !LabelValues_label_query. apply H.
Qed.

(** X11. Each querier call uses its own materializer and no other:
    [Select] never materializes label names or values, [LabelNames] never
    materializes series or label values, and [LabelValues] never
    materializes series or label names and asks only for the values of
    the label it was given. *)
Theorem each_call_uses_its_materializer (sorted : bool)
  (sp : option storage.SelectHints) (hints : option storage.LabelHints)
  (name : string) (matchers : list labels.Matcher) (q : parquetQuerier) :
  (forall ev, In ev (trace (Select sorted sp matchers q)) ->
     is_MaterializeLabelNames ev = false /\ is_MaterializeLabelValues ev = false) /\
  (forall ev, In ev (trace (LabelNames hints matchers q)) ->
     is_Materialize ev = false /\ is_MaterializeLabelValues ev = false) /\
  (forall ev, In ev (trace (LabelValues name hints matchers q)) ->
     is_Materialize ev = false /\ is_MaterializeLabelNames ev = false /\
     forall n i, ev = EvMaterializeLabelValues n i -> n = name).
Proof.
  split; [|split]; intros ev H.
  - destruct (Select_window sp q) as [minT maxT] eqn:Hw.
    destruct (Select_trace_in _ _ _ _ _ _ _ Hw H) as (b & _ & Hb).
    rewrite query_trace in Hb. apply scan_trace_in in Hb.
    destruct Hb as [->|[(g & ->)|(i & ->)]]; split; reflexivity.
  - rewrite LabelNames_label_query in H.
    destruct (label_query_trace_in _ _ _ _ H) as (b & _ & Hb).
    rewrite labelNames_scan in Hb. apply scan_trace_in in Hb.
    destruct Hb as [->|[(g & ->)|(i & ->)]]; split; reflexivity.
  - rewrite LabelValues_label_query in H.
    destruct (label_query_trace_in _ _ _ _ H) as (b & _ & Hb).
    rewrite labelValues_scan in Hb. apply scan_trace_in in Hb.
    destruct Hb as [->|[(g & ->)|(i & ->)]];
      (split; [reflexivity|]); (split; [reflexivity|]); intros n k Hev;
      try discriminate.
    now injection Hev as <- _.
Qed.

(** X12. [LabelNames] and [LabelValues] go through the blocks in order
    and merge once, at the end: when every block answers, each block was
    read once, the annotations are nil and the list is
    [MergeUnsortedSlices] of the limit and the row groups' lists, block
    after block; an error returned is the error of the first block that
    fails. *)
Theorem label_calls_merge_all_blocks (hints : option storage.LabelHints)
  (name : string) (matchers : list labels.Matcher) (q : parquetQuerier) :
  (forall rs,
      Forall2 (fun b r => value (labelNames matchers b) = inr r) (blocks q) rs ->
      LabelNames hints matchers q =
      (flat_map (fun b => trace (labelNames matchers b)) (blocks q), q,
       inr (util.MergeUnsortedSlices (limit_of hints) (concat rs), []))) /\
  (forall e,
      value (LabelNames hints matchers q) = inl e ->
      exists pre b post,
        blocks q = pre ++ b :: post /\
        Forall (fun b' => exists r, value (labelNames matchers b') = inr r) pre /\
        value (labelNames matchers b) = inl e) /\
  (forall rs,
      Forall2 (fun b r => value (labelValues name matchers b) = inr r) (blocks q) rs ->
      LabelValues name hints matchers q =
      (flat_map (fun b => trace (labelValues name matchers b)) (blocks q), q,
       inr (util.MergeUnsortedSlices (limit_of hints) (concat rs), []))) /\
  (forall e,
      value (LabelValues name hints matchers q) = inl e ->
      exists pre b post,
        blocks q = pre ++ b :: post /\
        Forall (fun b' => exists r, value (labelValues name matchers b') = inr r) pre /\
        value (labelValues name matchers b) = inl e).
Proof.
  split; [|split; [|split]].
  - intros rs H. rewrite LabelNames_label_query. now apply label_query_ok.
  - intros e. rewrite LabelNames_label_query. apply label_query_error.
  - intros rs H. rewrite LabelValues_label_query. now apply label_query_ok.
  - intros e. rewrite LabelValues_label_query. apply label_query_error.
Qed.

(** X13. When every block answers, [Select] hands the merge one set per
    block, block [i]'s set at position [i], together with
    [labels.Compare] and the concatenating merger, and returns the series
    set built from what the merge yields. *)
Theorem Select_merges_one_set_per_block (sorted : bool)
  (sp : option storage.SelectHints) (matchers : list labels.Matcher)
  (q : parquetQuerier) (rs : list storage.ChunkSeriesSet) :
  Forall2 (fun b r =>
             value (query sorted (fst (Select_window sp q)) (snd (Select_window sp q))
                      matchers b) = inr r) (blocks q) rs ->
  value (Select sorted sp matchers q) =
  inr (storage.NewSeriesSetFromChunkSeriesSet
         (convert.NewMergeChunkSeriesSet rs labels.Compare
            storage.NewConcatenatingChunkSeriesMerger)) /\
  length rs = length (blocks q).
Proof.
  destruct (Select_window sp q) as [minT maxT] eqn:Hw. cbn [fst snd]. intros H.
  rewrite (Select_ok _ _ _ _ _ _ _ Hw H). split; [reflexivity|].
  symmetry. exact (Forall2_length H).
Qed.

End Properties.

End Extras.

(** ** The further properties on concrete blocks *)

Module ExtraRuns.
Import Eff search Order MergeSpec BlockSpec QuerierSpec ExtraSpec Demo.

(** X2 on the series of blocks A and B. *)
Lemma byLabels_Swap_exchanges_witness :
  byLabels_Swap [seriesA; seriesB] 0 1 = Some [seriesB; seriesA] /\
  (byLabels_Len [seriesB; seriesA] = byLabels_Len [seriesA; seriesB] /\
   Permutation [seriesB; seriesA] [seriesA; seriesB] /\
   nth_error [seriesB; seriesA] 0 = nth_error [seriesA; seriesB] 1 /\
   nth_error [seriesB; seriesA] 1 = nth_error [seriesA; seriesB] 0 /\
   (forall k, k <> 0%nat -> k <> 1%nat ->
              nth_error [seriesB; seriesA] k = nth_error [seriesA; seriesB] k) /\
   byLabels_Swap [seriesB; seriesA] 0 1 = Some [seriesA; seriesB]).
Proof.
  split; [reflexivity|].
  apply (proj2 (Extras.byLabels_Swap_exchanges [seriesA; seriesB] 0 1)).
  reflexivity.
Defined.

(** X4 on block C, whose two row groups hold z, then a and x: not sorted,
    and sorted. *)
Lemma query_concatenates_row_groups_witness :
  (exists outs,
      row_groups_yield (fun b i => Materialize (m b) i 0 1000) [] blockC outs /\
      concat (lf blockC) = concat outs) /\
  (exists r,
      value (query true 0 1000 [] blockC) = inr r /\
      Permutation r (concat (lf blockC)) /\ StronglySorted series_le r).
Proof.
  split.
  - apply (proj1 (Extras.query_concatenates_row_groups (E := demo)
                    false 0 1000 [] blockC) (concat (lf blockC))).
    reflexivity.
  - destruct (proj1 (Extras.query_concatenates_row_groups (E := demo)
                       false 0 1000 [] blockC) (concat (lf blockC)) eq_refl)
      as (outs & Hy & Hc).
    rewrite Hc.
    exact (proj1 (proj2 (Extras.query_concatenates_row_groups (E := demo)
                           true 0 1000 [] blockC)) outs Hy).
Defined.

(** X5 on block C and the label [job]. *)
Lemma label_results_per_row_group_witness :
  value (labelValues "job" [] blockC) = inr [["z"]; ["a"; "x"]]%string /\
  row_groups_yield (fun b => MaterializeLabelValues (m b) "job") [] blockC
    [["z"]; ["a"; "x"]]%string.
Proof.
  split; [reflexivity|].
  apply (proj1 (proj1 (proj2 (Extras.label_results_per_row_group (E := demo)
                                "job" [] blockC)) [["z"]; ["a"; "x"]]%string)).
  reflexivity.
Defined.

(** X6 on the block whose second row group cannot be decoded. *)
Lemma block_errors_come_from_calls_witness :
  value (query true 0 1000 [] blockUndecodable) = inl "chunk cannot be decoded"%string /\
  error_origin (fun b i => Materialize (m b) i 0 1000) [] blockUndecodable
    "chunk cannot be decoded"%string.
Proof.
  split; [reflexivity|].
  apply (proj1 (Extras.block_errors_come_from_calls (E := demo) true 0 1000 "job" []
                  blockUndecodable "chunk cannot be decoded"%string)).
  reflexivity.
Defined.

(** X12 on blocks B, C and A. *)
Lemma label_calls_merge_all_blocks_witness :
  LabelNames None [] (querier [blockB; blockC; blockA]) =
  (flat_map (fun b => trace (labelNames [] b)) [blockB; blockC; blockA],
   querier [blockB; blockC; blockA],
   inr (util.MergeUnsortedSlices 0
          (concat [[["job"]]; [["job"]; ["job"; "job"]]; [["job"]]])%string, [])).
Proof.
  apply (proj1 (Extras.label_calls_merge_all_blocks (E := demo) None "job" []
                  (querier [blockB; blockC; blockA]))).
  repeat constructor.
Defined.

(** X13 on block C, listed before blocks A and B, not sorted. *)
Lemma Select_merges_one_set_per_block_witness :
  value (Select false None [] (querier [blockC; blockA; blockB])) =
  inr (storage.NewSeriesSetFromChunkSeriesSet
         (convert.NewMergeChunkSeriesSet [concat (lf blockC); [seriesA]; [seriesB]]
            labels.Compare storage.NewConcatenatingChunkSeriesMerger)) /\
  length [concat (lf blockC); [seriesA]; [seriesB]] =
  length (blocks (querier [blockC; blockA; blockB])).
Proof.
  apply (Extras.Select_merges_one_set_per_block (E := demo) false None []
           (querier [blockC; blockA; blockB])).
  repeat constructor.
Defined.

End ExtraRuns.
